(** * The generation orchestrator of the Elastic integration data generator

    A shallow embedding of [generator/main.py]: the registry of running
    integrations ([DataGenerator.integrations]), the operations
    [start_integration], [stop_integration], [stop_all], [get_status], and the
    body of the generator thread [_run_generator].

    Conventions of the embedding.
    - Python floats are exact rationals [Qc] where they are sleep lengths and
      times; a rate is a [PyFloat], a finite rational, an infinity or NaN,
      since [start_integration] takes whatever float it is given.
    - Python objects that are shared between the orchestrator and a generator
      thread ([IntegrationState], [threading.Event], [threading.Thread]) live
      in stores indexed by a reference; the registry holds references.
    - A Python exception is a [Raise]; a function that may raise returns a
      [result].
    - The process runs in steps: a call of the orchestrator, whole, as the
      one thread of the front end makes it; a step of a generator thread; or
      the passing of time. [start_integration], which takes no lock, is also
      cut in two, for the callers that overlap.
    - The content generators and the Elasticsearch client are outside the
      orchestrator: what a call to them gives back comes from an [Oracle].

    Beside the orchestrator the development embeds the key handling of the
    terminal front end ([ui/tui.py]), the data streams of the generator
    classes, the syslog message of the Cisco ASA generator
    ([integrations/cisco_asa.py]) and the body of a bulk request
    ([es_client.py]). *)

From Stdlib Require Import QArith Qcanon Ascii.
From stdpp Require Import base option list gmap strings.
From stdpp Require Import sorting pretty.

Local Open Scope string_scope.

(** ** Exceptions *)

Inductive PyExc :=
  | KeyError            (* d[k] on a missing key *)
  | ZeroDivisionError   (* x / 0.0 *)
  | ValueError          (* time.sleep of a negative length *)
  | OverflowError       (* time.sleep of a length beyond its clock *)
  | Exception           (* whatever a collaborator raises *)
  | DanglingRef.        (* a reference outside its store: no Python object *)

Inductive result (A : Type) :=
  | Ok (a : A)
  | Raise (e : PyExc).
Arguments Ok {A} a.
Arguments Raise {A} e.

#[export] Instance result_ret : MRet result := fun _ a => Ok a.
#[export] Instance result_bind : MBind result := fun _ _ f m =>
  match m with
  | Ok a => f a
  | Raise e => Raise e
  end.

Definition raises {A} (r : result A) : Prop :=
  match r with
  | Ok _ => False
  | Raise _ => True
  end.

(** [d[k]] and [k in d] on a dict with string keys. *)
Definition getitem {V} (d : gmap string V) (k : string) : result V :=
  match d !! k with
  | Some v => Ok v
  | None => Raise KeyError
  end.

Definition contains {V} (d : gmap string V) (k : string) : bool :=
  match d !! k with
  | Some _ => true
  | None => false
  end.

(** ** The catalog, [integrations/__init__.py]

    Only what [start_integration] reads is kept: the datasets of an
    integration and the generator class of a dataset (with its data stream);
    descriptions and icons are presentation. *)

Inductive GeneratorClass :=
  | WindowsSecurityGenerator
  | WindowsSystemGenerator
  | WindowsApplicationGenerator
  | NginxAccessGenerator
  | NginxErrorGenerator
  | CiscoASAGenerator.

Record DatasetInfo := mkDatasetInfo {
  data_stream : string;
  generator : GeneratorClass
}.

Record IntegrationInfo := mkIntegrationInfo {
  datasets : gmap string DatasetInfo
}.

Definition AVAILABLE_INTEGRATIONS : gmap string IntegrationInfo :=
  list_to_map [
    ("windows", mkIntegrationInfo (list_to_map [
       ("security", mkDatasetInfo "logs-windows.security-default" WindowsSecurityGenerator);
       ("system", mkDatasetInfo "logs-windows.system-default" WindowsSystemGenerator);
       ("application", mkDatasetInfo "logs-windows.application-default" WindowsApplicationGenerator)]));
    ("nginx", mkIntegrationInfo (list_to_map [
       ("access", mkDatasetInfo "logs-nginx.access-default" NginxAccessGenerator);
       ("error", mkDatasetInfo "logs-nginx.error-default" NginxErrorGenerator)]));
    ("cisco_asa", mkIntegrationInfo (list_to_map [
       ("log", mkDatasetInfo "logs-cisco_asa.log-default" CiscoASAGenerator)]))
  ].

(** [(name, dataset)] is a pair of the catalog. *)
Definition in_catalog (integration_name dataset : string) : Prop :=
  exists info, AVAILABLE_INTEGRATIONS !! integration_name = Some info
            /\ is_Some (datasets info !! dataset).

(** ** The state of one integration, [IntegrationState] *)

(** A Python float as [start_integration] can be given one: a finite value,
    kept as an exact rational, or one of the special values. *)
Inductive PyFloat :=
  | Finite (q : Qc)
  | PosInf            (* float('inf') *)
  | NegInf            (* float('-inf') *)
  | NaN.              (* float('nan') *)

Coercion Finite : Qc >-> PyFloat.

Record IntegrationState := mkIntegrationState {
  name : string;
  dataset : string;
  enabled : bool;
  events_per_second : PyFloat;
  total_events : nat;
  running : bool;
  thread : option nat;       (* reference to the threading.Thread *)
  stop_event : option nat    (* reference to the threading.Event *)
}.

Definition set_enabled (b : bool) (s : IntegrationState) : IntegrationState :=
  mkIntegrationState (name s) (dataset s) b (events_per_second s)
    (total_events s) (running s) (thread s) (stop_event s).

Definition set_running (b : bool) (s : IntegrationState) : IntegrationState :=
  mkIntegrationState (name s) (dataset s) (enabled s) (events_per_second s)
    (total_events s) b (thread s) (stop_event s).

Definition add_total_events (n : nat) (s : IntegrationState) : IntegrationState :=
  mkIntegrationState (name s) (dataset s) (enabled s) (events_per_second s)
    (total_events s + n) (running s) (thread s) (stop_event s).

(** ** The generator thread *)

(** One entry of [pending_events]:
    [{"action": {"create": {"_index": data_stream}}, "doc": event}];
    the event document is kept as its JSON text. *)
Record BulkAction := mkBulkAction {
  action_index : string;
  doc : string
}.

(** Where the thread stands in [_run_generator]. A sleeping thread records
    the time at which [time.sleep] returns. *)
Inductive Pc :=
  | PInit               (* generator_class(), sleep_interval, pending_events = [] *)
  | PLoop               (* while not stop_event.is_set() *)
  | PGenerate           (* generator.generate() and the append *)
  | PFlush              (* bulk_index of a full batch *)
  | PSleep (wake : Qc)  (* time.sleep(sleep_interval) *)
  | PBackoff (wake : Qc)(* except Exception: time.sleep(1) *)
  | PDrain              (* if pending_events: bulk_index *)
  | PFinish             (* state.running = False *)
  | PDone               (* the thread has returned *)
  | PCrashed.           (* the thread died of an exception nobody caught *)

Record GeneratorThread := mkGeneratorThread {
  generator_class : GeneratorClass;
  state : nat;                       (* args[1]: the IntegrationState *)
  stop_event_arg : nat;              (* args[2]: the threading.Event *)
  sleep_interval : Qc;
  pending_events : list BulkAction;
  pc : Pc
}.

Definition at_pc (p : Pc) (t : GeneratorThread) : GeneratorThread :=
  mkGeneratorThread (generator_class t) (state t) (stop_event_arg t)
    (sleep_interval t) (pending_events t) p.

Definition with_pending (l : list BulkAction) (t : GeneratorThread) : GeneratorThread :=
  mkGeneratorThread (generator_class t) (state t) (stop_event_arg t)
    (sleep_interval t) l (pc t).

Definition with_sleep_interval (i : Qc) (t : GeneratorThread) : GeneratorThread :=
  mkGeneratorThread (generator_class t) (state t) (stop_event_arg t)
    i (pending_events t) (pc t).

(** ** The running process

    [integrations] is [DataGenerator.integrations]; the three stores hold the
    objects it and the threads refer to; [clock] is the time in seconds;
    [bulk_calls] lists, latest first, the calls [es_client.bulk_index] has
    received, each with the thread that made it. *)
Record Runtime := mkRuntime {
  integrations : gmap string nat;
  heap : list IntegrationState;
  events : list bool;
  threads : list GeneratorThread;
  clock : Qc;
  bulk_calls : list (nat * list BulkAction)
}.

Definition initial : Runtime := mkRuntime ∅ [] [] [] 0%Qc [].

Definition deref (w : Runtime) (a : nat) : result IntegrationState :=
  match heap w !! a with
  | Some s => Ok s
  | None => Raise DanglingRef
  end.

Definition with_heap (h : list IntegrationState) (w : Runtime) : Runtime :=
  mkRuntime (integrations w) h (events w) (threads w) (clock w) (bulk_calls w).

Definition with_events (e : list bool) (w : Runtime) : Runtime :=
  mkRuntime (integrations w) (heap w) e (threads w) (clock w) (bulk_calls w).

Definition with_threads (t : list GeneratorThread) (w : Runtime) : Runtime :=
  mkRuntime (integrations w) (heap w) (events w) t (clock w) (bulk_calls w).

Definition with_clock (c : Qc) (w : Runtime) : Runtime :=
  mkRuntime (integrations w) (heap w) (events w) (threads w) c (bulk_calls w).

Definition with_bulk_calls (b : list (nat * list BulkAction)) (w : Runtime) : Runtime :=
  mkRuntime (integrations w) (heap w) (events w) (threads w) (clock w) b.

(** [Event.set()] on the event behind a reference. *)
Definition event_set (e : nat) (w : Runtime) : Runtime :=
  with_events (<[e := true]> (events w)) w.

(** ** The orchestrator *)

(** The registry key, [f"{integration_name}:{dataset}"]. *)
Definition key_of (integration_name dataset : string) : string :=
  integration_name +:+ ":" +:+ dataset.

(** [DataGenerator.start_integration]. *)
Definition start_integration (integration_name dataset : string) (eps : PyFloat)
    (w : Runtime) : result (bool * Runtime) :=
  let key := key_of integration_name dataset in
  is_running ←
    (if contains (integrations w) key
     then a ← getitem (integrations w) key; s ← deref w a; mret (running s)
     else mret false);
  if is_running : bool then mret (false, w) else
  if negb (contains AVAILABLE_INTEGRATIONS integration_name) then mret (false, w) else
  integration_info ← getitem AVAILABLE_INTEGRATIONS integration_name;
  if negb (contains (datasets integration_info) dataset) then mret (false, w) else
  dataset_info ← getitem (datasets integration_info) dataset;
  let generator_class := generator dataset_info in
  let stop_event := length (events w) in
  let a := length (heap w) in
  let t := length (threads w) in
  let state := mkIntegrationState integration_name dataset true eps 0 true
                 (Some t) (Some stop_event) in
  let thread := mkGeneratorThread generator_class a stop_event 0%Qc [] PInit in
  mret (true,
        mkRuntime (<[key := a]> (integrations w)) (heap w ++ [state])
          (events w ++ [false]) (threads w ++ [thread]) (clock w) (bulk_calls w)).

(** [DataGenerator.stop_integration]. *)
Definition stop_integration (integration_name dataset : string)
    (w : Runtime) : result (bool * Runtime) :=
  let key := key_of integration_name dataset in
  if negb (contains (integrations w) key) then mret (false, w) else
  a ← getitem (integrations w) key;
  s ← deref w a;
  let w1 := match stop_event s with
            | Some e => event_set e w
            | None => w
            end in
  mret (true, with_heap (<[a := set_enabled false s]> (heap w1)) w1).

(** [DataGenerator.stop_all]: every registered event is set. The joins that
    follow ([thread.join(timeout=2)]) only wait: they change no object, and
    the time they take is the clock's ([Tick]). *)
Definition stop_all (w : Runtime) : result Runtime :=
  foldr (fun '(_, a) acc =>
           w' ← acc;
           s ← deref w' a;
           mret (match stop_event s with
                 | Some e => event_set e w'
                 | None => w'
                 end))
        (mret w) (map_to_list (integrations w)).

(** One value of the dict [get_status] returns. *)
Record StatusEntry := mkStatusEntry {
  status_name : string;
  status_dataset : string;
  status_enabled : bool;
  status_running : bool;
  status_eps : PyFloat;
  status_total_events : nat
}.

Definition status_of (s : IntegrationState) : StatusEntry :=
  mkStatusEntry (name s) (dataset s) (enabled s) (running s)
    (events_per_second s) (total_events s).

(** [DataGenerator.get_status]. *)
Definition get_status (w : Runtime) : result (gmap string StatusEntry) :=
  foldr (fun '(key, a) acc =>
           status ← acc;
           s ← deref w a;
           mret (<[key := status_of s]> status))
        (mret ∅) (map_to_list (integrations w)).

(** ** The body of the thread, [DataGenerator._run_generator] *)

(** What the collaborators answer when the thread calls them. *)
Record Oracle := mkOracle {
  generate : result (string * string);   (* generator.generate() *)
  bulk_index : result unit               (* es_client.bulk_index(pending_events) *)
}.

Definition batch_size : nat := 10.

(** [x / y] on floats. *)
Definition truediv (x y : Qc) : result Qc :=
  if decide (y = 0%Qc) then Raise ZeroDivisionError else Ok (x / y)%Qc.

(** [1.0 / state.events_per_second if state.events_per_second > 0 else 1.0].
    An infinite rate is [> 0] and [1.0 / inf] is [0.0]; NaN and [-inf] are
    not [> 0]. The quotient of a finite rate is kept exact: where Python
    rounds it up to [inf], [time.sleep] refuses it as it refuses every
    length above [sleep_max], and no finite rate has a quotient that Python
    rounds down to [0.0]. *)
Definition compute_sleep_interval (eps : PyFloat) : result Qc :=
  match eps with
  | Finite q => if decide (0 < q)%Qc then truediv 1 q else Ok 1%Qc
  | PosInf => Ok 0%Qc
  | NegInf | NaN => Ok 1%Qc
  end.

(** The longest sleep [time.sleep] takes: CPython keeps the length as a
    signed 64-bit count of nanoseconds. *)
Definition sleep_max : Qc := Q2Qc (9223372036854775807 # 1000000000).

(** [time.sleep(secs)] called at [now]: the time at which it returns. A
    length that does not fit the clock is an [OverflowError], a negative one
    a [ValueError]. *)
Definition time_sleep (secs now : Qc) : result Qc :=
  if decide (sleep_max < secs \/ secs < - sleep_max)%Qc then Raise OverflowError
  else if decide (secs < 0)%Qc then Raise ValueError
  else Ok (now + secs)%Qc.

Definition set_thread (tid : nat) (t : GeneratorThread) (w : Runtime) : Runtime :=
  with_threads (<[tid := t]> (threads w)) w.

(** The handler of the loop body, [except Exception as e: time.sleep(1)]. *)
Definition backoff (t : GeneratorThread) (now : Qc) : GeneratorThread :=
  match time_sleep 1 now with
  | Ok wake => at_pc (PBackoff wake) t
  | Raise _ => at_pc PCrashed t
  end.

(** [time.sleep(sleep_interval)], inside the [try] of the loop body. *)
Definition rate_sleep (t : GeneratorThread) (now : Qc) : GeneratorThread :=
  match time_sleep (sleep_interval t) now with
  | Ok wake => at_pc (PSleep wake) t
  | Raise _ => backoff t now
  end.

(** [es_client.bulk_index(pending_events); state.total_events += len(pending_events)]
    under a [try] whose handler is [pass]. *)
Definition try_bulk_index (o : Oracle) (tid : nat) (t : GeneratorThread)
    (s : IntegrationState) (w : Runtime) : Runtime :=
  let w1 := with_bulk_calls ((tid, pending_events t) :: bulk_calls w) w in
  match bulk_index o with
  | Ok _ =>
      with_heap (<[state t := add_total_events (length (pending_events t)) s]> (heap w1)) w1
  | Raise _ => w1
  end.

(** One step of thread [tid]. [None]: the thread cannot run now (it sleeps,
    or it has ended). *)
Definition _run_generator (o : Oracle) (tid : nat) (w : Runtime) : option Runtime :=
  t ← threads w !! tid;
  match pc t with
  | PInit =>
      s ← heap w !! state t;
      match compute_sleep_interval (events_per_second s) with
      | Ok i => Some (set_thread tid (at_pc PLoop (with_pending [] (with_sleep_interval i t))) w)
      | Raise _ => Some (set_thread tid (at_pc PCrashed t) w)
      end
  | PLoop =>
      is_set ← events w !! stop_event_arg t;
      Some (set_thread tid (at_pc (if is_set : bool then PDrain else PGenerate) t) w)
  | PGenerate =>
      match generate o with
      | Ok (event, ds) =>
          let t' := with_pending (pending_events t ++ [mkBulkAction ds event]) t in
          if decide (batch_size ≤ length (pending_events t'))%nat
          then Some (set_thread tid (at_pc PFlush t') w)
          else Some (set_thread tid (rate_sleep t' (clock w)) w)
      | Raise _ => Some (set_thread tid (backoff t (clock w)) w)
      end
  | PFlush =>
      s ← heap w !! state t;
      Some (set_thread tid (rate_sleep (with_pending [] t) (clock w))
              (try_bulk_index o tid t s w))
  | PSleep wake | PBackoff wake =>
      if decide (wake ≤ clock w)%Qc
      then Some (set_thread tid (at_pc PLoop t) w)
      else None
  | PDrain =>
      s ← heap w !! state t;
      match pending_events t with
      | [] => Some (set_thread tid (at_pc PFinish t) w)
      | _ :: _ => Some (set_thread tid (at_pc PFinish t) (try_bulk_index o tid t s w))
      end
  | PFinish =>
      s ← heap w !! state t;
      Some (set_thread tid (at_pc PDone t)
              (with_heap (<[state t := set_running false s]> (heap w)) w))
  | PDone | PCrashed => None
  end.

(** ** Runs of the process *)

Inductive Label :=
  | CallStart (integration_name dataset : string) (eps : PyFloat)
  | CallStop (integration_name dataset : string)
  | CallStopAll
  | CallStatus
  | Run (tid : nat) (o : Oracle)   (* thread [tid] takes a step *)
  | Tick (d : Qc).                 (* [d] seconds pass *)

Definition step (l : Label) (w : Runtime) : option Runtime :=
  match l with
  | CallStart n d eps =>
      match start_integration n d eps w with
      | Ok (_, w') => Some w'
      | Raise _ => None
      end
  | CallStop n d =>
      match stop_integration n d w with
      | Ok (_, w') => Some w'
      | Raise _ => None
      end
  | CallStopAll =>
      match stop_all w with
      | Ok w' => Some w'
      | Raise _ => None
      end
  | CallStatus =>
      match get_status w with
      | Ok _ => Some w
      | Raise _ => None
      end
  | Run tid o => _run_generator o tid w
  | Tick d => if decide (0 ≤ d)%Qc then Some (with_clock (clock w + d)%Qc w) else None
  end.

Fixpoint exec (ls : list Label) (w : Runtime) : option Runtime :=
  match ls with
  | [] => Some w
  | l :: ls' =>
      match step l w with
      | Some w' => exec ls' w'
      | None => None
      end
  end.

(** The states the process can be in. *)
Definition reachable (w : Runtime) : Prop :=
  exists ls, exec ls initial = Some w.


(** ** Vocabulary of the properties *)

(** The runtime an accepted start leaves: a fresh state, its event and its
    thread are allocated, and the key is bound to the fresh state. *)
Definition spawn (integration_name dataset : string) (eps : PyFloat)
    (g : GeneratorClass) (w : Runtime) : Runtime :=
  mkRuntime
    (<[key_of integration_name dataset := length (heap w)]> (integrations w))
    (heap w ++ [mkIntegrationState integration_name dataset true eps 0 true
                  (Some (length (threads w))) (Some (length (events w)))])
    (events w ++ [false])
    (threads w ++ [mkGeneratorThread g (length (heap w)) (length (events w))
                     0%Qc [] PInit])
    (clock w) (bulk_calls w).

(** The key is bound to a state that is running. *)
Definition registered_running (w : Runtime) (key : string) : Prop :=
  exists a s, integrations w !! key = Some a /\ heap w !! a = Some s
            /\ running s = true.

(** ** Sample runs

    Runs of one integration, "nginx"/"access", used to evaluate the model. *)

Definition sample_event : string * string := ("{}", "logs-nginx.access-default").

(** Both collaborators answer. *)
Definition all_up : Oracle := mkOracle (Ok sample_event) (Ok tt).
(** Elasticsearch cannot be reached: [bulk_index] raises. *)
Definition sink_down : Oracle := mkOracle (Ok sample_event) (Raise Exception).
(** The generator raises. *)
Definition generator_down : Oracle := mkOracle (Raise Exception) (Ok tt).

(** Start at [eps] events per second and let the thread reach its loop. *)
Definition started_run (eps : Qc) : list Label :=
  [CallStart "nginx" "access" eps; Run 0 all_up].

(** One iteration that generates an event and sleeps [d] seconds. *)
Definition iteration (d : Qc) : list Label :=
  [Run 0 all_up; Run 0 all_up; Tick d; Run 0 all_up].

(** At 10 events per second: nine iterations, then a tenth event that fills
    the batch; the thread stands before the flush. *)
Definition full_batch_run : list Label :=
  started_run (Qc_of_Z 10)
  ++ concat (replicate 9 (iteration (Q2Qc (1 # 10))))
  ++ [Run 0 all_up; Run 0 all_up].

(** At 2 events per second: the thread stands before its first call of
    [generate]. *)
Definition before_generate_run : list Label :=
  started_run (Qc_of_Z 2) ++ [Run 0 all_up].

(** The runtime a run from [initial] ends in. *)
Definition run_from_initial (ls : list Label) : Runtime :=
  default initial (exec ls initial).

Definition full_batch_state : Runtime :=
  Eval vm_compute in run_from_initial full_batch_run.

Definition before_generate_state : Runtime :=
  Eval vm_compute in run_from_initial before_generate_run.

(** ** Consistency of the stores

    What every reachable runtime satisfies. A state, its event and its thread
    are allocated together and sit behind the same reference. *)

Record cell_ok (a : nat) (s : IntegrationState) (t : GeneratorThread) : Prop := {
  cell_thread : thread s = Some a;
  cell_stop_event : stop_event s = Some a;
  cell_state : state t = a;
  cell_stop_event_arg : stop_event_arg t = a;
  cell_catalog : in_catalog (name s) (dataset s);
  cell_alive : pc t <> PCrashed;
  cell_running : running s = true <-> pc t <> PDone;
  cell_interval :
    pc t <> PInit ->
    compute_sleep_interval (events_per_second s) = Ok (sleep_interval t)
}.

Record consistent (w : Runtime) : Prop := {
  same_events : length (events w) = length (heap w);
  same_threads : length (threads w) = length (heap w);
  cells : forall a s t,
    heap w !! a = Some s -> threads w !! a = Some t -> cell_ok a s t;
  registry_bound : forall key a,
    integrations w !! key = Some a ->
    exists s, heap w !! a = Some s /\ key = key_of (name s) (dataset s);
  running_registered : forall a s,
    heap w !! a = Some s -> running s = true ->
    integrations w !! key_of (name s) (dataset s) = Some a
}.

(** The sink calls thread [tid] has made. *)
Definition calls_of (tid : nat) (calls : list (nat * list BulkAction)) :
    list (list BulkAction) :=
  snd <$> filter (fun c => fst c = tid) calls.

(** The states of the store that belong to [key] and are running: the
    emission tasks of the key. *)
Definition running_tasks (w : Runtime) (key : string) : list IntegrationState :=
  filter (fun s => key_of (name s) (dataset s) = key /\ running s = true) (heap w).

(** The string has no colon. *)
Fixpoint no_colon (s : string) : bool :=
  match s with
  | EmptyString => true
  | String c r => negb (Ascii.eqb c ":"%char) && no_colon r
  end.

(** The pairs of the catalog. *)
Definition catalog_pairs : list (string * string) :=
  [("windows", "security"); ("windows", "system"); ("windows", "application");
   ("nginx", "access"); ("nginx", "error"); ("cisco_asa", "log")].

(** After a start of "nginx"/"access" at 5 events per second. *)
Definition started_state : Runtime :=
  Eval vm_compute in run_from_initial (started_run (Qc_of_Z 5)).

(** "nginx"/"access" is started at 2 events per second, generates one event,
    is stopped during its sleep, wakes, drains and returns. *)
Definition stopped_run : list Label :=
  started_run (Qc_of_Z 2)
  ++ [Run 0 all_up; Run 0 all_up; CallStop "nginx" "access"; Tick 1%Qc;
      Run 0 all_up; Run 0 all_up; Run 0 all_up; Run 0 all_up].

Definition stopped_state : Runtime :=
  Eval vm_compute in run_from_initial stopped_run.

(** The label is not a start of [key]. *)
Definition not_start_of (key : string) (l : Label) : Prop :=
  match l with
  | CallStart n d _ => key_of n d <> key
  | _ => True
  end.

(** How many steps a thread whose event is set can still take, at most. *)
Definition drain_rank (p : Pc) : nat :=
  match p with
  | PGenerate => 6
  | PFlush => 5
  | PInit | PSleep _ | PBackoff _ => 4
  | PLoop => 3
  | PDrain => 2
  | PFinish => 1
  | PDone | PCrashed => 0
  end.

(** The thread sleeps until [wake]. *)
Definition asleep_until (wake : Qc) (t : GeneratorThread) : Prop :=
  pc t = PSleep wake \/ pc t = PBackoff wake.

(** The label is not a step of thread [tid]. *)
Definition not_run_of (tid : nat) (l : Label) : Prop :=
  match l with
  | Run tid' _ => tid' <> tid
  | _ => True
  end.

(** "nginx"/"access" is started at one event per 100 seconds, generates its
    first event and goes to sleep; it is stopped at once, and 50 seconds
    pass. *)
Definition stop_during_sleep_run : list Label :=
  started_run (Q2Qc (1 # 100))
  ++ [Run 0 all_up; Run 0 all_up; CallStop "nginx" "access"; Tick (Qc_of_Z 50)].

Definition stop_during_sleep_state : Runtime :=
  Eval vm_compute in run_from_initial stop_during_sleep_run.

(** The same thread just before the stop: asleep until time 100. *)
Definition asleep_state : Runtime :=
  Eval vm_compute in
    run_from_initial (started_run (Q2Qc (1 # 100)) ++ [Run 0 all_up; Run 0 all_up]).

(** And after its sleep: stopped, awake, at the top of its loop with one
    pending event. *)
Definition cancelled_state : Runtime :=
  Eval vm_compute in
    run_from_initial (stop_during_sleep_run ++ [Tick (Qc_of_Z 50); Run 0 all_up]).

(** Where [time.sleep(sleep_interval)] leaves a thread that calls it at
    [now]: asleep for the interval, or, when the length is refused, asleep
    in the handler for one second. *)
Definition slept (t : GeneratorThread) (now : Qc) (p : Pc) : Prop :=
  ((sleep_interval t ≤ sleep_max)%Qc /\ p = PSleep (now + sleep_interval t)%Qc)
  \/ ((sleep_max < sleep_interval t)%Qc /\ p = PBackoff (now + 1)%Qc).

(** ** The steps of a thread, case by case

    [moves o tid w s t w'] lists what a step of thread [tid] can be when its
    thread [t] and its state [s] sit behind the reference [tid]. *)
Inductive moves (o : Oracle) (tid : nat) (w : Runtime)
    (s : IntegrationState) (t : GeneratorThread) : Runtime -> Prop :=
  | moves_init i :
      pc t = PInit ->
      compute_sleep_interval (events_per_second s) = Ok i ->
      moves o tid w s t
        (set_thread tid (at_pc PLoop (with_pending [] (with_sleep_interval i t))) w)
  | moves_loop (is_set : bool) :
      pc t = PLoop ->
      events w !! tid = Some is_set ->
      moves o tid w s t
        (set_thread tid (at_pc (if is_set then PDrain else PGenerate) t) w)
  | moves_generate_full event ds :
      pc t = PGenerate ->
      generate o = Ok (event, ds) ->
      (batch_size <= length (pending_events t ++ [mkBulkAction ds event]))%nat ->
      moves o tid w s t
        (set_thread tid
           (at_pc PFlush
              (with_pending (pending_events t ++ [mkBulkAction ds event]) t)) w)
  | moves_generate_sleep event ds p :
      pc t = PGenerate ->
      generate o = Ok (event, ds) ->
      (length (pending_events t ++ [mkBulkAction ds event]) < batch_size)%nat ->
      slept t (clock w) p ->
      moves o tid w s t
        (set_thread tid
           (at_pc p
              (with_pending (pending_events t ++ [mkBulkAction ds event]) t)) w)
  | moves_generate_raise e :
      pc t = PGenerate ->
      generate o = Raise e ->
      moves o tid w s t
        (set_thread tid (at_pc (PBackoff (clock w + 1)%Qc) t) w)
  | moves_flush p :
      pc t = PFlush ->
      slept t (clock w) p ->
      moves o tid w s t
        (set_thread tid
           (at_pc p (with_pending [] t))
           (try_bulk_index o tid t s w))
  | moves_wake wake :
      asleep_until wake t ->
      (wake ≤ clock w)%Qc ->
      moves o tid w s t (set_thread tid (at_pc PLoop t) w)
  | moves_drain_nothing :
      pc t = PDrain ->
      pending_events t = [] ->
      moves o tid w s t (set_thread tid (at_pc PFinish t) w)
  | moves_drain :
      pc t = PDrain ->
      pending_events t <> [] ->
      moves o tid w s t
        (set_thread tid (at_pc PFinish t) (try_bulk_index o tid t s w))
  | moves_finish :
      pc t = PFinish ->
      moves o tid w s t
        (set_thread tid (at_pc PDone t)
           (with_heap (<[tid := set_running false s]> (heap w)) w)).

(** ** The steps of the process, case by case

    [changes w l w'] lists what a step with label [l] can do to a
    consistent runtime. *)
Inductive changes (w : Runtime) : Label -> Runtime -> Prop :=
  | changes_nothing l :
      (* a rejected request, or a status query *)
      match l with CallStart _ _ _ | CallStop _ _ | CallStatus => True | _ => False end ->
      changes w l w
  | changes_start n d eps g :
      in_catalog n d ->
      ~ registered_running w (key_of n d) ->
      changes w (CallStart n d eps) (spawn n d eps g w)
  | changes_stop n d a s :
      integrations w !! key_of n d = Some a ->
      heap w !! a = Some s ->
      changes w (CallStop n d)
        (with_heap (<[a := set_enabled false s]> (heap w)) (event_set a w))
  | changes_stop_all w' :
      integrations w' = integrations w ->
      heap w' = heap w ->
      threads w' = threads w ->
      clock w' = clock w ->
      bulk_calls w' = bulk_calls w ->
      length (events w') = length (events w) ->
      (forall e, events w' !! e = Some true <->
                 (events w !! e = Some true
                  \/ exists key, integrations w !! key = Some e)) ->
      changes w CallStopAll w'
  | changes_run tid o s t w' :
      heap w !! tid = Some s ->
      threads w !! tid = Some t ->
      cell_ok tid s t ->
      moves o tid w s t w' ->
      changes w (Run tid o) w'
  | changes_tick d :
      (0 ≤ d)%Qc ->
      changes w (Tick d) (with_clock (clock w + d)%Qc w).

(** ** Invariants of batches and counters *)

(** The batch of a thread is full exactly when the thread stands before the
    flush of the loop, and is below the batch size everywhere else. *)
Definition batch_ok (t : GeneratorThread) : Prop :=
  match pc t with
  | PFlush => length (pending_events t) = batch_size
  | _ => length (pending_events t) < batch_size
  end.

Definition batches_bounded (w : Runtime) : Prop :=
  (forall tid t, threads w !! tid = Some t -> batch_ok t)
  /\ (forall tid batch, (tid, batch) ∈ bulk_calls w ->
        1 <= length batch <= batch_size).

(** The number of events thread [tid] has handed to the sink. *)
Definition offered (tid : nat) (w : Runtime) : nat :=
  sum_list (length <$> calls_of tid (bulk_calls w)).

(** The thread has left its loop. *)
Definition left_loop (t : GeneratorThread) : Prop :=
  pc t = PDrain \/ pc t = PFinish \/ pc t = PDone.

(** The least time between two calls of the generator by one thread: the
    interval, or the one-second backoff when that is shorter. *)
Definition spacing (t : GeneratorThread) : Qc :=
  if decide (sleep_interval t ≤ 1)%Qc then sleep_interval t else 1%Qc.

(** Thread state [p] at time [now] cannot call the generator before time [b]. *)
Definition ready_after (b now : Qc) (p : Pc) : Prop :=
  match p with
  | PInit => False
  | PLoop | PGenerate => (b ≤ now)%Qc
  | PSleep wake | PBackoff wake => (b ≤ wake)%Qc
  | _ => True
  end.

(** How many sink calls a thread whose event is set can still make. *)
Definition calls_left (t : GeneratorThread) : nat :=
  match pc t with
  | PGenerate | PFlush => 1
  | PSleep _ | PBackoff _ | PLoop | PDrain =>
      match pending_events t with
      | [] => 0
      | _ :: _ => 1
      end
  | PInit | PFinish | PDone | PCrashed => 0
  end.

(** Two registered tasks, "nginx"/"access" and "windows"/"security". *)
Definition two_tasks_state : Runtime :=
  Eval vm_compute in
    run_from_initial
      [CallStart "nginx" "access" (Qc_of_Z 5);
       CallStart "windows" "security" (Qc_of_Z 1)].

(** * The terminal front end, [ui/tui.py]

    [IntegrationTUI] drives the orchestrator from the keyboard: what
    [_handle_input], [_get_max_cursor_pos] and [_handle_enter] read and write
    is kept; drawing is left out. *)

(** ** Exceptions and subscripts *)

Inductive UiExc :=
  | IndexError               (* l[i] outside the list *)
  | PyError (e : PyExc).     (* raised by a dict or by the orchestrator *)

Inductive outcome (A : Type) :=
  | Returns (a : A)
  | Throws (e : UiExc).
Arguments Returns {A} a.
Arguments Throws {A} e.

#[export] Instance outcome_ret : MRet outcome := fun _ a => Returns a.
#[export] Instance outcome_bind : MBind outcome := fun _ _ f m =>
  match m with
  | Returns a => f a
  | Throws e => Throws e
  end.

Definition of_result {A} (r : result A) : outcome A :=
  match r with
  | Ok a => Returns a
  | Raise e => Throws (PyError e)
  end.

(** [len(l)]. *)
Definition len {A} (l : list A) : Z := Z.of_nat (length l).

(** [l[i]] on a list: a negative index counts from the end. *)
Definition subscript {A} (l : list A) (i : Z) : outcome A :=
  let j := if decide (i < 0)%Z then (i + len l)%Z else i in
  if decide (j < 0)%Z then Throws IndexError else
  match l !! Z.to_nat j with
  | Some x => Returns x
  | None => Throws IndexError
  end.

(** [min(x, y)] and [max(x, y)] on floats: the first argument unless the
    second is strictly smaller (larger). *)
Definition float_min (x y : Qc) : Qc := if decide (y < x)%Qc then y else x.
Definition float_max (x y : Qc) : Qc := if decide (x < y)%Qc then y else x.

(** ** The catalog in the order it is written

    A Python dict lists its keys in the order of their insertion. The front
    end relies on it for the datasets of an integration, so the dict literal
    of [integrations/__init__.py] is kept here as it is written;
    [AVAILABLE_INTEGRATIONS] is the same dict without the order. *)
Definition catalog_literal : list (string * list (string * DatasetInfo)) :=
  [("windows",
      [("security", mkDatasetInfo "logs-windows.security-default" WindowsSecurityGenerator);
       ("system", mkDatasetInfo "logs-windows.system-default" WindowsSystemGenerator);
       ("application", mkDatasetInfo "logs-windows.application-default" WindowsApplicationGenerator)]);
   ("nginx",
      [("access", mkDatasetInfo "logs-nginx.access-default" NginxAccessGenerator);
       ("error", mkDatasetInfo "logs-nginx.error-default" NginxErrorGenerator)]);
   ("cisco_asa",
      [("log", mkDatasetInfo "logs-cisco_asa.log-default" CiscoASAGenerator)])].

(** [AVAILABLE_INTEGRATIONS[name]["datasets"].items()]. *)
Definition dataset_items : gmap string (list (string * DatasetInfo)) :=
  list_to_map catalog_literal.

(** The order of [str]: by code points. *)
Definition str_le (a b : string) : Prop := String.leb a b = true.

#[export] Instance str_le_dec a b : Decision (str_le a b) :=
  decide (String.leb a b = true).

(** [sorted(AVAILABLE_INTEGRATIONS.keys())]. *)
Definition integration_list : list string :=
  merge_sort str_le (catalog_literal.*1).

(** ** The registry in the order of its insertions

    [self.generator.integrations.items()]: a key stands where it was first
    inserted, with the state it is bound to now. Every accepted start
    allocates one state in the store, so the store gives the order. *)
Definition first_inserted (w : Runtime) : list string :=
  reverse (remove_dups (reverse
    ((fun s => key_of (name s) (dataset s)) <$> heap w))).

Definition registry_items (w : Runtime) : list (string * nat) :=
  omap (fun key => (key,.) <$> integrations w !! key) (first_inserted w).

(** [[(k, v) for k, v in items if v.running]]. *)
Fixpoint running_of (w : Runtime) (items : list (string * nat)) :
    result (list (string * IntegrationState)) :=
  match items with
  | [] => mret []
  | (key, a) :: items' =>
      s ← deref w a;
      rest ← running_of w items';
      mret (if running s then (key, s) :: rest else rest)
  end.

(** ** The state of the front end *)

Inductive View :=
  | ViewIntegrations   (* "integrations" *)
  | ViewDatasets       (* "datasets" *)
  | ViewConfig         (* "config" *)
  | ViewStatus.        (* "status" *)

Record IntegrationTUI := mkIntegrationTUI {
  current_view : View;
  selected_integration : option string;
  selected_dataset : option string;
  cursor_pos : Z;
  eps_value : Qc;
  scroll_offset : Z
}.

(** [IntegrationTUI.__init__]. *)
Definition initial_tui : IntegrationTUI :=
  mkIntegrationTUI ViewIntegrations None None 0 1%Qc 0.

Definition set_current_view (v : View) (ui : IntegrationTUI) : IntegrationTUI :=
  mkIntegrationTUI v (selected_integration ui) (selected_dataset ui)
    (cursor_pos ui) (eps_value ui) (scroll_offset ui).

Definition set_selected_integration (o : option string) (ui : IntegrationTUI) :
    IntegrationTUI :=
  mkIntegrationTUI (current_view ui) o (selected_dataset ui)
    (cursor_pos ui) (eps_value ui) (scroll_offset ui).

Definition set_selected_dataset (o : option string) (ui : IntegrationTUI) :
    IntegrationTUI :=
  mkIntegrationTUI (current_view ui) (selected_integration ui) o
    (cursor_pos ui) (eps_value ui) (scroll_offset ui).

Definition set_cursor_pos (i : Z) (ui : IntegrationTUI) : IntegrationTUI :=
  mkIntegrationTUI (current_view ui) (selected_integration ui)
    (selected_dataset ui) i (eps_value ui) (scroll_offset ui).

Definition set_eps_value (x : Qc) (ui : IntegrationTUI) : IntegrationTUI :=
  mkIntegrationTUI (current_view ui) (selected_integration ui)
    (selected_dataset ui) (cursor_pos ui) x (scroll_offset ui).

Definition set_scroll_offset (i : Z) (ui : IntegrationTUI) : IntegrationTUI :=
  mkIntegrationTUI (current_view ui) (selected_integration ui)
    (selected_dataset ui) (cursor_pos ui) (eps_value ui) i.

Definition is_config (v : View) : bool :=
  match v with
  | ViewConfig => true
  | _ => false
  end.

(** ** Keys *)

(** [ord(c)]. *)
Definition ord (c : ascii) : Z := Z.of_N (N_of_ascii c).

(** The key codes of [curses]. *)
Definition KEY_DOWN : Z := 258.
Definition KEY_UP : Z := 259.
Definition KEY_LEFT : Z := 260.
Definition KEY_RIGHT : Z := 261.
Definition KEY_ENTER : Z := 343.

(** ** The handlers *)

(** [IntegrationTUI._get_max_cursor_pos]. An integration that is [None] or
    the empty string is false. *)
Definition _get_max_cursor_pos (ui : IntegrationTUI) (w : Runtime) : outcome Z :=
  match current_view ui with
  | ViewIntegrations => mret (len integration_list - 1)%Z
  | ViewDatasets =>
      match selected_integration ui with
      | Some (String _ _ as sel) =>
          ds ← of_result (getitem dataset_items sel);
          mret (len ds - 1)%Z
      | _ => mret 0%Z
      end
  | ViewStatus =>
      running ← of_result (running_of w (registry_items w));
      mret (Z.max 0 (len running - 1))
  | ViewConfig => mret 0%Z
  end.

(** The call [start_integration(selected_integration, selected_dataset, eps)]
    of the front end, whose selections may be [None]. With a [None] the key
    is formatted with "None", and the call returns [False]: [None] is a key
    of no dict. *)
Definition start_selected (n d : option string) (eps : Qc) (w : Runtime) :
    result (bool * Runtime) :=
  match n, d with
  | Some n, Some d => start_integration n d eps w
  | _, _ =>
      let key := key_of (default "None" n) (default "None" d) in
      _ ← (if contains (integrations w) key
           then a ← getitem (integrations w) key; s ← deref w a; mret (running s)
           else mret false);
      mret (false, w)
  end.

(** [IntegrationTUI._handle_enter]. *)
Definition _handle_enter (ui : IntegrationTUI) (w : Runtime) :
    outcome (IntegrationTUI * Runtime) :=
  match current_view ui with
  | ViewIntegrations =>
      sel ← subscript integration_list (cursor_pos ui);
      mret (set_cursor_pos 0
              (set_current_view ViewDatasets
                 (set_selected_integration (Some sel) ui)), w)
  | ViewDatasets =>
      ds ← of_result (match selected_integration ui with
                      | Some sel => getitem dataset_items sel
                      | None => Raise KeyError
                      end);
      d ← subscript (ds.*1) (cursor_pos ui);
      mret (set_eps_value 1%Qc
              (set_current_view ViewConfig
                 (set_selected_dataset (Some d) ui)), w)
  | ViewConfig =>
      '(success, w') ← of_result
        (start_selected (selected_integration ui) (selected_dataset ui)
           (eps_value ui) w);
      if success : bool
      then mret (set_cursor_pos 0 (set_current_view ViewStatus ui), w')
      else mret (ui, w')
  | ViewStatus =>
      running ← of_result (running_of w (registry_items w));
      match running with
      | [] => mret (ui, w)
      | _ :: _ =>
          if decide (cursor_pos ui < len running)%Z
          then '(_, s) ← subscript running (cursor_pos ui);
               '(_, w') ← of_result (stop_integration (name s) (dataset s) w);
               mret (ui, w')
          else mret (ui, w)
      end
  end.

(** [IntegrationTUI._handle_input]: the answer is [False] when the loop of
    [_main] has to end. *)
Definition _handle_input (key : Z) (ui : IntegrationTUI) (w : Runtime) :
    outcome (bool * (IntegrationTUI * Runtime)) :=
  if decide (key = ord "q" \/ key = ord "Q") then
    w' ← of_result (stop_all w);
    mret (false, (ui, w'))
  else
    after ←
      (if decide (key = ord "i" \/ key = ord "I") then
         mret (set_scroll_offset 0
                 (set_cursor_pos 0 (set_current_view ViewIntegrations ui)), w)
       else if decide (key = ord "s" \/ key = ord "S") then
         mret (set_cursor_pos 0 (set_current_view ViewStatus ui), w)
       else if decide (key = 27)%Z then
         match current_view ui with
         | ViewConfig =>
             mret (set_cursor_pos 0 (set_current_view ViewDatasets ui), w)
         | ViewDatasets =>
             mret (set_selected_integration None
                     (set_cursor_pos 0 (set_current_view ViewIntegrations ui)), w)
         | _ => mret (ui, w)
         end
       else if decide (key = KEY_UP) then
         if is_config (current_view ui)
         then mret (set_eps_value
                      (float_min (Qc_of_Z 100) (eps_value ui + Q2Qc (1 # 2))) ui, w)
         else mret (set_cursor_pos (Z.max 0 (cursor_pos ui - 1)) ui, w)
       else if decide (key = KEY_DOWN) then
         if is_config (current_view ui)
         then mret (set_eps_value
                      (float_max (Q2Qc (1 # 10)) (eps_value ui - Q2Qc (1 # 2))) ui, w)
         else max_pos ← _get_max_cursor_pos ui w;
              mret (set_cursor_pos (Z.min max_pos (cursor_pos ui + 1)) ui, w)
       else if bool_decide (key = KEY_LEFT) && is_config (current_view ui) then
         mret (set_eps_value
                 (float_max (Q2Qc (1 # 10)) (eps_value ui - Q2Qc (1 # 2))) ui, w)
       else if bool_decide (key = KEY_RIGHT) && is_config (current_view ui) then
         mret (set_eps_value
                 (float_min (Qc_of_Z 100) (eps_value ui + Q2Qc (1 # 2))) ui, w)
       else if decide (key = 10 \/ key = KEY_ENTER)%Z then
         _handle_enter ui w
       else mret (ui, w));
    mret (true, after).

(** ** A session: the loop of [_main] beside the generator threads

    [screen.getch()] hands a key to [_handle_input]; in between the threads
    run and time passes. After a [False] of [_handle_input] the loop is left
    and the program ends; an exception ends it as well. *)
Record Session := mkSession {
  tui : IntegrationTUI;
  process : Runtime;
  exited : bool
}.

Inductive Input :=
  | Key (key : Z)                    (* [screen.getch()] returns [key] *)
  | Thread (tid : nat) (o : Oracle)  (* thread [tid] takes a step *)
  | Elapse (d : Qc).                 (* [d] seconds pass *)

Definition session_step (i : Input) (ss : Session) : option Session :=
  if exited ss then None else
  match i with
  | Key key =>
      match _handle_input key (tui ss) (process ss) with
      | Returns (continue, (ui, w)) => Some (mkSession ui w (negb continue))
      | Throws _ => None
      end
  | Thread tid o =>
      w ← step (Run tid o) (process ss); Some (mkSession (tui ss) w false)
  | Elapse d =>
      w ← step (Tick d) (process ss); Some (mkSession (tui ss) w false)
  end.

Fixpoint session_exec (inputs : list Input) (ss : Session) : option Session :=
  match inputs with
  | [] => Some ss
  | i :: inputs' =>
      match session_step i ss with
      | Some ss' => session_exec inputs' ss'
      | None => None
      end
  end.

(** [main]: a fresh orchestrator and a fresh front end. *)
Definition initial_session : Session := mkSession initial_tui initial false.

Definition session_reachable (ss : Session) : Prop :=
  exists inputs, session_exec inputs initial_session = Some ss.

(** What the front end keeps true of its own fields: the rate stays between
    0.1 and 100, the cursor is not negative, a list view has its cursor on a
    row, and the later views hold a selection of the catalog. *)
Definition view_ok (ui : IntegrationTUI) : Prop :=
  match current_view ui with
  | ViewIntegrations => (cursor_pos ui < len integration_list)%Z
  | ViewDatasets =>
      exists sel ds,
        selected_integration ui = Some sel
        /\ sel ∈ integration_list
        /\ dataset_items !! sel = Some ds
        /\ (cursor_pos ui < len ds)%Z
  | ViewConfig =>
      exists sel d,
        selected_integration ui = Some sel
        /\ selected_dataset ui = Some d
        /\ (sel, d) ∈ catalog_pairs
  | ViewStatus => True
  end.

Record tui_ok (ui : IntegrationTUI) : Prop := {
  eps_low : (Q2Qc (1 # 10) ≤ eps_value ui)%Qc;
  eps_high : (eps_value ui ≤ Qc_of_Z 100)%Qc;
  cursor_low : (0 ≤ cursor_pos ui)%Z;
  cursor_view : view_ok ui
}.

(** ** What a key press does, case by case

    [pressed ui w continue ui' w'] lists what [_handle_input] can do: it ends
    the loop after a [stop_all], or it only moves the front end, or it starts
    the selection of the config view, or it stops a row of the status view. *)
Inductive pressed (ui : IntegrationTUI) (w : Runtime) :
    bool -> IntegrationTUI -> Runtime -> Prop :=
  | pressed_quit w' :
      stop_all w = Ok w' ->
      pressed ui w false ui w'
  | pressed_view ui' :
      pressed ui w true ui' w
  | pressed_start sel d success w' :
      current_view ui = ViewConfig ->
      selected_integration ui = Some sel ->
      selected_dataset ui = Some d ->
      in_catalog sel d ->
      start_integration sel d (eps_value ui) w = Ok (success, w') ->
      pressed ui w true
        (if success then set_cursor_pos 0 (set_current_view ViewStatus ui) else ui)
        w'
  | pressed_stop rows key s w' :
      current_view ui = ViewStatus ->
      running_of w (registry_items w) = Ok rows ->
      rows !! Z.to_nat (cursor_pos ui) = Some (key, s) ->
      stop_integration (name s) (dataset s) w = Ok (true, w') ->
      pressed ui w true ui w'.

(** ** Tasks started from the front end *)

(** A rate the front end can hold: finite, between 0.1 and 100. *)
Definition tui_rate (eps : PyFloat) : Prop :=
  match eps with
  | Finite q => (Q2Qc (1 # 10) ≤ q)%Qc /\ (q ≤ Qc_of_Z 100)%Qc
  | _ => False
  end.

(** A call the front end can make: a start is at a rate between 0.1 and
    100. *)
Definition from_tui (l : Label) : Prop :=
  match l with
  | CallStart _ _ eps => tui_rate eps
  | _ => True
  end.

(** Every state has a rate between 0.1 and 100. *)
Definition rates_bounded (w : Runtime) : Prop :=
  forall a s, heap w !! a = Some s -> tui_rate (events_per_second s).

(** A thread that sleeps wakes within ten seconds. *)
Definition wakes_soon (w : Runtime) : Prop :=
  forall tid t wake, threads w !! tid = Some t -> asleep_until wake t ->
    (wake ≤ clock w + Qc_of_Z 10)%Qc.

(** ** Sample sessions *)

(** The session that a list of inputs leads to. *)
Definition session_after (inputs : list Input) : Session :=
  default initial_session (session_exec inputs initial_session).

(** Down to "nginx", Enter, Enter on "access", Up: the config view at 1.5
    events per second. *)
Definition config_inputs : list Input :=
  [Key KEY_DOWN; Key 10; Key 10; Key KEY_UP].

Definition config_session : Session :=
  Eval vm_compute in session_after config_inputs.

(** Enter in the config view: "nginx"/"access" is started. *)
Definition status_inputs : list Input :=
  (config_inputs ++ [Key 10])%list.

Definition status_session : Session :=
  Eval vm_compute in session_after status_inputs.

(** Its thread computes the interval, tests the event, generates one event
    and goes to sleep. *)
Definition asleep_inputs : list Input :=
  (status_inputs ++ [Thread 0 all_up; Thread 0 all_up; Thread 0 all_up])%list.

Definition asleep_session : Session :=
  Eval vm_compute in session_after asleep_inputs.

(** ** The data stream of a generator class

    The class constant [DATA_STREAM] of each generator class;
    [generate] returns it beside the event. *)
Definition DATA_STREAM (g : GeneratorClass) : string :=
  match g with
  | WindowsSecurityGenerator => "logs-windows.security-default"
  | WindowsSystemGenerator => "logs-windows.system-default"
  | WindowsApplicationGenerator => "logs-windows.application-default"
  | NginxAccessGenerator => "logs-nginx.access-default"
  | NginxErrorGenerator => "logs-nginx.error-default"
  | CiscoASAGenerator => "logs-cisco_asa.log-default"
  end.

(** An answer a generator of class [g] can give: [generate] raises, or it
    returns [event, self.DATA_STREAM]. *)
Definition answers_for (g : GeneratorClass) (o : Oracle) : Prop :=
  match generate o with
  | Ok (_, ds) => ds = DATA_STREAM g
  | Raise _ => True
  end.

(** The step is one the program can take: a thread is answered by a
    generator of the class it was started with. *)
Definition own_generator (w : Runtime) (l : Label) : Prop :=
  match l with
  | Run tid o =>
      match threads w !! tid with
      | Some t => answers_for (generator_class t) o
      | None => True
      end
  | _ => True
  end.

Fixpoint own_generators (ls : list Label) (w : Runtime) : Prop :=
  match ls with
  | [] => True
  | l :: ls' =>
      own_generator w l
      /\ match step l w with
         | Some w' => own_generators ls' w'
         | None => True
         end
  end.

(** The class the catalog gives to the pair. *)
Definition catalog_class (integration_name dataset : string)
    (g : GeneratorClass) : Prop :=
  exists info dsi,
    AVAILABLE_INTEGRATIONS !! integration_name = Some info
    /\ datasets info !! dataset = Some dsi
    /\ g = generator dsi.

(** Every thread has the class the catalog gives to its state, and every
    action, pending or sent, names the data stream of the class of its
    thread. *)
Record routed (w : Runtime) : Prop := {
  routed_class : forall a s t,
    heap w !! a = Some s -> threads w !! a = Some t ->
    catalog_class (name s) (dataset s) (generator_class t);
  routed_pending : forall tid t action,
    threads w !! tid = Some t -> action ∈ pending_events t ->
    action_index action = DATA_STREAM (generator_class t);
  routed_calls : forall tid batch action,
    (tid, batch) ∈ bulk_calls w -> action ∈ batch ->
    exists t, threads w !! tid = Some t
              /\ action_index action = DATA_STREAM (generator_class t)
}.

(** The full batch of [full_batch_run] is flushed. *)
Definition flushed_run : list Label := (full_batch_run ++ [Run 0 all_up])%list.

Definition flushed_state : Runtime :=
  Eval vm_compute in run_from_initial flushed_run.

(** * The Cisco ASA generator, [integrations/cisco_asa.py] *)

(** One entry of [ASA_MESSAGES]. *)
Record AsaMessage := mkAsaMessage {
  msg_id : string;
  msg_severity : Z;
  msg_weight : Z;
  msg_type : string;
  msg_action : string
}.

Definition ASA_MESSAGES : list AsaMessage :=
  [mkAsaMessage "106001" 2 5 "Inbound TCP connection denied" "denied";
   mkAsaMessage "106006" 2 5 "Deny inbound UDP" "denied";
   mkAsaMessage "106007" 2 3 "Deny inbound UDP due to DNS" "denied";
   mkAsaMessage "106014" 3 5 "Deny inbound icmp" "denied";
   mkAsaMessage "106015" 6 3 "Deny TCP (no connection)" "denied";
   mkAsaMessage "106023" 4 8 "Deny by access-group" "denied";
   mkAsaMessage "106100" 6 15 "access-list permitted/denied" "allowed";
   mkAsaMessage "302013" 6 20 "Built inbound TCP connection" "allowed";
   mkAsaMessage "302014" 6 10 "Teardown TCP connection" "allowed";
   mkAsaMessage "302015" 6 15 "Built inbound UDP connection" "allowed";
   mkAsaMessage "302016" 6 8 "Teardown UDP connection" "allowed";
   mkAsaMessage "302020" 6 3 "Built inbound ICMP connection" "allowed";
   mkAsaMessage "302021" 6 2 "Teardown ICMP connection" "allowed";
   mkAsaMessage "305011" 6 10 "Built dynamic translation" "allowed";
   mkAsaMessage "305012" 6 5 "Teardown dynamic translation" "allowed";
   mkAsaMessage "313001" 3 3 "Denied ICMP type" "denied";
   mkAsaMessage "710003" 6 5 "TCP access permitted" "allowed";
   mkAsaMessage "733100" 4 2 "Threat detection rate exceeded" "alert"].

(** What [_build_message] reads in the event. *)
Record AsaEvent := mkAsaEvent {
  source_ip : string;
  source_port : Z;
  destination_ip : string;
  destination_port : Z;
  source_interface : string;
  destination_interface : string;
  network_protocol : string
}.

(** What the calls of [random] in [_build_message] return. *)
Record AsaDraws := mkAsaDraws {
  conn_id : Z;            (* random.randint(100000, 9999999) *)
  hours : Z;              (* random.randint(0, 23) *)
  minutes : Z;            (* random.randint(0, 59) *)
  seconds : Z;            (* random.randint(0, 59) *)
  bytes_sent : Z;         (* random.randint(100, 1000000) *)
  acl : string;           (* random.choice(ACCESS_LISTS) *)
  hit_cnt : Z;            (* random.randint(1, 1000) *)
  global_ip : string;     (* self._random_ip(private=False) *)
  global_port : Z;        (* random.randint(1024, 65535) *)
  rate : Z                (* random.randint(100, 5000) *)
}.

(** [str(n)] and [f"{n:02d}"] on an int. *)
Definition str_int (n : Z) : string := pretty n.

Definition format_02d (n : Z) : string :=
  let s := str_int n in
  if decide (String.length s < 2)%nat then "0" +:+ s else s.

(** [s.upper()] on ASCII letters. *)
Definition upper_ascii (c : ascii) : ascii :=
  let n := nat_of_ascii c in
  if decide (97 <= n <= 122)%nat then ascii_of_nat (n - 32) else c.

Fixpoint upper (s : string) : string :=
  match s with
  | EmptyString => EmptyString
  | String c r => String (upper_ascii c) (upper r)
  end.

(** [x in [a, b, ...]] on strings. *)
Definition str_in (x : string) (l : list string) : bool :=
  existsb (String.eqb x) l.

(** [CiscoASAGenerator._build_message]. *)
Definition _build_message (msg : AsaMessage) (event : AsaEvent)
    (draw : AsaDraws) : string :=
  let protocol := upper (network_protocol event) in
  let msg_id := msg_id msg in
  if str_in msg_id ["302013"; "302015"; "302020"] then
    "%ASA-6-" +:+ msg_id +:+ ": Built "
    +:+ (if String.eqb (source_interface event) "outside"
         then "inbound" else "outbound")
    +:+ " " +:+ protocol +:+ " connection " +:+ str_int (conn_id draw)
    +:+ " for " +:+ source_interface event +:+ ":" +:+ source_ip event
    +:+ "/" +:+ str_int (source_port event)
    +:+ " to " +:+ destination_interface event +:+ ":" +:+ destination_ip event
    +:+ "/" +:+ str_int (destination_port event)
  else if str_in msg_id ["302014"; "302016"; "302021"] then
    let duration := format_02d (hours draw) +:+ ":" +:+ format_02d (minutes draw)
                    +:+ ":" +:+ format_02d (seconds draw) in
    "%ASA-6-" +:+ msg_id +:+ ": Teardown " +:+ protocol +:+ " connection "
    +:+ str_int (conn_id draw) +:+ " for "
    +:+ source_interface event +:+ ":" +:+ source_ip event
    +:+ "/" +:+ str_int (source_port event) +:+ " to "
    +:+ destination_interface event +:+ ":" +:+ destination_ip event
    +:+ "/" +:+ str_int (destination_port event)
    +:+ " duration " +:+ duration +:+ " bytes " +:+ str_int (bytes_sent draw)
  else if String.eqb msg_id "106023" then
    "%ASA-4-" +:+ msg_id +:+ ": Deny " +:+ protocol +:+ " src "
    +:+ source_interface event +:+ ":" +:+ source_ip event
    +:+ "/" +:+ str_int (source_port event) +:+ " dst "
    +:+ destination_interface event +:+ ":" +:+ destination_ip event
    +:+ "/" +:+ str_int (destination_port event)
    +:+ " by access-group " +:+ String "034" (acl draw +:+ String "034" "")
  else if String.eqb msg_id "106100" then
    let action := if String.eqb (msg_action msg) "allowed"
                  then "permitted" else "denied" in
    "%ASA-6-" +:+ msg_id +:+ ": access-list " +:+ acl draw +:+ " " +:+ action
    +:+ " " +:+ protocol +:+ " "
    +:+ source_interface event +:+ "/" +:+ source_ip event
    +:+ "(" +:+ str_int (source_port event) +:+ ") -> "
    +:+ destination_interface event +:+ "/" +:+ destination_ip event
    +:+ "(" +:+ str_int (destination_port event) +:+ ") hit-cnt "
    +:+ str_int (hit_cnt draw)
  else if str_in msg_id ["305011"; "305012"] then
    let action := if String.eqb msg_id "305011" then "Built" else "Teardown" in
    "%ASA-6-" +:+ msg_id +:+ ": " +:+ action +:+ " dynamic " +:+ protocol
    +:+ " translation from "
    +:+ source_interface event +:+ ":" +:+ source_ip event
    +:+ "/" +:+ str_int (source_port event) +:+ " to "
    +:+ destination_interface event +:+ ":" +:+ global_ip draw
    +:+ "/" +:+ str_int (global_port draw)
  else if String.eqb msg_id "733100" then
    "%ASA-4-" +:+ msg_id +:+ ": [" +:+ msg_type msg +:+ "] drop rate exceeded. "
    +:+ "Current rate: " +:+ str_int (rate draw) +:+ "/sec, trigger rate: 100/sec"
  else if String.eqb msg_id "710003" then
    "%ASA-6-" +:+ msg_id +:+ ": " +:+ protocol +:+ " access permitted from "
    +:+ source_ip event +:+ "/" +:+ str_int (source_port event) +:+ " to "
    +:+ destination_interface event +:+ ":" +:+ destination_ip event
    +:+ "/" +:+ str_int (destination_port event)
  else
    "%ASA-" +:+ str_int (msg_severity msg) +:+ "-" +:+ msg_id +:+ ": "
    +:+ msg_type msg +:+ " from " +:+ source_ip event +:+ " to "
    +:+ destination_ip event +:+ " on interface " +:+ source_interface event.

(** The head of a syslog message of the ASA: [%ASA-severity-id: ]. *)
Definition syslog_head (msg : AsaMessage) : string :=
  "%ASA-" +:+ str_int (msg_severity msg) +:+ "-" +:+ msg_id msg +:+ ": ".

(** A message of the table, an event and draws to evaluate the builder. *)
Definition sample_asa_message : AsaMessage :=
  mkAsaMessage "106023" 4 8 "Deny by access-group" "denied".

Definition sample_asa_event : AsaEvent :=
  mkAsaEvent "203.0.113.7" 51234 "10.0.0.5" 443 "outside" "inside" "tcp".

Definition sample_asa_draws : AsaDraws :=
  mkAsaDraws 123456 1 2 33 1000 "outside_access_in" 3 "198.51.100.9" 5000 200.


(** * The Elasticsearch client, [es_client.py] *)

(** The line feed. *)
Definition LF : ascii := "010"%char.

(** The string has no line feed. *)
Fixpoint one_line (s : string) : bool :=
  match s with
  | EmptyString => true
  | String c r => negb (Ascii.eqb c LF) && one_line r
  end.

(** The lines of a text, each ended by a line feed, and what follows the last
    line feed. *)
Fixpoint split_lines (s : string) : list string * string :=
  match s with
  | EmptyString => ([], EmptyString)
  | String c r =>
      let '(ls, rest) := split_lines r in
      if Ascii.eqb c LF then (EmptyString :: ls, rest)
      else match ls with
           | [] => ([], String c rest)
           | l :: ls' => (String c l :: ls', rest)
           end
  end.

(** The loop of [ElasticsearchClient.bulk_index] that builds the NDJSON body.
    [dumps_action] and [dumps_doc] are [json.dumps] on the action
    [{"create": {"_index": data_stream}}] and on an event document: the JSON
    encoder is outside the program. *)
Definition bulk_body (dumps_action dumps_doc : string -> string)
    (actions : list BulkAction) : string :=
  fold_left
    (fun body action =>
       let body := body +:+ dumps_action (action_index action) +:+ String LF "" in
       body +:+ dumps_doc (doc action) +:+ String LF "")
    actions "".

(** The two lines of an action. *)
Definition lines_of (dumps_action dumps_doc : string -> string)
    (action : BulkAction) : list string :=
  [dumps_action (action_index action); dumps_doc (doc action)].

(** The encoder gives one line for each part of the action. *)
Definition encoded_on_one_line (dumps_action dumps_doc : string -> string)
    (action : BulkAction) : Prop :=
  one_line (dumps_action (action_index action)) = true
  /\ one_line (dumps_doc (doc action)) = true.

(** [json.dumps] on a string that needs no escape, and on the action of a
    data stream with such a name. *)
Definition json_quote (s : string) : string :=
  String "034" (s +:+ String "034" "").

Definition sample_dumps_action (data_stream : string) : string :=
  "{" +:+ json_quote "create" +:+ ": {" +:+ json_quote "_index" +:+ ": "
  +:+ json_quote data_stream +:+ "}}".

(** Two actions of "nginx"/"access" whose documents are kept as their JSON
    text. *)
Definition sample_batch : list BulkAction :=
  [mkBulkAction "logs-nginx.access-default" "{}";
   mkBulkAction "logs-nginx.access-default" "{}"].

(** What a sleeping thread keeps true: a rate sleep ends no later than one
    interval from now, its length being one [time.sleep] takes, and a
    backoff ends no later than one second from now. *)
Definition sleeps_bounded (w : Runtime) : Prop :=
  forall tid t wake, threads w !! tid = Some t ->
    (pc t = PSleep wake ->
       (wake ≤ clock w + sleep_interval t)%Qc
       /\ (sleep_interval t ≤ sleep_max)%Qc)
    /\ (pc t = PBackoff wake -> (wake ≤ clock w + 1)%Qc).

(** "nginx"/"access" is started at the rate [float('inf')]: three iterations of
    the loop, each one a loop test, a call of the generator and the return
    from [time.sleep(0.0)], while no time passes. *)
Definition infinite_rate_run : list Label :=
  [CallStart "nginx" "access" PosInf; Run 0 all_up]
  ++ concat (replicate 3 [Run 0 all_up; Run 0 all_up; Run 0 all_up]).

Definition infinite_rate_state : Runtime :=
  Eval vm_compute in run_from_initial infinite_rate_run.

(** ** Start calls that overlap

    [start_integration] holds no lock: between its test of [running] and its
    registration of the new state another caller can run. The call is cut in
    two here, at the one place where it stops reading the shared registry and
    has not yet written to it. *)

(** Lines 81 to 94 of [start_integration], the tests: [None] where the call
    returns False, the generator class where it goes on to line 96. *)
Definition start_integration_tests (integration_name dataset : string)
    (w : Runtime) : result (option GeneratorClass) :=
  let key := key_of integration_name dataset in
  is_running ←
    (if contains (integrations w) key
     then a ← getitem (integrations w) key; s ← deref w a; mret (running s)
     else mret false);
  if is_running : bool then mret None else
  if negb (contains AVAILABLE_INTEGRATIONS integration_name) then mret None else
  integration_info ← getitem AVAILABLE_INTEGRATIONS integration_name;
  if negb (contains (datasets integration_info) dataset) then mret None else
  dataset_info ← getitem (datasets integration_info) dataset;
  mret (Some (generator dataset_info)).

(** A caller that has passed the tests and stands before line 96; lines 96 to
    117, the rest of its call, are [spawn]. *)
Record StartCall := mkStartCall {
  call_name : string;
  call_dataset : string;
  call_eps : PyFloat;
  call_class : GeneratorClass
}.

Definition call_key (p : StartCall) : string :=
  key_of (call_name p) (call_dataset p).

Record Callers := mkCallers {
  world : Runtime;
  standing : list StartCall;        (* the callers between line 94 and line 96 *)
  returned : list (string * bool)   (* key and value of the two-part start
                                       calls that returned, the latest first *)
}.

Inductive CallerLabel :=
  | StartTests (integration_name dataset : string) (eps : PyFloat)
                              (* a caller runs lines 81 to 94 *)
  | StartRegisters (i : nat)  (* the [i]-th standing caller runs lines 96 to 117 *)
  | Whole (l : Label).        (* a step of the process, its calls undivided *)

Definition caller_step (l : CallerLabel) (c : Callers) : option Callers :=
  match l with
  | StartTests n d eps =>
      match start_integration_tests n d (world c) with
      | Ok (Some g) =>
          Some (mkCallers (world c) (standing c ++ [mkStartCall n d eps g])
                  (returned c))
      | Ok None =>
          Some (mkCallers (world c) (standing c) ((key_of n d, false) :: returned c))
      | Raise _ => None
      end
  | StartRegisters i =>
      p ← standing c !! i;
      Some (mkCallers
              (spawn (call_name p) (call_dataset p) (call_eps p) (call_class p)
                 (world c))
              (delete i (standing c))
              ((call_key p, true) :: returned c))
  | Whole l =>
      w ← step l (world c);
      Some (mkCallers w (standing c) (returned c))
  end.

Fixpoint caller_exec (ls : list CallerLabel) (c : Callers) : option Callers :=
  match ls with
  | [] => Some c
  | l :: ls' =>
      match caller_step l c with
      | Some c' => caller_exec ls' c'
      | None => None
      end
  end.

(** The key of the start call a label begins. *)
Definition begins_start (l : CallerLabel) : option string :=
  match l with
  | StartTests n d _ | Whole (CallStart n d _) => Some (key_of n d)
  | _ => None
  end.

(** The label begins no start of a key that a standing caller is starting. *)
Definition may_begin (l : CallerLabel) (c : Callers) : bool :=
  match begins_start l with
  | Some key => bool_decide (key ∉ call_key <$> standing c)
  | None => true
  end.

(** The runs in which the start calls of one key do not overlap. *)
Fixpoint serial_exec (ls : list CallerLabel) (c : Callers) : option Callers :=
  match ls with
  | [] => Some c
  | l :: ls' =>
      if may_begin l c
      then match caller_step l c with
           | Some c' => serial_exec ls' c'
           | None => None
           end
      else None
  end.

(** No caller is inside [start_integration]. *)
Definition no_callers (w : Runtime) : Callers := mkCallers w [] [].

(** What a standing caller has found: its key is in the catalog, with the
    class it holds, and is not registered as running. *)
Definition standing_ok (w : Runtime) (p : StartCall) : Prop :=
  (exists info dsi,
     AVAILABLE_INTEGRATIONS !! call_name p = Some info
     /\ datasets info !! call_dataset p = Some dsi
     /\ call_class p = generator dsi)
  /\ ~ registered_running w (call_key p).

(** Two callers start "nginx"/"access"; the second runs its tests before the
    first has registered its state. *)
Definition overlapping_starts_run : list CallerLabel :=
  [StartTests "nginx" "access" (Qc_of_Z 5); StartTests "nginx" "access" (Qc_of_Z 7);
   StartRegisters 0; StartRegisters 0].

Definition overlapping_starts_state : Callers :=
  Eval vm_compute in
    default (no_callers initial) (caller_exec overlapping_starts_run (no_callers initial)).

(** What the runs without overlap keep true. *)
Definition callers_ok (c : Callers) : Prop :=
  reachable (world c)
  /\ NoDup (call_key <$> standing c)
  /\ Forall (standing_ok (world c)) (standing c).

(** * Properties *)

(** ** Lookups in the stores *)

Lemma lookup_set_thread_eq tid t w :
  tid < length (threads w) -> threads (set_thread tid t w) !! tid = Some t.
Proof. intros H. simpl. by apply list_lookup_insert_eq. Qed.

Lemma lookup_set_thread_ne tid tid' t w :
  tid <> tid' -> threads (set_thread tid t w) !! tid' = threads w !! tid'.
Proof. intros H. simpl. by apply list_lookup_insert_ne. Qed.

Lemma contains_true {V} (d : gmap string V) k :
  contains d k = true <-> is_Some (d !! k).
Proof.
  unfold contains. destruct (d !! k) eqn:E; split; intros H; eauto; try done.
Qed.

Lemma contains_false {V} (d : gmap string V) k :
  contains d k = false <-> d !! k = None.
Proof. unfold contains. by destruct (d !! k). Qed.

(** ** The sleep interval *)

Lemma compute_sleep_interval_pos (eps : Qc) :
  (0 < eps)%Qc -> compute_sleep_interval eps = Ok (1 / eps)%Qc.
Proof.
  intros H. unfold compute_sleep_interval, truediv.
  destruct (decide (0 < eps)%Qc) as [_|n]; [|done].
  destruct (decide (eps = 0%Qc)) as [e|_]; [|done].
  subst eps. by apply Qclt_not_eq in H.
Qed.

Lemma compute_sleep_interval_nonpos (eps : Qc) :
  (eps ≤ 0)%Qc -> compute_sleep_interval eps = Ok 1%Qc.
Proof.
  intros H. unfold compute_sleep_interval.
  destruct (decide (0 < eps)%Qc) as [l|_]; [|done].
  by apply Qclt_not_le in l.
Qed.

Lemma Qc_one_pos : (0 < 1)%Qc.
Proof. by apply Qclt_alt. Qed.

(** The computation of the interval never raises. The interval is not
    negative, and it is positive unless the rate is infinite. *)
Lemma compute_sleep_interval_total eps :
  exists i, compute_sleep_interval eps = Ok i
            /\ (0 ≤ i)%Qc /\ (eps <> PosInf -> (0 < i)%Qc).
Proof.
  destruct eps as [q| | |]; simpl.
  - destruct (Qclt_le_dec 0 q) as [l|l].
    + exists (1 / q)%Qc. split; [by apply compute_sleep_interval_pos|].
      assert (0 < 1 / q)%Qc.
      { unfold Qcdiv. rewrite Qcmult_1_l. by apply Qcinv_pos. }
      split; [by apply Qclt_le_weak|done].
    + exists 1%Qc. split; [by apply compute_sleep_interval_nonpos|].
      split; [apply Qclt_le_weak|intros _]; apply Qc_one_pos.
  - exists 0%Qc. split; [done|]. split; [apply Qcle_refl|done].
  - exists 1%Qc. split; [done|].
    split; [apply Qclt_le_weak|intros _]; apply Qc_one_pos.
  - exists 1%Qc. split; [done|].
    split; [apply Qclt_le_weak|intros _]; apply Qc_one_pos.
Qed.

Lemma sleep_max_pos : (0 < sleep_max)%Qc.
Proof. by apply Qclt_alt. Qed.

Lemma one_le_sleep_max : (1 ≤ sleep_max)%Qc.
Proof. apply Qclt_le_weak. by apply Qclt_alt. Qed.

(** [time.sleep] takes every length from 0 to [sleep_max]. *)
Lemma time_sleep_accepts secs now :
  (0 ≤ secs)%Qc -> (secs ≤ sleep_max)%Qc ->
  time_sleep secs now = Ok (now + secs)%Qc.
Proof.
  intros H0 H1. unfold time_sleep.
  destruct (decide (sleep_max < secs \/ secs < - sleep_max)%Qc) as [[H|H]|_].
  - by apply Qclt_not_le in H.
  - exfalso. apply (Qclt_not_le _ _ H). eapply Qcle_trans; [|exact H0].
    apply Qclt_le_weak. by apply Qclt_alt.
  - destruct (decide (secs < 0)%Qc) as [H|_]; [|done].
    by apply Qclt_not_le in H.
Qed.

(** It refuses a longer one. *)
Lemma time_sleep_refuses secs now :
  (sleep_max < secs)%Qc -> time_sleep secs now = Raise OverflowError.
Proof.
  intros H. unfold time_sleep.
  destruct (decide (sleep_max < secs \/ secs < - sleep_max)%Qc) as [_|n]; [done|].
  destruct n. by left.
Qed.

Lemma backoff_spec t now : backoff t now = at_pc (PBackoff (now + 1)%Qc) t.
Proof.
  unfold backoff. rewrite time_sleep_accepts; [done| |apply one_le_sleep_max].
  apply Qclt_le_weak, Qc_one_pos.
Qed.

Lemma rate_sleep_cases t now :
  rate_sleep t now = at_pc (PSleep (now + sleep_interval t)%Qc) t
  \/ rate_sleep t now = at_pc (PBackoff (now + 1)%Qc) t.
Proof.
  unfold rate_sleep.
  destruct (time_sleep (sleep_interval t) now) as [wake|e] eqn:E.
  - left. unfold time_sleep in E. repeat case_decide; try done.
    by injection E as <-.
  - right. apply backoff_spec.
Qed.

(** The sleep at the end of an iteration, for an interval that is not
    negative. *)
Lemma rate_sleep_slept t now :
  (0 ≤ sleep_interval t)%Qc ->
  exists p, rate_sleep t now = at_pc p t /\ slept t now p.
Proof.
  intros H0. unfold rate_sleep.
  destruct (Qclt_le_dec sleep_max (sleep_interval t)) as [H|H].
  - rewrite time_sleep_refuses by done. rewrite backoff_spec.
    eexists. split; [done|]. by right.
  - rewrite time_sleep_accepts by done.
    eexists. split; [done|]. by left.
Qed.

Lemma rate_sleep_pos t now :
  (0 ≤ sleep_interval t)%Qc ->
  (sleep_interval t ≤ sleep_max)%Qc ->
  rate_sleep t now = at_pc (PSleep (now + sleep_interval t)%Qc) t.
Proof.
  intros H0 H1. unfold rate_sleep. by rewrite time_sleep_accepts.
Qed.

Lemma slept_asleep t now p :
  slept t now p -> exists wake, p = PSleep wake \/ p = PBackoff wake.
Proof. intros [[_ ->]|[_ ->]]; eexists; eauto. Qed.

(** ** What a start does *)

Lemma start_integration_cases n d eps w :
  match start_integration n d eps w with
  | Ok (false, w') =>
      w' = w /\ (registered_running w (key_of n d) \/ ~ in_catalog n d)
  | Ok (true, w') =>
      exists info dsi,
        AVAILABLE_INTEGRATIONS !! n = Some info
        /\ datasets info !! d = Some dsi
        /\ ~ registered_running w (key_of n d)
        /\ w' = spawn n d eps (generator dsi) w
  | Raise e =>
      e = DanglingRef
      /\ exists a, integrations w !! key_of n d = Some a /\ heap w !! a = None
  end.
Proof.
  unfold start_integration, contains, getitem, deref, registered_running, in_catalog.
  destruct (integrations w !! key_of n d) as [a|] eqn:Ek; simpl.
  - destruct (heap w !! a) as [s|] eqn:Ea; simpl; [|by eauto].
    destruct (running s) eqn:Er; simpl; [by eauto 10|].
    assert (Hnr : ~ (exists a0 s0, Some a = Some a0 /\ heap w !! a0 = Some s0
                                  /\ running s0 = true)).
    { intros (a0 & s0 & [= <-] & Hs0 & Hr). congruence. }
    destruct (AVAILABLE_INTEGRATIONS !! n) as [info|] eqn:En; simpl.
    + destruct (datasets info !! d) as [dsi|] eqn:Ed; simpl.
      * by exists info, dsi.
      * split; [done|]. right. intros (i & [= <-] & [x Hx]). congruence.
    + split; [done|]. right. by intros (i & [=] & _).
  - assert (Hnr : ~ (exists a0 s0, @None nat = Some a0 /\ heap w !! a0 = Some s0
                                  /\ running s0 = true)).
    { by intros (a0 & s0 & [=] & _). }
    destruct (AVAILABLE_INTEGRATIONS !! n) as [info|] eqn:En; simpl.
    + destruct (datasets info !! d) as [dsi|] eqn:Ed; simpl.
      * by exists info, dsi.
      * split; [done|]. right. intros (i & [= <-] & [x Hx]). congruence.
    + split; [done|]. right. by intros (i & [=] & _).
Qed.

Lemma start_integration_accepted n d eps w w' :
  start_integration n d eps w = Ok (true, w') ->
  exists info dsi,
    AVAILABLE_INTEGRATIONS !! n = Some info
    /\ datasets info !! d = Some dsi
    /\ ~ registered_running w (key_of n d)
    /\ w' = spawn n d eps (generator dsi) w.
Proof.
  intros H. pose proof (start_integration_cases n d eps w) as Hc.
  by rewrite H in Hc.
Qed.

(** ** Flushing a batch *)

Lemma try_bulk_index_clock o tid t s w :
  clock (try_bulk_index o tid t s w) = clock w.
Proof. unfold try_bulk_index. by destruct (bulk_index o). Qed.

Lemma try_bulk_index_threads o tid t s w :
  threads (try_bulk_index o tid t s w) = threads w.
Proof. unfold try_bulk_index. by destruct (bulk_index o). Qed.

Lemma try_bulk_index_bulk_calls o tid t s w :
  bulk_calls (try_bulk_index o tid t s w) = (tid, pending_events t) :: bulk_calls w.
Proof. unfold try_bulk_index. by destruct (bulk_index o). Qed.

Lemma try_bulk_index_total o tid t s w :
  heap w !! state t = Some s ->
  heap (try_bulk_index o tid t s w) !! state t =
    Some (match bulk_index o with
          | Ok _ => add_total_events (length (pending_events t)) s
          | Raise _ => s
          end).
Proof.
  intros Hs. unfold try_bulk_index. destruct (bulk_index o); simpl; [|done].
  apply list_lookup_insert_eq. by eapply lookup_lt_Some.
Qed.

Lemma rate_sleep_alive t now : pc (rate_sleep t now) <> PCrashed.
Proof. by destruct (rate_sleep_cases t now) as [-> | ->]. Qed.

Lemma rate_sleep_pending t now :
  pending_events (rate_sleep t now) = pending_events t.
Proof. by destruct (rate_sleep_cases t now) as [-> | ->]. Qed.

(** C1, as the code has it. A flush (of a full batch in the loop, or of the
    rest at the end) calls the sink once with the pending events. When the
    call returns, [total_events] grows by the size of the batch; when it
    raises, the exception is swallowed, [total_events] stays as it was, and
    the thread goes on (to its sleep, the batch dropped, or to its end). *)
Theorem flush_counts_delivered_batches o tid w t s :
  threads w !! tid = Some t ->
  heap w !! state t = Some s ->
  pc t = PFlush \/ (pc t = PDrain /\ pending_events t <> []) ->
  exists w' t' s',
    _run_generator o tid w = Some w'
    /\ bulk_calls w' = (tid, pending_events t) :: bulk_calls w
    /\ heap w' !! state t = Some s'
    /\ total_events s' =
         match bulk_index o with
         | Ok _ => total_events s + length (pending_events t)
         | Raise _ => total_events s
         end
    /\ running s' = running s
    /\ threads w' !! tid = Some t'
    /\ pc t' <> PCrashed
    /\ (pc t = PFlush -> pending_events t' = [])
    /\ (pc t = PDrain -> pc t' = PFinish).
Proof.
  intros Ht Hs Hpc.
  assert (Hlt : tid < length (threads w)) by by eapply lookup_lt_Some.
  unfold _run_generator. rewrite Ht. simpl.
  destruct Hpc as [Hpc|[Hpc Hne]]; rewrite Hpc, Hs; simpl.
  - eexists _, _, _. split; [done|]. simpl.
    rewrite try_bulk_index_bulk_calls, try_bulk_index_threads.
    rewrite (try_bulk_index_total _ _ _ _ _ Hs).
    rewrite list_lookup_insert_eq by done.
    repeat split; try done; try (by destruct (bulk_index o)).
    + apply rate_sleep_alive.
    + intros _. by rewrite rate_sleep_pending.
  - destruct (pending_events t) as [|e l] eqn:Ep; [done|].
    eexists _, _, _. split; [done|]. simpl.
    rewrite try_bulk_index_bulk_calls, try_bulk_index_threads.
    rewrite (try_bulk_index_total _ _ _ _ _ Hs).
    rewrite list_lookup_insert_eq by done.
    rewrite Ep. repeat split; try done; by destruct (bulk_index o).
Qed.

(** C1 as stated fails: with Elasticsearch down, the flush of a full batch
    of ten events leaves [total_events] at 0; the counter does not advance
    by the size of the batch. *)
Lemma sink_failure_is_not_counted :
  exists w w' t s s',
    exec full_batch_run initial = Some w
    /\ threads w !! 0 = Some t
    /\ pc t = PFlush
    /\ length (pending_events t) = 10
    /\ heap w !! state t = Some s
    /\ _run_generator sink_down 0 w = Some w'
    /\ bulk_calls w' = [(0, pending_events t)]
    /\ heap w' !! state t = Some s'
    /\ total_events s = 0
    /\ total_events s' = 0
    /\ total_events s' <> total_events s + length (pending_events t).
Proof.
  eexists _, _, _, _, _.
  split; [vm_compute; reflexivity|].
  split; [reflexivity|].
  split; [reflexivity|].
  split; [reflexivity|].
  split; [reflexivity|].
  split; [vm_compute; reflexivity|].
  split; [reflexivity|].
  split; [reflexivity|].
  split; [reflexivity|].
  split; [reflexivity|].
  simpl. lia.
Qed.

Lemma flush_counts_delivered_batches_witness :
  exec full_batch_run initial = Some full_batch_state
  /\ exists w' s',
       _run_generator all_up 0 full_batch_state = Some w'
       /\ heap w' !! 0 = Some s'
       /\ total_events s' = 10.
Proof.
  split; [vm_compute; reflexivity|].
  destruct (flush_counts_delivered_batches all_up 0 full_batch_state _ _
              eq_refl eq_refl (or_introl eq_refl))
    as (w' & t' & s' & Hrun & _ & Hs' & Htot & _).
  exists w', s'. split; [exact Hrun|]. split; [exact Hs'|]. exact Htot.
Defined.

(** ** A failing generator *)

(** C3, as the code has it. When [generate] raises, the handler of the loop
    body catches the exception: the thread stays alive and nothing else
    changes (no other thread, no state, no event, no sink call; the pending
    events are kept). The thread then sleeps one second, whatever its rate:
    it cannot run before one second has passed, and after that it is back at
    the top of its loop. *)
Theorem generator_failure_backs_off_one_second o tid w t e :
  threads w !! tid = Some t ->
  pc t = PGenerate ->
  generate o = Raise e ->
  exists w',
    _run_generator o tid w = Some w'
    /\ w' = set_thread tid (at_pc (PBackoff (clock w + 1)%Qc) t) w
    /\ (forall o' d, (d < 1)%Qc ->
          _run_generator o' tid (with_clock (clock w + d)%Qc w') = None)
    /\ (forall o' d, (1 ≤ d)%Qc ->
          _run_generator o' tid (with_clock (clock w + d)%Qc w') =
            Some (set_thread tid (at_pc PLoop t) (with_clock (clock w + d)%Qc w'))).
Proof.
  intros Ht Hpc Hgen.
  assert (Hlt : tid < length (threads w)) by by eapply lookup_lt_Some.
  eexists. split.
  { unfold _run_generator. rewrite Ht. simpl. rewrite Hpc, Hgen.
    by rewrite backoff_spec. }
  split; [done|].
  split; intros o' d Hd; unfold _run_generator; simpl;
    rewrite list_lookup_insert_eq by done; simpl.
  - case_decide as Hw; [|done].
    apply Qcplus_le_mono_l in Hw. by apply Qclt_not_le in Hd.
  - case_decide as Hw; [done|].
    destruct Hw. by apply Qcplus_le_mono_l.
Qed.

(** C3 as stated fails: at 2 events per second the interval is half a
    second, but after a failing [generate] the thread wakes one second
    later; half a second after the failure it has not retried. *)
Lemma backoff_is_not_the_interval :
  exists w w' t t',
    exec before_generate_run initial = Some w
    /\ threads w !! 0 = Some t
    /\ pc t = PGenerate
    /\ sleep_interval t = Q2Qc (1 # 2)
    /\ _run_generator generator_down 0 w = Some w'
    /\ threads w' !! 0 = Some t'
    /\ pc t' = PBackoff (clock w + 1)%Qc
    /\ pc t' <> PBackoff (clock w + sleep_interval t)%Qc
    /\ pc t' <> PSleep (clock w + sleep_interval t)%Qc
    /\ _run_generator all_up 0
         (with_clock (clock w + sleep_interval t)%Qc w') = None.
Proof.
  eexists _, _, _, _.
  split; [vm_compute; reflexivity|].
  split; [reflexivity|].
  split; [reflexivity|].
  split; [reflexivity|].
  split; [vm_compute; reflexivity|].
  split; [reflexivity|].
  split; [vm_compute; reflexivity|].
  split; [vm_compute; discriminate|].
  split; [vm_compute; discriminate|].
  vm_compute. reflexivity.
Qed.

Lemma generator_failure_backs_off_one_second_witness :
  exec before_generate_run initial = Some before_generate_state
  /\ exists w',
       _run_generator generator_down 0 before_generate_state = Some w'
       /\ (pc <$> threads w' !! 0) = Some (PBackoff 1%Qc).
Proof.
  split; [vm_compute; reflexivity|].
  destruct (generator_failure_backs_off_one_second generator_down 0
              before_generate_state _ Exception eq_refl eq_refl eq_refl)
    as (w' & Hrun & Hw' & _).
  exists w'. split; [exact Hrun|]. rewrite Hw'. vm_compute. reflexivity.
Defined.

(** ** Steps of a thread and consistency *)

Lemma cell_ok_move a s t t' :
  cell_ok a s t ->
  state t' = state t -> stop_event_arg t' = stop_event_arg t ->
  sleep_interval t' = sleep_interval t ->
  pc t <> PInit -> pc t <> PDone ->
  pc t' <> PInit -> pc t' <> PDone -> pc t' <> PCrashed ->
  cell_ok a s t'.
Proof.
  intros [c1 c2 c3 c4 c5 c6 c7 c8] e1 e2 e3 n1 n2 n3 n4 n5.
  constructor; try done; try congruence.
  - split; [done|]. intros _. by apply c7.
  - intros _. rewrite e3. by apply c8.
Qed.

Lemma cell_ok_add_total a s t n :
  cell_ok a s t -> cell_ok a (add_total_events n s) t.
Proof. intros [c1 c2 c3 c4 c5 c6 c7 c8]. by constructor. Qed.

Lemma cell_ok_set_enabled a s t b :
  cell_ok a s t -> cell_ok a (set_enabled b s) t.
Proof. intros [c1 c2 c3 c4 c5 c6 c7 c8]. by constructor. Qed.

(** Closes the routine parts of [run_generator_effect]. *)
Ltac effect_frame Hs :=
  simpl;
  repeat match goal with
  | |- _ /\ _ => split
  | |- ?h = <[_ := _]> ?h => symmetry; apply list_insert_id; exact Hs
  | |- exists extra, ?l = (extra ++ ?l)%list /\ _ =>
      exists []; split; [reflexivity | intros c ?%elem_of_nil; contradiction]
  | |- exists extra, (?c :: ?l) = (extra ++ ?l)%list /\ _ =>
      exists [c]; split;
      [reflexivity | intros c' ->%list_elem_of_singleton; reflexivity]
  | |- _ => done
  end.

(** What one step of thread [tid] does to the runtime: only the thread and
    its own state change; the state keeps its identity and rate, its counter
    does not go down, and [running] is never set. *)
Lemma run_generator_effect o tid w w' :
  consistent w ->
  _run_generator o tid w = Some w' ->
  exists s t s' t',
    heap w !! tid = Some s /\ threads w !! tid = Some t
    /\ integrations w' = integrations w
    /\ events w' = events w
    /\ clock w' = clock w
    /\ heap w' = <[tid := s']> (heap w)
    /\ threads w' = <[tid := t']> (threads w)
    /\ (exists extra, bulk_calls w' = (extra ++ bulk_calls w)%list
                      /\ forall c, c ∈ extra -> fst c = tid)
    /\ cell_ok tid s' t'
    /\ name s' = name s /\ dataset s' = dataset s
    /\ events_per_second s' = events_per_second s
    /\ enabled s' = enabled s
    /\ (total_events s ≤ total_events s')%nat
    /\ (running s' = true -> running s = true).
Proof.
  intros Hw Hrun.
  unfold _run_generator in Hrun.
  destruct (threads w !! tid) as [t|] eqn:Ht; [|done]. simpl in Hrun.
  assert (Hlt : tid < length (heap w)).
  { rewrite <- (same_threads _ Hw). by eapply lookup_lt_Some. }
  destruct (lookup_lt_is_Some_2 _ _ Hlt) as [s Hs].
  pose proof (cells _ Hw _ _ _ Hs Ht) as Hc.
  destruct Hc as [c1 c2 c3 c4 c5 c6 c7 c8].
  rewrite c3, Hs in Hrun. simpl in Hrun.
  exists s, t.
  assert (Hc : cell_ok tid s t) by by constructor.
  destruct (pc t) eqn:Hpc; try done.
  - (* PInit *)
    destruct (compute_sleep_interval_total (events_per_second s)) as (i & Hi & _).
    rewrite Hi in Hrun. injection Hrun as <-.
    exists s, (at_pc PLoop (with_pending [] (with_sleep_interval i t))).
    effect_frame Hs.
    constructor; simpl; try done.
    split; [done|]. intros _. by apply c7.
  - (* PLoop *)
    rewrite c4 in Hrun.
    destruct (events w !! tid) as [is_set|]; [|done].
    simpl in Hrun. injection Hrun as <-.
    eexists s, _. effect_frame Hs.
    eapply cell_ok_move; try done; rewrite ?Hpc; try done; by destruct is_set.
  - (* PGenerate *)
    destruct (generate o) as [[event ds]|e].
    + case_decide; injection Hrun as <-.
      * eexists s, _. effect_frame Hs.
        eapply cell_ok_move; try done; rewrite ?Hpc; done.
      * destruct (rate_sleep_cases
                    (with_pending (pending_events t ++ [mkBulkAction ds event]) t)
                    (clock w)) as [-> | ->]; eexists s, _; effect_frame Hs;
          (eapply cell_ok_move; try done; rewrite ?Hpc; done).
    + rewrite backoff_spec in Hrun. injection Hrun as <-. eexists s, _.
      effect_frame Hs.
      eapply cell_ok_move; try done; rewrite ?Hpc; done.
  - (* PFlush *)
    injection Hrun as <-. unfold try_bulk_index. rewrite c3.
    destruct (rate_sleep_cases (with_pending [] t) (clock w)) as [-> | ->];
      destruct (bulk_index o); eexists _, _; effect_frame Hs;
      try (simpl; lia);
      try apply cell_ok_add_total;
      (eapply cell_ok_move; try done; rewrite ?Hpc; done).
  - (* PSleep *)
    case_decide; [|done]. injection Hrun as <-. eexists s, _.
    effect_frame Hs.
    eapply cell_ok_move; try done; rewrite ?Hpc; done.
  - (* PBackoff *)
    case_decide; [|done]. injection Hrun as <-. eexists s, _.
    effect_frame Hs.
    eapply cell_ok_move; try done; rewrite ?Hpc; done.
  - (* PDrain *)
    destruct (pending_events t) as [|e l] eqn:Ep; injection Hrun as <-.
    + eexists s, _. effect_frame Hs.
      eapply cell_ok_move; try done; rewrite ?Hpc; done.
    + unfold try_bulk_index. rewrite c3, Ep.
      destruct (bulk_index o); eexists _, _; effect_frame Hs;
        try (simpl; lia);
        try apply cell_ok_add_total;
        (eapply cell_ok_move; try done; rewrite ?Hpc; done).
  - (* PFinish *)
    injection Hrun as <-. eexists (set_running false s), _.
    effect_frame Hs.
    constructor; simpl; try done.
    intros _. by apply c8.
Qed.

Lemma lookup_insert_cases {A} (l : list A) i j x y :
  <[i := x]> l !! j = Some y ->
  (i = j /\ x = y /\ i < length l) \/ (i <> j /\ l !! j = Some y).
Proof.
  intros H. destruct (decide (i = j)) as [->|Hne].
  - left. assert (j < length l).
    { apply lookup_lt_Some in H. by rewrite length_insert in H. }
    rewrite list_lookup_insert_eq in H by done. by injection H as ->.
  - right. by rewrite list_lookup_insert_ne in H.
Qed.

Lemma run_generator_consistent o tid w w' :
  consistent w -> _run_generator o tid w = Some w' -> consistent w'.
Proof.
  intros Hw Hrun.
  destruct (run_generator_effect _ _ _ _ Hw Hrun)
    as (s & t & s' & t' & Hs & Ht & Hi & He & _ & Hh & Hth & _ & Hc
        & Hn & Hd & _ & _ & _ & Hr).
  destruct Hw as [w1 w2 w3 w4 w5].
  constructor.
  - by rewrite He, Hh, length_insert.
  - by rewrite Hth, Hh, !length_insert.
  - intros a s0 t0. rewrite Hh, Hth. intros H1 H2.
    apply lookup_insert_cases in H1 as [(<- & <- & _)|(Hne & H1)].
    + rewrite list_lookup_insert_eq in H2 by by eapply lookup_lt_Some.
      by injection H2 as <-.
    + rewrite list_lookup_insert_ne in H2 by done. by eapply w3.
  - intros key a. rewrite Hi, Hh. intros Hk.
    destruct (w4 _ _ Hk) as (s0 & Hs0 & Hkey).
    destruct (decide (tid = a)) as [<-|Hne].
    + exists s'. rewrite list_lookup_insert_eq by by eapply lookup_lt_Some.
      split; [done|]. rewrite Hn, Hd. congruence.
    + exists s0. by rewrite list_lookup_insert_ne.
  - intros a s0. rewrite Hh, Hi. intros H1 Hrun0.
    apply lookup_insert_cases in H1 as [(<- & <- & _)|(Hne & H1)].
    + rewrite Hn, Hd. apply w5; [done|]. by apply Hr.
    + by apply w5.
Qed.

(** ** What a stop does *)

Lemma stop_integration_cases n d w :
  match stop_integration n d w with
  | Ok (false, w') => w' = w /\ integrations w !! key_of n d = None
  | Ok (true, w') =>
      exists a s,
        integrations w !! key_of n d = Some a
        /\ heap w !! a = Some s
        /\ w' = with_heap (<[a := set_enabled false s]> (heap w))
                  (match stop_event s with
                   | Some e => event_set e w
                   | None => w
                   end)
  | Raise e =>
      e = DanglingRef
      /\ exists a, integrations w !! key_of n d = Some a /\ heap w !! a = None
  end.
Proof.
  unfold stop_integration, contains, getitem, deref.
  destruct (integrations w !! key_of n d) as [a|] eqn:Ek; simpl; [|done].
  destruct (heap w !! a) as [s|] eqn:Ea; simpl; [|by eauto].
  exists a, s. repeat split; try done. by destruct (stop_event s).
Qed.

Lemma stop_integration_consistent n d w b w' :
  consistent w -> stop_integration n d w = Ok (b, w') -> consistent w'.
Proof.
  intros Hw H. pose proof (stop_integration_cases n d w) as Hc.
  rewrite H in Hc. destruct b; [|by destruct Hc as [-> _]].
  destruct Hc as (a & s & Hk & Hs & ->).
  assert (Hlt : a < length (heap w)) by by eapply lookup_lt_Some.
  destruct Hw as [w1 w2 w3 w4 w5].
  assert (Hh : heap (match stop_event s with
                     | Some e => event_set e w | None => w end) = heap w)
    by by destruct (stop_event s).
  assert (Ht : threads (match stop_event s with
                     | Some e => event_set e w | None => w end) = threads w)
    by by destruct (stop_event s).
  assert (Hi : integrations (match stop_event s with
                     | Some e => event_set e w | None => w end) = integrations w)
    by by destruct (stop_event s).
  assert (He : length (events (match stop_event s with
                     | Some e => event_set e w | None => w end))
               = length (events w)).
  { destruct (stop_event s); [|done]. simpl. by rewrite length_insert. }
  constructor; simpl; rewrite ?Hh, ?Ht, ?Hi, ?He, ?length_insert; try done.
  - intros a0 s0 t0 H1 H2.
    apply lookup_insert_cases in H1 as [(<- & <- & _)|(Hne & H1)].
    + apply cell_ok_set_enabled. by eapply w3.
    + by eapply w3.
  - intros key a0 Hk0. destruct (w4 _ _ Hk0) as (s0 & Hs0 & Hkey).
    destruct (decide (a = a0)) as [<-|Hne].
    + exists (set_enabled false s). rewrite list_lookup_insert_eq by done.
      split; [done|]. simpl. congruence.
    + exists s0. by rewrite list_lookup_insert_ne.
  - intros a0 s0 H1 Hr.
    apply lookup_insert_cases in H1 as [(<- & <- & _)|(Hne & H1)].
    + simpl. by apply w5.
    + by apply w5.
Qed.

(** ** What [stop_all] and [get_status] do *)

Lemma stop_all_fold w (l : list (string * nat)) :
  (forall key a, (key, a) ∈ l ->
     a < length (events w)
     /\ exists s, heap w !! a = Some s /\ stop_event s = Some a) ->
  exists w',
    foldr (fun '(_, a) acc =>
             w' ← acc;
             s ← deref w' a;
             mret (match stop_event s with
                   | Some e => event_set e w'
                   | None => w'
                   end))
          (mret w) l = Ok w'
    /\ integrations w' = integrations w
    /\ heap w' = heap w
    /\ threads w' = threads w
    /\ clock w' = clock w
    /\ bulk_calls w' = bulk_calls w
    /\ length (events w') = length (events w)
    /\ forall e, events w' !! e = Some true <->
                 (events w !! e = Some true
                  \/ exists key, (key, e) ∈ l).
Proof.
  induction l as [|[k a] l IH]; intros Hl.
  - exists w. repeat split; try done.
    + by left.
    + intros [H|[key H]]; [done|]. by apply elem_of_nil in H.
  - destruct IH as (w1 & Hf & Hi & Hh & Ht & Hc & Hb & Hlen & Hev).
    { intros key a0 H. apply (Hl key). by right. }
    destruct (Hl k a) as (Hlt & s & Hs & Hse); [by left|].
    exists (event_set a w1). simpl. rewrite Hf. simpl.
    unfold deref. rewrite Hh, Hs. simpl. rewrite Hse.
    repeat split; try done.
    + by rewrite length_insert.
    + intros H. apply lookup_insert_cases in H as [(<- & _ & _)|(Hne & H)].
      * right. exists k. by left.
      * apply Hev in H as [H|[key H]]; [by left|].
        right. exists key. by right.
    + intros H. destruct (decide (a = e)) as [<-|Hne].
      * apply list_lookup_insert_eq. by rewrite Hlen.
      * rewrite list_lookup_insert_ne by done. apply Hev.
        destruct H as [H|[key H]]; [by left|].
        apply elem_of_cons in H as [[= _ <-]|H]; [done|].
        right. by exists key.
Qed.

(** [stop_all] returns, changes nothing but events, and leaves set exactly
    the events that were set and those of the registered states. *)
Lemma stop_all_effect w :
  consistent w ->
  exists w',
    stop_all w = Ok w'
    /\ integrations w' = integrations w
    /\ heap w' = heap w
    /\ threads w' = threads w
    /\ clock w' = clock w
    /\ bulk_calls w' = bulk_calls w
    /\ length (events w') = length (events w)
    /\ forall e, events w' !! e = Some true <->
                 (events w !! e = Some true
                  \/ exists key, integrations w !! key = Some e).
Proof.
  intros Hw.
  destruct (stop_all_fold w (map_to_list (integrations w)))
    as (w' & Hf & Hi & Hh & Ht & Hc & Hb & Hlen & Hev).
  { intros key a H. apply elem_of_map_to_list in H.
    destruct (registry_bound _ Hw _ _ H) as (s & Hs & _).
    assert (Hlt : a < length (heap w)) by by eapply lookup_lt_Some.
    split; [by rewrite (same_events _ Hw)|].
    destruct (lookup_lt_is_Some_2 (threads w) a) as [t Ht];
      [by rewrite (same_threads _ Hw)|].
    exists s. split; [done|]. by destruct (cells _ Hw _ _ _ Hs Ht). }
  exists w'. repeat split; try done.
  - intros H. apply Hev in H as [H|[key H]]; [by left|].
    right. exists key. by apply elem_of_map_to_list.
  - intros H. apply Hev. destruct H as [H|[key H]]; [by left|].
    right. exists key. by apply elem_of_map_to_list.
Qed.

Lemma stop_all_consistent w w' :
  consistent w -> stop_all w = Ok w' -> consistent w'.
Proof.
  intros Hw H.
  destruct (stop_all_effect w Hw) as (w1 & Hf & Hi & Hh & Ht & _ & _ & Hlen & _).
  rewrite H in Hf. injection Hf as <-.
  destruct Hw as [w1 w2 w3 w4 w5].
  constructor; rewrite ?Hi, ?Hh, ?Ht, ?Hlen; done.
Qed.

Lemma get_status_fold w (l : list (string * nat)) :
  (forall key a, (key, a) ∈ l -> is_Some (heap w !! a)) ->
  exists m : gmap string StatusEntry,
    foldr (fun '(key, a) acc =>
             status ← acc;
             s ← deref w a;
             mret (<[key := status_of s]> status))
          (mret ∅) l = Ok m
    /\ forall key,
         m !! key =
           (list_to_map l : gmap string nat) !! key
             ≫= fun a => status_of <$> heap w !! a.
Proof.
  induction l as [|[k a] l IH]; intros Hl.
  - exists ∅. split; [done|]. intros key. by rewrite !lookup_empty.
  - destruct IH as (m & Hf & Hm).
    { intros key a0 H. eapply Hl. by right. }
    destruct (Hl k a) as [s Hs]; [by left|].
    exists (<[k := status_of s]> m). simpl. rewrite Hf. simpl.
    unfold deref. rewrite Hs. simpl. split; [done|].
    intros key. destruct (decide (k = key)) as [<-|Hne].
    + rewrite !lookup_insert_eq. simpl. by rewrite Hs.
    + rewrite !lookup_insert_ne by done. apply Hm.
Qed.

(** [get_status] returns, with one entry for each registered key: the
    fields of the state the key is bound to. *)
Lemma get_status_spec w :
  consistent w ->
  exists m : gmap string StatusEntry,
    get_status w = Ok m
    /\ forall key,
         m !! key = integrations w !! key ≫= fun a => status_of <$> heap w !! a.
Proof.
  intros Hw.
  destruct (get_status_fold w (map_to_list (integrations w))) as (m & Hf & Hm).
  { intros key a H. apply elem_of_map_to_list in H.
    destruct (registry_bound _ Hw _ _ H) as (s & Hs & _). by exists s. }
  exists m. split; [done|]. intros key.
  by rewrite Hm, list_to_map_to_list.
Qed.

(** ** Every reachable runtime is consistent *)

Lemma spawn_consistent n d eps g w :
  consistent w ->
  in_catalog n d ->
  ~ registered_running w (key_of n d) ->
  consistent (spawn n d eps g w).
Proof.
  intros [w1 w2 w3 w4 w5] Hcat Hnr.
  constructor; simpl.
  - rewrite !length_app. simpl. lia.
  - rewrite !length_app. simpl. lia.
  - intros a s t H1 H2.
    destruct (decide (a < length (heap w))) as [Hlt|Hge].
    + rewrite lookup_app_l in H1 by done.
      rewrite lookup_app_l in H2 by by rewrite w2.
      by eapply w3.
    + assert (a = length (heap w)) as ->.
      { apply lookup_lt_Some in H1. rewrite length_app in H1. simpl in H1. lia. }
      rewrite lookup_app_r, Nat.sub_diag in H1 by done.
      rewrite <- w2 in H2. rewrite lookup_app_r, Nat.sub_diag in H2 by done.
      injection H1 as <-. injection H2 as <-.
      constructor; simpl; try done; try congruence.
  - intros key a Hk.
    destruct (decide (key_of n d = key)) as [<-|Hne].
    + rewrite lookup_insert_eq in Hk. injection Hk as <-.
      eexists. rewrite lookup_app_r, Nat.sub_diag by done. by split.
    + rewrite lookup_insert_ne in Hk by done.
      destruct (w4 _ _ Hk) as (s & Hs & Hkey).
      exists s. split; [|done].
      rewrite lookup_app_l; [done|]. by eapply lookup_lt_Some.
  - intros a s H1 Hr.
    destruct (decide (a < length (heap w))) as [Hlt|Hge].
    + rewrite lookup_app_l in H1 by done.
      pose proof (w5 _ _ H1 Hr) as Hk.
      rewrite lookup_insert_ne; [done|].
      intros Hkey. apply Hnr. exists a, s. by rewrite Hkey.
    + assert (a = length (heap w)) as ->.
      { apply lookup_lt_Some in H1. rewrite length_app in H1. simpl in H1. lia. }
      rewrite lookup_app_r, Nat.sub_diag in H1 by done.
      injection H1 as <-. simpl. by rewrite lookup_insert_eq.
Qed.

Lemma start_integration_consistent n d eps w b w' :
  consistent w -> start_integration n d eps w = Ok (b, w') -> consistent w'.
Proof.
  intros Hw H. pose proof (start_integration_cases n d eps w) as Hc.
  rewrite H in Hc. destruct b; [|by destruct Hc as [-> _]].
  destruct Hc as (info & dsi & Hn & Hd & Hnr & ->).
  apply spawn_consistent; try done. exists info. split; [done|]. by exists dsi.
Qed.

Lemma initial_consistent : consistent initial.
Proof. by constructor. Qed.

Lemma step_consistent l w w' :
  consistent w -> step l w = Some w' -> consistent w'.
Proof.
  intros Hw H. destruct l as [n d eps|n d| | |tid o|dt]; simpl in H.
  - destruct (start_integration n d eps w) as [[b w1]|] eqn:E; [|done].
    injection H as <-. by eapply start_integration_consistent.
  - destruct (stop_integration n d w) as [[b w1]|] eqn:E; [|done].
    injection H as <-. by eapply stop_integration_consistent.
  - destruct (stop_all w) as [w1|] eqn:E; [|done].
    injection H as <-. by eapply stop_all_consistent.
  - destruct (get_status w); [|done]. by injection H as <-.
  - by eapply run_generator_consistent.
  - case_decide; [|done]. injection H as <-.
    by destruct Hw as [w1 w2 w3 w4 w5].
Qed.

Lemma exec_consistent ls w w' :
  consistent w -> exec ls w = Some w' -> consistent w'.
Proof.
  revert w. induction ls as [|l ls IH]; intros w Hw H; simpl in H.
  - by injection H as <-.
  - destruct (step l w) as [w1|] eqn:E; [|done].
    eapply IH; [|done]. by eapply step_consistent.
Qed.

Lemma reachable_consistent w : reachable w -> consistent w.
Proof. intros [ls H]. eapply exec_consistent; [apply initial_consistent|done]. Qed.

Lemma exec_app ls1 ls2 w :
  exec (ls1 ++ ls2) w = exec ls1 w ≫= exec ls2.
Proof.
  revert w. induction ls1 as [|l ls1 IH]; intros w; simpl; [done|].
  by destruct (step l w).
Qed.

Lemma reachable_exec ls w w' :
  reachable w -> exec ls w = Some w' -> reachable w'.
Proof.
  intros [ls0 H0] H. exists (ls0 ++ ls)%list. by rewrite exec_app, H0.
Qed.

(** ** One task for a key *)

Lemma filter_none {A} (P : A -> Prop) `{forall x, Decision (P x)} (l : list A) :
  (forall x, x ∈ l -> ~ P x) -> filter P l = [].
Proof.
  induction l as [|x l IH]; intros Hl; [done|].
  rewrite filter_cons_False by (apply Hl; by left).
  apply IH. intros y Hy. apply Hl. by right.
Qed.

Lemma filter_at_most_one {A} (P : A -> Prop) `{forall x, Decision (P x)}
    (l : list A) :
  (forall i j x y, l !! i = Some x -> l !! j = Some y -> P x -> P y -> i = j) ->
  length (filter P l) <= 1.
Proof.
  induction l as [|x l IH]; intros Hl; [simpl; lia|].
  destruct (decide (P x)) as [Hx|Hx].
  - rewrite filter_cons_True by done.
    rewrite filter_none; [simpl; lia|].
    intros y Hy Py. apply list_elem_of_lookup in Hy as [j Hj].
    by specialize (Hl 0 (S j) x y eq_refl Hj Hx Py).
  - rewrite filter_cons_False by done. apply IH.
    intros i j y z Hi Hj Py Pz.
    by specialize (Hl (S i) (S j) y z Hi Hj Py Pz) as [= ->].
Qed.

Lemma filter_at_least_one {A} (P : A -> Prop) `{forall x, Decision (P x)}
    (l : list A) x :
  x ∈ l -> P x -> 1 <= length (filter P l).
Proof.
  intros Hx Px.
  assert (Hin : x ∈ filter P l) by by apply list_elem_of_filter.
  destruct (filter P l); [by apply elem_of_nil in Hin|simpl; lia].
Qed.

Lemma running_tasks_at_most_one w key :
  consistent w -> length (running_tasks w key) <= 1.
Proof.
  intros Hw. apply filter_at_most_one.
  intros i j x y Hi Hj [Hkx Hrx] [Hky Hry].
  pose proof (running_registered _ Hw _ _ Hi Hrx) as H1.
  pose proof (running_registered _ Hw _ _ Hj Hry) as H2.
  rewrite Hkx in H1. rewrite Hky in H2. congruence.
Qed.

Lemma running_tasks_registered w key :
  consistent w -> registered_running w key -> length (running_tasks w key) = 1.
Proof.
  intros Hw (a & s & Hk & Hs & Hr).
  pose proof (running_tasks_at_most_one w key Hw) as Hle.
  assert (1 <= length (running_tasks w key)); [|lia].
  apply (filter_at_least_one _ _ s).
  - apply list_elem_of_lookup. by exists a.
  - split; [|done]. destruct (registry_bound _ Hw _ _ Hk) as (s0 & Hs0 & ->).
    congruence.
Qed.

Lemma start_integration_running n d eps w :
  registered_running w (key_of n d) ->
  start_integration n d eps w = Ok (false, w).
Proof.
  intros (a & s & Hk & Hs & Hr).
  unfold start_integration, contains, getitem, deref.
  rewrite Hk. simpl. rewrite Hs. simpl. by rewrite Hr.
Qed.

Lemma spawn_registered_running n d eps g w :
  registered_running (spawn n d eps g w) (key_of n d).
Proof.
  eexists (length (heap w)), _. simpl. rewrite lookup_insert_eq.
  split; [done|]. by rewrite lookup_app_r, Nat.sub_diag.
Qed.

(** ** The catalog and the keys *)

Lemma in_catalog_pairs n d : in_catalog n d <-> (n, d) ∈ catalog_pairs.
Proof.
  split.
  - intros (info & Hn & [dsi Hd]).
    unfold AVAILABLE_INTEGRATIONS in Hn. simpl in Hn.
    repeat (apply lookup_insert_Some in Hn as [[<- <-]|[_ Hn]]);
      try (by rewrite lookup_empty in Hn); simpl in Hd;
      repeat (apply lookup_insert_Some in Hd as [[<- <-]|[_ Hd]]);
      try (by rewrite lookup_empty in Hd); unfold catalog_pairs;
      repeat (first [by left | right]).
  - intros H. unfold catalog_pairs in H.
    repeat (apply elem_of_cons in H as [[= -> ->]|H]);
      [| | | | | |by apply elem_of_nil in H];
      (eexists; split; [vm_compute; reflexivity|]);
      (eexists; vm_compute; reflexivity).
Qed.

Lemma in_catalog_no_colon n d :
  in_catalog n d -> no_colon n = true /\ no_colon d = true.
Proof.
  intros H%in_catalog_pairs. unfold catalog_pairs in H.
  repeat (apply elem_of_cons in H as [[= -> ->]|H]);
    [| | | | | |by apply elem_of_nil in H]; by vm_compute.
Qed.

Lemma append_empty x : "" +:+ x = x.
Proof. reflexivity. Qed.

Lemma append_String c x y : String c x +:+ y = String c (x +:+ y).
Proof. reflexivity. Qed.

Lemma no_colon_append_colon x y : no_colon (x +:+ String ":" y) = false.
Proof.
  induction x as [|c x IH].
  - by rewrite append_empty.
  - rewrite append_String. simpl. rewrite IH. by destruct (Ascii.eqb c ":").
Qed.

Lemma append_colon_inj n d n' d' :
  no_colon n' = true -> no_colon d' = true ->
  n +:+ String ":" d = n' +:+ String ":" d' -> n = n' /\ d = d'.
Proof.
  revert n'.
  induction n as [|c n IH]; intros [|c' n'] Hn Hd H;
    rewrite ?append_empty, ?append_String in H.
  - by injection H as ->.
  - injection H as <- _. done.
  - injection H as -> H.
    pose proof (no_colon_append_colon n d) as Hc.
    rewrite H in Hc. congruence.
  - injection H as -> H. simpl in Hn.
    apply andb_true_iff in Hn as [_ Hn].
    destruct (IH n' Hn Hd H) as [-> ->]. done.
Qed.

Lemma key_of_inj n d n' d' :
  no_colon n' = true -> no_colon d' = true ->
  key_of n d = key_of n' d' -> n = n' /\ d = d'.
Proof. apply append_colon_inj. Qed.

(** A key that is registered belongs to a pair of the catalog, and to that
    pair only. *)
Lemma registered_in_catalog w n d a :
  consistent w -> integrations w !! key_of n d = Some a ->
  in_catalog n d
  /\ exists s, heap w !! a = Some s /\ name s = n /\ dataset s = d.
Proof.
  intros Hw Hk.
  destruct (registry_bound _ Hw _ _ Hk) as (s & Hs & Hkey).
  destruct (lookup_lt_is_Some_2 (threads w) a) as [t Ht].
  { rewrite (same_threads _ Hw). by eapply lookup_lt_Some. }
  pose proof (cell_catalog _ _ _ (cells _ Hw _ _ _ Hs Ht)) as Hcat.
  destruct (in_catalog_no_colon _ _ Hcat) as [H1 H2].
  destruct (key_of_inj _ _ _ _ H1 H2 Hkey) as [-> ->].
  split; [done|]. by exists s.
Qed.

(** ** Rejected requests *)

Lemma start_integration_no_raise n d eps w :
  consistent w -> ~ raises (start_integration n d eps w).
Proof.
  intros Hw. pose proof (start_integration_cases n d eps w) as Hc.
  destruct (start_integration n d eps w) as [r|e]; [simpl; tauto|].
  destruct Hc as (_ & a & Hk & Ha).
  destruct (registry_bound _ Hw _ _ Hk) as (s & Hs & _). congruence.
Qed.

Lemma stop_integration_no_raise n d w :
  consistent w -> ~ raises (stop_integration n d w).
Proof.
  intros Hw. pose proof (stop_integration_cases n d w) as Hc.
  destruct (stop_integration n d w) as [r|e]; [simpl; tauto|].
  destruct Hc as (_ & a & Hk & Ha).
  destruct (registry_bound _ Hw _ _ Hk) as (s & Hs & _). congruence.
Qed.

Lemma start_integration_unknown n d eps w :
  consistent w -> ~ in_catalog n d ->
  start_integration n d eps w = Ok (false, w).
Proof.
  intros Hw Hcat.
  pose proof (start_integration_cases n d eps w) as Hc.
  pose proof (start_integration_no_raise n d eps w Hw) as Hr.
  destruct (start_integration n d eps w) as [[[] w']|e]; [| |done].
  - destruct Hc as (info & dsi & Hn & Hd & _). destruct Hcat.
    exists info. split; [done|]. by exists dsi.
  - by destruct Hc as [-> _].
Qed.

Lemma stop_integration_absent n d w :
  integrations w !! key_of n d = None ->
  stop_integration n d w = Ok (false, w).
Proof. intros H. unfold stop_integration, contains. by rewrite H. Qed.

(** C5, as the code has it. In a reachable runtime no start and no stop
    raises, and a request that returns false leaves the runtime exactly as
    it was. The start of a pair that is not in the catalog returns false,
    and so does the start of a key that is registered and running, and the
    stop of a key that is not registered. After the rejected start of a
    pair that is not in the catalog, the status has no entry for its key. *)
Theorem rejected_requests_change_nothing w n d :
  reachable w ->
  (forall eps, ~ raises (start_integration n d eps w))
  /\ ~ raises (stop_integration n d w)
  /\ (forall eps w', start_integration n d eps w = Ok (false, w') -> w' = w)
  /\ (forall w', stop_integration n d w = Ok (false, w') -> w' = w)
  /\ (~ in_catalog n d ->
        forall eps, start_integration n d eps w = Ok (false, w))
  /\ (registered_running w (key_of n d) ->
        forall eps, start_integration n d eps w = Ok (false, w))
  /\ (integrations w !! key_of n d = None ->
        stop_integration n d w = Ok (false, w))
  /\ (~ in_catalog n d ->
        exists m : gmap string StatusEntry,
          get_status w = Ok m /\ m !! key_of n d = None).
Proof.
  intros Hr. pose proof (reachable_consistent _ Hr) as Hw.
  split; [intros eps; by apply start_integration_no_raise|].
  split; [by apply stop_integration_no_raise|].
  split.
  { intros eps w' H. pose proof (start_integration_cases n d eps w) as Hc.
    rewrite H in Hc. by destruct Hc as [-> _]. }
  split.
  { intros w' H. pose proof (stop_integration_cases n d w) as Hc.
    rewrite H in Hc. by destruct Hc as [-> _]. }
  split; [intros Hcat eps; by apply start_integration_unknown|].
  split; [intros H eps; by apply start_integration_running|].
  split; [apply stop_integration_absent|].
  intros Hcat. destruct (get_status_spec w Hw) as (m & Hm & Hlook).
  exists m. split; [done|]. rewrite Hlook.
  destruct (integrations w !! key_of n d) as [a|] eqn:Hk; [|done].
  destruct Hcat. by destruct (registered_in_catalog w n d a Hw Hk).
Qed.

(** C5 as stated fails: a start of "nginx"/"access" while it runs is
    rejected, and the status still has the entry of its key. *)
Lemma rejected_duplicate_start_keeps_entry :
  reachable started_state
  /\ start_integration "nginx" "access" (Qc_of_Z 5) started_state =
       Ok (false, started_state)
  /\ exists (m : gmap string StatusEntry) e,
       get_status started_state = Ok m
       /\ m !! key_of "nginx" "access" = Some e
       /\ status_running e = true.
Proof.
  split.
  { exists (started_run (Qc_of_Z 5)). vm_compute. reflexivity. }
  split; [vm_compute; reflexivity|].
  eexists _, _. split; [vm_compute; reflexivity|].
  split; [vm_compute; reflexivity|reflexivity].
Qed.

Lemma rejected_requests_change_nothing_witness :
  reachable started_state
  /\ start_integration "unknown_source" "x" (Qc_of_Z 1) started_state =
       Ok (false, started_state)
  /\ stop_integration "unknown_source" "x" started_state =
       Ok (false, started_state)
  /\ exists m : gmap string StatusEntry,
       get_status started_state = Ok m
       /\ m !! key_of "unknown_source" "x" = None.
Proof.
  assert (H : reachable started_state).
  { exists (started_run (Qc_of_Z 5)). vm_compute. reflexivity. }
  assert (Hcat : ~ in_catalog "unknown_source" "x").
  { intros (info & Hn & _). vm_compute in Hn. discriminate. }
  split; [exact H|].
  destruct (rejected_requests_change_nothing started_state "unknown_source" "x" H)
    as (_ & _ & _ & _ & H5 & _ & H7 & H8).
  split; [exact (H5 Hcat (Qc_of_Z 1))|].
  split; [apply H7; vm_compute; reflexivity|].
  exact (H8 Hcat).
Defined.

(** ** Restarting a key *)

(** C7. When the key of a pair is registered and its state is not running
    any more, a start of the pair returns true. It binds the key to a state
    that did not exist before, with [total_events = 0], running, at the
    rate of this start, and with a thread of its own that has not begun; the
    old state stays in the store as it was. The status then shows
    [total_events = 0] for the key. *)
Theorem restart_builds_fresh_task w n d eps a s :
  reachable w ->
  integrations w !! key_of n d = Some a ->
  heap w !! a = Some s ->
  running s = false ->
  exists g s' t',
    start_integration n d eps w = Ok (true, spawn n d eps g w)
    /\ integrations (spawn n d eps g w) !! key_of n d = Some (length (heap w))
    /\ a <> length (heap w)
    /\ heap w !! length (heap w) = None
    /\ heap (spawn n d eps g w) !! a = Some s
    /\ heap (spawn n d eps g w) !! length (heap w) = Some s'
    /\ total_events s' = 0
    /\ running s' = true
    /\ events_per_second s' = eps
    /\ threads (spawn n d eps g w) !! length (heap w) = Some t'
    /\ pc t' = PInit
    /\ pending_events t' = []
    /\ exists (m : gmap string StatusEntry) e,
         get_status (spawn n d eps g w) = Ok m
         /\ m !! key_of n d = Some e
         /\ status_total_events e = 0
         /\ status_running e = true.
Proof.
  intros Hr Hk Hs Hrun. pose proof (reachable_consistent _ Hr) as Hw.
  destruct (registered_in_catalog w n d a Hw Hk) as [Hcat _].
  assert (Hnr : ~ registered_running w (key_of n d)).
  { intros (a0 & s0 & Hk0 & Hs0 & Hr0). congruence. }
  pose proof (start_integration_cases n d eps w) as Hc.
  pose proof (start_integration_no_raise n d eps w Hw) as Hnoraise.
  destruct (start_integration n d eps w) as [[[] w']|e] eqn:Hstart; [| |done].
  2:{ by destruct Hc as (_ & [H|H]). }
  destruct Hc as (info & dsi & Hn & Hd & _ & ->).
  assert (Hw' : consistent (spawn n d eps (generator dsi) w))
    by by eapply start_integration_consistent.
  assert (Hlt : a < length (heap w)) by by eapply lookup_lt_Some.
  eexists (generator dsi), _, _.
  split; [done|]. simpl.
  split; [by rewrite lookup_insert_eq|].
  split; [lia|].
  split; [by apply lookup_ge_None_2|].
  split; [by rewrite lookup_app_l|].
  split; [by rewrite lookup_app_r, Nat.sub_diag|].
  split; [done|]. split; [done|]. split; [done|].
  split.
  { rewrite <- (same_threads _ Hw). by rewrite lookup_app_r, Nat.sub_diag. }
  split; [done|]. split; [done|].
  destruct (get_status_spec _ Hw') as (m & Hm & Hlook).
  eexists m, _. split; [done|]. rewrite Hlook. simpl.
  rewrite lookup_insert_eq. simpl.
  rewrite lookup_app_r, Nat.sub_diag by done. by simpl.
Qed.

Lemma restart_builds_fresh_task_witness :
  reachable stopped_state
  /\ (total_events <$> heap stopped_state !! 0) = Some 1
  /\ exists g,
       start_integration "nginx" "access" (Qc_of_Z 3) stopped_state =
         Ok (true, spawn "nginx" "access" (Qc_of_Z 3) g stopped_state)
       /\ (total_events <$>
             heap (spawn "nginx" "access" (Qc_of_Z 3) g stopped_state) !! 1)
          = Some 0.
Proof.
  assert (H : reachable stopped_state).
  { exists stopped_run. vm_compute. reflexivity. }
  split; [exact H|]. split; [reflexivity|].
  destruct (restart_builds_fresh_task stopped_state "nginx" "access"
              (Qc_of_Z 3) 0 _ H eq_refl eq_refl eq_refl)
    as (g & s' & t' & Hstart & _ & _ & _ & _ & Hs' & Htot & _).
  exists g. split; [exact Hstart|].
  change 1 with (length (heap stopped_state)) at 1.
  rewrite Hs'. simpl. by rewrite Htot.
Defined.

(** ** What steps keep *)

(** A state that is in the store stays there, with its name, dataset and
    rate; its counter does not go down, and it is never set running again. *)
Lemma step_state_static l w w' a s :
  consistent w -> step l w = Some w' -> heap w !! a = Some s ->
  exists s',
    heap w' !! a = Some s'
    /\ name s' = name s /\ dataset s' = dataset s
    /\ events_per_second s' = events_per_second s
    /\ (total_events s <= total_events s')%nat
    /\ (running s' = true -> running s = true).
Proof.
  intros Hw H Hs.
  assert (Hlt : a < length (heap w)) by by eapply lookup_lt_Some.
  destruct l as [n d eps|n d| | |tid o|dt]; simpl in H.
  - pose proof (start_integration_cases n d eps w) as Hc.
    destruct (start_integration n d eps w) as [[[] w1]|] eqn:E; [| |done];
      injection H as <-.
    + destruct Hc as (info & dsi & _ & _ & _ & ->). exists s. simpl.
      by rewrite lookup_app_l.
    + destruct Hc as [-> _]. by exists s.
  - pose proof (stop_integration_cases n d w) as Hc.
    destruct (stop_integration n d w) as [[[] w1]|] eqn:E; [| |done];
      injection H as <-.
    + destruct Hc as (a0 & s0 & _ & Hs0 & ->).
      assert (Hh : heap (with_heap (<[a0 := set_enabled false s0]> (heap w))
                           (match stop_event s0 with
                            | Some e => event_set e w | None => w end))
                   = <[a0 := set_enabled false s0]> (heap w))
        by by destruct (stop_event s0).
      rewrite Hh. destruct (decide (a0 = a)) as [->|Hne].
      * assert (s0 = s) as -> by congruence.
        exists (set_enabled false s). rewrite list_lookup_insert_eq by done.
        by simpl.
      * exists s. by rewrite list_lookup_insert_ne.
    + destruct Hc as [-> _]. by exists s.
  - destruct (stop_all_effect w Hw) as (w1 & Hf & _ & Hh & _).
    rewrite Hf in H. injection H as <-. exists s. by rewrite Hh.
  - destruct (get_status w); [|done]. injection H as <-. by exists s.
  - destruct (run_generator_effect _ _ _ _ Hw H)
      as (s0 & t & s' & t' & Hs0 & _ & _ & _ & _ & Hh & _ & _ & _
          & Hn & Hd & He & _ & Htot & Hrun).
    rewrite Hh. destruct (decide (tid = a)) as [->|Hne].
    + exists s'. rewrite list_lookup_insert_eq by done.
      assert (s0 = s) as -> by congruence. done.
    + exists s. by rewrite list_lookup_insert_ne.
  - case_decide; [|done]. injection H as <-. by exists s.
Qed.

(** Only an accepted start changes the registry, and it changes the
    binding of its own key only. *)
Lemma step_registry l w w' :
  consistent w -> step l w = Some w' ->
  integrations w' = integrations w
  \/ exists n d eps,
       l = CallStart n d eps
       /\ integrations w' = <[key_of n d := length (heap w)]> (integrations w).
Proof.
  intros Hw H.
  destruct l as [n d eps|n d| | |tid o|dt]; simpl in H.
  - pose proof (start_integration_cases n d eps w) as Hc.
    destruct (start_integration n d eps w) as [[[] w1]|] eqn:E; [| |done];
      injection H as <-.
    + destruct Hc as (info & dsi & _ & _ & _ & ->). right. by exists n, d, eps.
    + destruct Hc as [-> _]. by left.
  - pose proof (stop_integration_cases n d w) as Hc.
    destruct (stop_integration n d w) as [[[] w1]|] eqn:E; [| |done];
      injection H as <-.
    + destruct Hc as (a0 & s0 & _ & _ & ->). left. simpl.
      by destruct (stop_event s0).
    + destruct Hc as [-> _]. by left.
  - destruct (stop_all_effect w Hw) as (w1 & Hf & Hi & _).
    rewrite Hf in H. injection H as <-. by left.
  - destruct (get_status w); [|done]. injection H as <-. by left.
  - destruct (run_generator_effect _ _ _ _ Hw H)
      as (s0 & t & s' & t' & _ & _ & Hi & _). by left.
  - case_decide; [|done]. injection H as <-. by left.
Qed.

Lemma step_registry_mono l w w' key :
  consistent w -> step l w = Some w' ->
  is_Some (integrations w !! key) -> is_Some (integrations w' !! key).
Proof.
  intros Hw H Hk.
  destruct (step_registry l w w' Hw H) as [->|(n & d & eps & _ & ->)]; [done|].
  destruct (decide (key_of n d = key)) as [<-|Hne].
  - rewrite lookup_insert_eq. by eexists.
  - by rewrite lookup_insert_ne.
Qed.

Lemma exec_registry_mono ls w w' key :
  consistent w -> exec ls w = Some w' ->
  is_Some (integrations w !! key) -> is_Some (integrations w' !! key).
Proof.
  revert w. induction ls as [|l ls IH]; intros w Hw H Hk; simpl in H.
  - by injection H as <-.
  - destruct (step l w) as [w1|] eqn:E; [|done].
    eapply IH; [by eapply step_consistent|done|].
    by eapply step_registry_mono.
Qed.

Lemma exec_state_static ls w w' a s :
  consistent w -> exec ls w = Some w' -> heap w !! a = Some s ->
  exists s',
    heap w' !! a = Some s'
    /\ name s' = name s /\ dataset s' = dataset s
    /\ events_per_second s' = events_per_second s
    /\ (total_events s <= total_events s')%nat
    /\ (running s' = true -> running s = true).
Proof.
  revert w s. induction ls as [|l ls IH]; intros w s Hw H Hs; simpl in H.
  - injection H as <-. by exists s.
  - destruct (step l w) as [w1|] eqn:E; [|done].
    destruct (step_state_static _ _ _ _ _ Hw E Hs)
      as (s1 & Hs1 & Hn1 & Hd1 & He1 & Ht1 & Hr1).
    destruct (IH w1 s1) as (s' & Hs' & Hn & Hd & He & Ht & Hr);
      [by eapply step_consistent|done|done|].
    exists s'. repeat split; try congruence; [lia|tauto].
Qed.

Lemma exec_registry_binding ls w w' key :
  consistent w -> exec ls w = Some w' ->
  Forall (not_start_of key) ls ->
  integrations w' !! key = integrations w !! key.
Proof.
  revert w. induction ls as [|l ls IH]; intros w Hw H Hls; simpl in H.
  - by injection H as <-.
  - destruct (step l w) as [w1|] eqn:E; [|done].
    apply Forall_cons in Hls as [Hl Hls].
    rewrite (IH w1); [|by eapply step_consistent|done|done].
    destruct (step_registry l w w1 Hw E) as [->|(n & d & eps & -> & ->)]; [done|].
    simpl in Hl. by rewrite lookup_insert_ne.
Qed.

(** ** The registry only grows *)

(** C9. [stop_integration] and [stop_all] return with the registry they
    were given, and [get_status] returns a dict and changes nothing; no step
    of the process removes a key. So after an accepted start of a key, at
    the end of every run the status has an entry for the key: the fields of
    the state the key is bound to, with its counter. *)
Theorem registry_never_shrinks w :
  reachable w ->
  (forall n d b w', stop_integration n d w = Ok (b, w') ->
     integrations w' = integrations w)
  /\ (forall w', stop_all w = Ok w' -> integrations w' = integrations w)
  /\ (forall l w' key, step l w = Some w' ->
        is_Some (integrations w !! key) -> is_Some (integrations w' !! key))
  /\ (forall n d eps w1 ls w2,
        start_integration n d eps w = Ok (true, w1) ->
        exec ls w1 = Some w2 ->
        exists (m : gmap string StatusEntry) a s,
          get_status w2 = Ok m
          /\ integrations w2 !! key_of n d = Some a
          /\ heap w2 !! a = Some s
          /\ m !! key_of n d = Some (status_of s)).
Proof.
  intros Hr. pose proof (reachable_consistent _ Hr) as Hw.
  split.
  { intros n d b w' H.
    destruct (step_registry (CallStop n d) w w' Hw) as [E|(? & ? & ? & [=] & _)];
      [|done].
    simpl. by rewrite H. }
  split.
  { intros w' H.
    destruct (step_registry CallStopAll w w' Hw) as [E|(? & ? & ? & [=] & _)];
      [|done].
    simpl. by rewrite H. }
  split.
  { intros l w' key H. by apply (step_registry_mono l). }
  intros n d eps w1 ls w2 Hstart Hexec.
  assert (Hw1 : consistent w1) by by eapply start_integration_consistent.
  assert (Hw2 : consistent w2) by by eapply exec_consistent.
  assert (Hk1 : is_Some (integrations w1 !! key_of n d)).
  { apply start_integration_accepted in Hstart as (info & dsi & _ & _ & _ & ->).
    simpl. rewrite lookup_insert_eq. by eexists. }
  destruct (exec_registry_mono ls w1 w2 (key_of n d) Hw1 Hexec Hk1) as [a Ha].
  destruct (registry_bound _ Hw2 _ _ Ha) as (s & Hs & _).
  destruct (get_status_spec w2 Hw2) as (m & Hm & Hlook).
  exists m, a, s. repeat split; try done.
  rewrite Hlook, Ha. simpl. by rewrite Hs.
Qed.

Lemma registry_never_shrinks_witness :
  reachable initial
  /\ exists (m : gmap string StatusEntry) a s,
       get_status stopped_state = Ok m
       /\ integrations stopped_state !! key_of "nginx" "access" = Some a
       /\ heap stopped_state !! a = Some s
       /\ m !! key_of "nginx" "access" = Some (status_of s).
Proof.
  assert (H : reachable initial) by by exists [].
  split; [exact H|].
  destruct (registry_never_shrinks initial H) as (_ & _ & _ & H4).
  assert (E : exec (tail stopped_run)
                (spawn "nginx" "access" (Qc_of_Z 2) NginxAccessGenerator initial)
              = Some stopped_state) by (vm_compute; reflexivity).
  exact (H4 "nginx" "access" (Qc_of_Z 2) _ _ _ eq_refl E).
Defined.

(** ** The rate the status reports *)

(** C10. After an accepted start at rate [eps], the state it created keeps
    [events_per_second = eps] through every run. As long as no later start
    of the same key follows, the status reports exactly [eps] for the key.
    When [eps <= 0] the thread of that state sleeps intervals of one second,
    which is not the rate the status reports. *)
Theorem status_reports_the_started_rate w n d eps w1 :
  reachable w ->
  start_integration n d eps w = Ok (true, w1) ->
  (forall ls w2, exec ls w1 = Some w2 ->
     exists s, heap w2 !! length (heap w) = Some s
               /\ events_per_second s = eps)
  /\ (forall ls w2, exec ls w1 = Some w2 ->
        Forall (not_start_of (key_of n d)) ls ->
        exists (m : gmap string StatusEntry) e,
          get_status w2 = Ok m
          /\ m !! key_of n d = Some e
          /\ status_eps e = eps)
  /\ (forall q : Qc, eps = Finite q -> (q ≤ 0)%Qc ->
        q <> 1%Qc
        /\ forall ls w2 t, exec ls w1 = Some w2 ->
             threads w2 !! length (heap w) = Some t ->
             pc t <> PInit ->
             sleep_interval t = 1%Qc).
Proof.
  intros Hr Hstart. pose proof (reachable_consistent _ Hr) as Hw.
  assert (Hw1 : consistent w1) by by eapply start_integration_consistent.
  apply start_integration_accepted in Hstart as (info & dsi & _ & _ & _ & ->).
  set (w1 := spawn n d eps (generator dsi) w) in *.
  assert (Hnew : exists s, heap w1 !! length (heap w) = Some s
                           /\ events_per_second s = eps).
  { eexists. subst w1. simpl. by rewrite lookup_app_r, Nat.sub_diag. }
  destruct Hnew as (s1 & Hs1 & He1).
  assert (Hkeep : forall ls w2, exec ls w1 = Some w2 ->
            exists s, heap w2 !! length (heap w) = Some s
                      /\ events_per_second s = eps).
  { intros ls w2 Hexec.
    destruct (exec_state_static ls w1 w2 _ _ Hw1 Hexec Hs1)
      as (s2 & Hs2 & _ & _ & He2 & _).
    exists s2. split; [done|]. congruence. }
  split; [done|]. split.
  - intros ls w2 Hexec Hls.
    assert (Hw2 : consistent w2) by by eapply exec_consistent.
    destruct (Hkeep ls w2 Hexec) as (s2 & Hs2 & He2).
    destruct (get_status_spec w2 Hw2) as (m & Hm & Hlook).
    exists m, (status_of s2). split; [done|]. split; [|done].
    rewrite Hlook, (exec_registry_binding ls w1 w2 _ Hw1 Hexec Hls).
    subst w1. simpl. rewrite lookup_insert_eq. simpl. by rewrite Hs2.
  - intros q -> Hle. split.
    { intros ->. by apply (Qclt_not_le _ _ Qc_one_pos). }
    intros ls w2 t Hexec Ht Hpc.
    assert (Hw2 : consistent w2) by by eapply exec_consistent.
    destruct (Hkeep ls w2 Hexec) as (s2 & Hs2 & He2).
    pose proof (cell_interval _ _ _ (cells _ Hw2 _ _ _ Hs2 Ht) Hpc) as Hi.
    rewrite He2, compute_sleep_interval_nonpos in Hi by done.
    by injection Hi as <-.
Qed.

Lemma status_reports_the_started_rate_witness :
  reachable initial
  /\ exists (m : gmap string StatusEntry) e,
       get_status stopped_state = Ok m
       /\ m !! key_of "nginx" "access" = Some e
       /\ status_eps e = Qc_of_Z 2.
Proof.
  assert (H : reachable initial) by by exists [].
  split; [exact H|].
  assert (Hstart : start_integration "nginx" "access" (Qc_of_Z 2) initial =
            Ok (true, spawn "nginx" "access" (Qc_of_Z 2) NginxAccessGenerator
                        initial)) by (vm_compute; reflexivity).
  destruct (status_reports_the_started_rate initial "nginx" "access"
              (Qc_of_Z 2) _ H Hstart) as (_ & H2 & _).
  apply (H2 (tail stopped_run)); [vm_compute; reflexivity|].
  repeat constructor.
Defined.

(** ** Steps of the others *)

Lemma calls_of_app tid l1 l2 :
  calls_of tid (l1 ++ l2) = (calls_of tid l1 ++ calls_of tid l2)%list.
Proof. unfold calls_of. by rewrite filter_app, fmap_app. Qed.

Lemma calls_of_others tid tid' extra :
  tid' <> tid ->
  (forall c : nat * list BulkAction, c ∈ extra -> fst c = tid') ->
  calls_of tid extra = [].
Proof.
  intros Hne H. unfold calls_of. rewrite filter_none; [done|].
  intros c Hc E. apply H in Hc. congruence.
Qed.

(** A step that is not a step of thread [tid] leaves the thread as it is and
    makes no sink call of it. *)
Lemma step_other_frame l w w' tid t :
  consistent w -> step l w = Some w' ->
  threads w !! tid = Some t -> not_run_of tid l ->
  threads w' !! tid = Some t
  /\ calls_of tid (bulk_calls w') = calls_of tid (bulk_calls w).
Proof.
  intros Hw H Ht Hl.
  assert (Hlt : tid < length (threads w)) by by eapply lookup_lt_Some.
  destruct l as [n d eps|n d| | |tid' o|dt]; simpl in H.
  - pose proof (start_integration_cases n d eps w) as Hc.
    destruct (start_integration n d eps w) as [[[] w1]|] eqn:E; [| |done];
      injection H as <-.
    + destruct Hc as (info & dsi & _ & _ & _ & ->). simpl.
      by rewrite lookup_app_l.
    + by destruct Hc as [-> _].
  - pose proof (stop_integration_cases n d w) as Hc.
    destruct (stop_integration n d w) as [[[] w1]|] eqn:E; [| |done];
      injection H as <-.
    + destruct Hc as (a0 & s0 & _ & _ & ->). by destruct (stop_event s0).
    + by destruct Hc as [-> _].
  - destruct (stop_all_effect w Hw) as (w1 & Hf & _ & _ & Hth & _ & Hb & _).
    rewrite Hf in H. injection H as <-. by rewrite Hth, Hb.
  - destruct (get_status w); [|done]. by injection H as <-.
  - simpl in Hl.
    destruct (run_generator_effect _ _ _ _ Hw H)
      as (s0 & t0 & s' & t' & _ & _ & _ & _ & _ & _ & Hth
          & (extra & Hb & Hextra) & _).
    rewrite Hth, Hb, list_lookup_insert_ne, calls_of_app by done.
    by rewrite (calls_of_others tid tid' extra).
  - case_decide; [|done]. by injection H as <-.
Qed.

(** An event that is set stays set. *)
Lemma step_event_set l w w' e :
  consistent w -> step l w = Some w' ->
  events w !! e = Some true -> events w' !! e = Some true.
Proof.
  intros Hw H He.
  assert (Hlt : e < length (events w)) by by eapply lookup_lt_Some.
  destruct l as [n d eps|n d| | |tid' o|dt]; simpl in H.
  - pose proof (start_integration_cases n d eps w) as Hc.
    destruct (start_integration n d eps w) as [[[] w1]|] eqn:E; [| |done];
      injection H as <-.
    + destruct Hc as (info & dsi & _ & _ & _ & ->). simpl.
      by rewrite lookup_app_l.
    + by destruct Hc as [-> _].
  - pose proof (stop_integration_cases n d w) as Hc.
    destruct (stop_integration n d w) as [[[] w1]|] eqn:E; [| |done];
      injection H as <-.
    + destruct Hc as (a0 & s0 & _ & _ & ->).
      destruct (stop_event s0) as [e0|]; [|done]. simpl.
      destruct (decide (e0 = e)) as [->|Hne].
      * by rewrite list_lookup_insert_eq.
      * by rewrite list_lookup_insert_ne.
    + by destruct Hc as [-> _].
  - destruct (stop_all_effect w Hw) as (w1 & Hf & _ & _ & _ & _ & _ & _ & Hev).
    rewrite Hf in H. injection H as <-. apply Hev. by left.
  - destruct (get_status w); [|done]. by injection H as <-.
  - destruct (run_generator_effect _ _ _ _ Hw H)
      as (s0 & t0 & s' & t' & _ & _ & _ & Hev & _). by rewrite Hev.
  - case_decide; [|done]. by injection H as <-.
Qed.

Lemma exec_event_set ls w w' e :
  consistent w -> exec ls w = Some w' ->
  events w !! e = Some true -> events w' !! e = Some true.
Proof.
  revert w. induction ls as [|l ls IH]; intros w Hw H He; simpl in H.
  - by injection H as <-.
  - destruct (step l w) as [w1|] eqn:E; [|done].
    eapply IH; [by eapply step_consistent|done|]. by eapply step_event_set.
Qed.

(** The clock does not go back. *)
Lemma step_clock l w w' :
  consistent w -> step l w = Some w' -> (clock w ≤ clock w')%Qc.
Proof.
  intros Hw H.
  destruct l as [n d eps|n d| | |tid' o|dt]; simpl in H.
  - pose proof (start_integration_cases n d eps w) as Hc.
    destruct (start_integration n d eps w) as [[[] w1]|] eqn:E; [| |done];
      injection H as <-.
    + destruct Hc as (info & dsi & _ & _ & _ & ->). apply Qcle_refl.
    + destruct Hc as [-> _]. apply Qcle_refl.
  - pose proof (stop_integration_cases n d w) as Hc.
    destruct (stop_integration n d w) as [[[] w1]|] eqn:E; [| |done];
      injection H as <-.
    + destruct Hc as (a0 & s0 & _ & _ & ->).
      destruct (stop_event s0); apply Qcle_refl.
    + destruct Hc as [-> _]. apply Qcle_refl.
  - destruct (stop_all_effect w Hw) as (w1 & Hf & _ & _ & _ & Hc & _).
    rewrite Hf in H. injection H as <-. rewrite Hc. apply Qcle_refl.
  - destruct (get_status w); [|done]. injection H as <-. apply Qcle_refl.
  - destruct (run_generator_effect _ _ _ _ Hw H)
      as (s0 & t0 & s' & t' & _ & _ & _ & _ & Hc & _).
    rewrite Hc. apply Qcle_refl.
  - case_decide as Hd; [|done]. injection H as <-. simpl.
    rewrite <- (Qcplus_0_r (clock w)) at 1. by apply Qcplus_le_mono_l.
Qed.

Lemma exec_clock ls w w' :
  consistent w -> exec ls w = Some w' -> (clock w ≤ clock w')%Qc.
Proof.
  revert w. induction ls as [|l ls IH]; intros w Hw H; simpl in H.
  - injection H as <-. apply Qcle_refl.
  - destruct (step l w) as [w1|] eqn:E; [|done].
    eapply Qcle_trans; [by eapply step_clock|].
    apply IH; [by eapply step_consistent|done].
Qed.

(** ** Cancellation during a sleep *)

Lemma asleep_blocked o tid w t wake :
  threads w !! tid = Some t -> asleep_until wake t -> (clock w < wake)%Qc ->
  _run_generator o tid w = None.
Proof.
  intros Ht Hs Hc. unfold _run_generator. rewrite Ht. simpl.
  destruct Hs as [-> | ->]; case_decide as Hd; try done;
    by apply Qcle_not_lt in Hd.
Qed.

Lemma asleep_wakes o tid w t wake :
  threads w !! tid = Some t -> asleep_until wake t -> (wake ≤ clock w)%Qc ->
  _run_generator o tid w = Some (set_thread tid (at_pc PLoop t) w).
Proof.
  intros Ht Hs Hc. unfold _run_generator. rewrite Ht. simpl.
  by destruct Hs as [-> | ->]; case_decide.
Qed.

(** Until its wake time a sleeping thread stays where it is, whatever the
    rest of the process does. *)
Lemma asleep_stays ls w w' tid t wake :
  consistent w -> threads w !! tid = Some t -> asleep_until wake t ->
  exec ls w = Some w' -> (clock w' < wake)%Qc ->
  threads w' !! tid = Some t.
Proof.
  revert w. induction ls as [|l ls IH]; intros w Hw Ht Hs H Hc; simpl in H.
  - by injection H as <-.
  - destruct (step l w) as [w1|] eqn:E; [|done].
    assert (Hw1 : consistent w1) by by eapply step_consistent.
    assert (Hc1 : (clock w1 < wake)%Qc).
    { eapply Qcle_lt_trans; [by eapply exec_clock|done]. }
    assert (Hc0 : (clock w < wake)%Qc).
    { eapply Qcle_lt_trans; [by eapply step_clock|done]. }
    apply (IH w1); try done.
    assert (Hl : not_run_of tid l).
    { destruct l as [| | | |tid' o|]; simpl; try done. intros ->.
      simpl in E. by rewrite (asleep_blocked o tid w t wake) in E. }
    by destruct (step_other_frame l w w1 tid t Hw E Ht Hl).
Qed.

(** ** Draining after a cancellation *)

Lemma drain_progress o tid w t :
  consistent w -> threads w !! tid = Some t -> pc t <> PDone ->
  (forall wake, asleep_until wake t -> (wake ≤ clock w)%Qc) ->
  is_Some (_run_generator o tid w).
Proof.
  intros Hw Ht Hpc Hwake.
  assert (Hlt : tid < length (heap w)).
  { rewrite <- (same_threads _ Hw). by eapply lookup_lt_Some. }
  destruct (lookup_lt_is_Some_2 _ _ Hlt) as [s Hs].
  destruct (lookup_lt_is_Some_2 (events w) tid) as [b Hb];
    [by rewrite (same_events _ Hw)|].
  destruct (cells _ Hw _ _ _ Hs Ht) as [c1 c2 c3 c4 c5 c6 c7 c8].
  unfold _run_generator. rewrite Ht. simpl. rewrite c3, c4, Hs, Hb. simpl.
  destruct (pc t) eqn:E; try done.
  - by destruct (compute_sleep_interval (events_per_second s)).
  - destruct (generate o) as [[event ds]|]; [|done]. by case_decide.
  - rewrite decide_True; [done|]. apply Hwake. by left.
  - rewrite decide_True; [done|]. apply Hwake. by right.
  - by destruct (pending_events t).
Qed.

Lemma drain_rank_decreases o tid w w' t t' :
  consistent w -> threads w !! tid = Some t -> events w !! tid = Some true ->
  _run_generator o tid w = Some w' -> threads w' !! tid = Some t' ->
  drain_rank (pc t') < drain_rank (pc t).
Proof.
  intros Hw Ht He Hrun Ht'.
  assert (Hlt : tid < length (threads w)) by by eapply lookup_lt_Some.
  assert (Hlth : tid < length (heap w)) by by rewrite <- (same_threads _ Hw).
  destruct (lookup_lt_is_Some_2 _ _ Hlth) as [s Hs].
  destruct (cells _ Hw _ _ _ Hs Ht) as [c1 c2 c3 c4 c5 c6 c7 c8].
  unfold _run_generator in Hrun. rewrite Ht in Hrun. simpl in Hrun.
  rewrite c3, c4, Hs, He in Hrun. simpl in Hrun.
  destruct (pc t) eqn:E; try done.
  - destruct (compute_sleep_interval_total (events_per_second s)) as (i & Hi & _).
    rewrite Hi in Hrun. injection Hrun as <-.
    rewrite lookup_set_thread_eq in Ht' by done. injection Ht' as <-. simpl. lia.
  - injection Hrun as <-.
    rewrite lookup_set_thread_eq in Ht' by done. injection Ht' as <-. simpl. lia.
  - destruct (generate o) as [[event ds]|].
    + case_decide; injection Hrun as <-;
        rewrite lookup_set_thread_eq in Ht' by done; injection Ht' as <-.
      * simpl. lia.
      * destruct (rate_sleep_cases
          (with_pending (pending_events t ++ [mkBulkAction ds event]) t)
          (clock w)) as [-> | ->]; simpl; lia.
    + rewrite backoff_spec in Hrun. injection Hrun as <-.
      rewrite lookup_set_thread_eq in Ht' by done. injection Ht' as <-.
      simpl. lia.
  - injection Hrun as <-. unfold set_thread in Ht'. simpl in Ht'.
    rewrite try_bulk_index_threads in Ht'.
    rewrite list_lookup_insert_eq in Ht' by done. injection Ht' as <-.
    destruct (rate_sleep_cases (with_pending [] t) (clock w)) as [-> | ->];
      simpl; lia.
  - case_decide; [|done]. injection Hrun as <-.
    rewrite lookup_set_thread_eq in Ht' by done. injection Ht' as <-. simpl. lia.
  - case_decide; [|done]. injection Hrun as <-.
    rewrite lookup_set_thread_eq in Ht' by done. injection Ht' as <-. simpl. lia.
  - destruct (pending_events t); injection Hrun as <-;
      unfold set_thread in Ht'; simpl in Ht';
      rewrite ?try_bulk_index_threads in Ht';
      rewrite list_lookup_insert_eq in Ht' by done; injection Ht' as <-;
      simpl; lia.
  - injection Hrun as <-. simpl in Ht'.
    rewrite list_lookup_insert_eq in Ht' by done. injection Ht' as <-.
    simpl. lia.
Qed.

(** A thread that has returned stays so and calls the sink no more. *)
Lemma done_stays ls w w' tid t :
  consistent w -> threads w !! tid = Some t -> pc t = PDone ->
  exec ls w = Some w' ->
  threads w' !! tid = Some t
  /\ calls_of tid (bulk_calls w') = calls_of tid (bulk_calls w).
Proof.
  revert w. induction ls as [|l ls IH]; intros w Hw Ht Hpc H; simpl in H.
  - by injection H as <-.
  - destruct (step l w) as [w1|] eqn:E; [|done].
    assert (Hl : not_run_of tid l).
    { destruct l as [| | | |tid' o|]; simpl; try done. intros ->.
      simpl in E. unfold _run_generator in E. rewrite Ht in E. simpl in E.
      by rewrite Hpc in E. }
    destruct (step_other_frame l w w1 tid t Hw E Ht Hl) as [Ht1 Hc1].
    destruct (IH w1) as [Ht' Hc']; try done; [by eapply step_consistent|].
    split; [done|]. congruence.
Qed.

(** C6. Take a thread whose event is set. The event stays set. Unless it
    sleeps the thread can always take a step, and each step brings it
    nearer to its end, so it leaves the loop wherever the cancellation found
    it. At the top of its loop its next step leaves the loop. The step after
    that calls the sink once with the pending events when there are some,
    and not at all when there are none, and the state is still running;
    only the last step sets [running] to false. From then on the thread
    takes no step and makes no sink call, and the state stays not running. *)
Theorem cancelled_task_drains_once w tid t :
  reachable w ->
  threads w !! tid = Some t ->
  events w !! tid = Some true ->
  (forall ls w', exec ls w = Some w' -> events w' !! tid = Some true)
  /\ (pc t <> PDone ->
        (forall wake, asleep_until wake t -> (wake ≤ clock w)%Qc) ->
        forall o, is_Some (_run_generator o tid w))
  /\ (forall o w' t',
        _run_generator o tid w = Some w' -> threads w' !! tid = Some t' ->
        drain_rank (pc t') < drain_rank (pc t))
  /\ (pc t = PLoop ->
        forall o, _run_generator o tid w =
                    Some (set_thread tid (at_pc PDrain t) w))
  /\ (pc t = PDrain ->
        forall o, exists w' s',
          _run_generator o tid w = Some w'
          /\ threads w' !! tid = Some (at_pc PFinish t)
          /\ bulk_calls w' =
               (match pending_events t with
                | [] => []
                | _ :: _ => [(tid, pending_events t)]
                end ++ bulk_calls w)%list
          /\ heap w' !! tid = Some s'
          /\ running s' = true)
  /\ (pc t = PFinish ->
        forall o, exists w' s',
          _run_generator o tid w = Some w'
          /\ threads w' !! tid = Some (at_pc PDone t)
          /\ bulk_calls w' = bulk_calls w
          /\ heap w' !! tid = Some s'
          /\ running s' = false)
  /\ (pc t = PDone ->
        forall ls w', exec ls w = Some w' ->
          threads w' !! tid = Some t
          /\ calls_of tid (bulk_calls w') = calls_of tid (bulk_calls w)
          /\ (forall o, _run_generator o tid w' = None)
          /\ exists s, heap w' !! tid = Some s /\ running s = false).
Proof.
  intros Hr Ht He. pose proof (reachable_consistent _ Hr) as Hw.
  assert (Hlt : tid < length (threads w)) by by eapply lookup_lt_Some.
  assert (Hlth : tid < length (heap w)) by by rewrite <- (same_threads _ Hw).
  destruct (lookup_lt_is_Some_2 _ _ Hlth) as [s Hs].
  destruct (cells _ Hw _ _ _ Hs Ht) as [c1 c2 c3 c4 c5 c6 c7 c8].
  split; [intros ls w' H; by eapply exec_event_set|].
  split; [intros Hpc Hwake o; by apply (drain_progress o tid w t)|].
  split; [intros o w' t' H1 H2; by eapply (drain_rank_decreases o tid w w')|].
  split.
  { intros Hpc o. unfold _run_generator. rewrite Ht. simpl.
    by rewrite Hpc, c4, He. }
  split.
  { intros Hpc o. unfold _run_generator. rewrite Ht. simpl.
    rewrite Hpc, c3, Hs. simpl.
    assert (Hrun : running s = true) by (apply c7; by rewrite Hpc).
    destruct (pending_events t) as [|e l] eqn:Ep.
    - eexists _, s. split; [done|]. simpl.
      by rewrite list_lookup_insert_eq.
    - eexists _, _. split; [done|]. simpl.
      rewrite try_bulk_index_threads, try_bulk_index_bulk_calls, Ep.
      rewrite list_lookup_insert_eq by done.
      split; [done|]. split; [done|].
      pose proof (try_bulk_index_total o tid t s w) as Htot.
      rewrite c3 in Htot. rewrite (Htot Hs).
      split; [done|]. by destruct (bulk_index o). }
  split.
  { intros Hpc o. unfold _run_generator. rewrite Ht. simpl.
    rewrite Hpc, c3, Hs. simpl.
    eexists _, _. split; [done|]. simpl.
    by rewrite !list_lookup_insert_eq. }
  intros Hpc ls w' Hexec.
  assert (Hw' : consistent w') by by eapply exec_consistent.
  destruct (done_stays ls w w' tid t Hw Ht Hpc Hexec) as [Ht' Hcalls].
  split; [done|]. split; [done|]. split.
  { intros o. unfold _run_generator. rewrite Ht'. simpl. by rewrite Hpc. }
  destruct (lookup_lt_is_Some_2 (heap w') tid) as [s' Hs'].
  { rewrite <- (same_threads _ Hw'). by eapply lookup_lt_Some. }
  exists s'. split; [done|].
  pose proof (cell_running _ _ _ (cells _ Hw' _ _ _ Hs' Ht')) as Hcr.
  destruct (running s'); [|done]. by destruct Hcr as [Hcr _]; destruct Hcr.
Qed.

Lemma cancelled_task_drains_once_witness :
  reachable cancelled_state
  /\ events cancelled_state !! 0 = Some true
  /\ exists w',
       _run_generator all_up 0 cancelled_state = Some w'
       /\ (pc <$> threads w' !! 0) = Some PDrain.
Proof.
  assert (H : reachable cancelled_state).
  { exists (stop_during_sleep_run ++ [Tick (Qc_of_Z 50); Run 0 all_up])%list.
    vm_compute. reflexivity. }
  split; [exact H|]. split; [reflexivity|].
  destruct (cancelled_task_drains_once cancelled_state 0 _ H eq_refl eq_refl)
    as (_ & _ & _ & H4 & _).
  eexists. split; [exact (H4 eq_refl all_up)|]. reflexivity.
Defined.

(** * Further properties of the orchestrator and its threads *)

(** ** Steps of a thread, by cases *)

Lemma compute_sleep_interval_nonneg eps i :
  compute_sleep_interval eps = Ok i -> (0 ≤ i)%Qc.
Proof.
  intros H. destruct (compute_sleep_interval_total eps) as (j & Hj & H0 & _).
  congruence.
Qed.

Lemma compute_sleep_interval_positive eps i :
  eps <> PosInf -> compute_sleep_interval eps = Ok i -> (0 < i)%Qc.
Proof.
  intros Hne H.
  destruct (compute_sleep_interval_total eps) as (j & Hj & _ & Hpos).
  assert (i = j) as -> by congruence. by apply Hpos.
Qed.

Lemma cell_interval_nonneg a s t :
  cell_ok a s t -> pc t <> PInit -> (0 ≤ sleep_interval t)%Qc.
Proof.
  intros Hc Hpc. eapply compute_sleep_interval_nonneg.
  by apply (cell_interval _ _ _ Hc).
Qed.

Lemma cell_interval_pos a s t :
  cell_ok a s t -> pc t <> PInit -> events_per_second s <> PosInf ->
  (0 < sleep_interval t)%Qc.
Proof.
  intros Hc Hpc Hne. eapply compute_sleep_interval_positive; [exact Hne|].
  by apply (cell_interval _ _ _ Hc).
Qed.

(** Every step of a thread of a consistent runtime is one of [moves]. *)
Lemma run_generator_moves o tid w w' :
  consistent w ->
  _run_generator o tid w = Some w' ->
  exists s t,
    heap w !! tid = Some s /\ threads w !! tid = Some t
    /\ cell_ok tid s t /\ moves o tid w s t w'.
Proof.
  intros Hw Hrun.
  unfold _run_generator in Hrun.
  destruct (threads w !! tid) as [t|] eqn:Ht; [|done]. simpl in Hrun.
  assert (Hlt : tid < length (heap w)).
  { rewrite <- (same_threads _ Hw). by eapply lookup_lt_Some. }
  destruct (lookup_lt_is_Some_2 _ _ Hlt) as [s Hs].
  pose proof (cells _ Hw _ _ _ Hs Ht) as Hc.
  pose proof (cell_state _ _ _ Hc) as c3.
  pose proof (cell_stop_event_arg _ _ _ Hc) as c4.
  rewrite c3, c4, Hs in Hrun. simpl in Hrun.
  exists s, t. split; [done|]. split; [done|]. split; [done|].
  destruct (pc t) eqn:Hpc; try done.
  - destruct (compute_sleep_interval_total (events_per_second s)) as (i & Hi & _).
    rewrite Hi in Hrun. injection Hrun as <-. by apply moves_init.
  - destruct (events w !! tid) as [b|] eqn:Hb; [|done].
    injection Hrun as <-. by apply moves_loop.
  - assert (Hpos : (0 ≤ sleep_interval t)%Qc).
    { apply (cell_interval_nonneg _ _ _ Hc). by rewrite Hpc. }
    destruct (generate o) as [[event ds]|e] eqn:Hg.
    + case_decide as Hfull; injection Hrun as <-.
      * by eapply moves_generate_full.
      * destruct (rate_sleep_slept
          (with_pending (pending_events t ++ [mkBulkAction ds event]) t)
          (clock w) Hpos) as (p & -> & Hp).
        apply (moves_generate_sleep o tid w s t event ds p); try done. lia.
    + rewrite backoff_spec in Hrun. injection Hrun as <-.
      by eapply moves_generate_raise.
  - assert (Hpos : (0 ≤ sleep_interval t)%Qc).
    { apply (cell_interval_nonneg _ _ _ Hc). by rewrite Hpc. }
    injection Hrun as <-.
    destruct (rate_sleep_slept (with_pending [] t) (clock w) Hpos)
      as (p & -> & Hp).
    by apply (moves_flush o tid w s t p).
  - case_decide; [|done]. injection Hrun as <-.
    eapply moves_wake; [by left|done].
  - case_decide; [|done]. injection Hrun as <-.
    eapply moves_wake; [by right|done].
  - destruct (pending_events t) as [|e l] eqn:Ep; injection Hrun as <-.
    + by apply moves_drain_nothing.
    + apply moves_drain; [done|]. by rewrite Ep.
  - injection Hrun as <-. by apply moves_finish.
Qed.

(** ** Steps of the process, by cases *)

Lemma step_changes l w w' :
  consistent w -> step l w = Some w' -> changes w l w'.
Proof.
  intros Hw H.
  destruct l as [n d eps|n d| | |tid o|dt]; simpl in H.
  - pose proof (start_integration_cases n d eps w) as Hc.
    destruct (start_integration n d eps w) as [[[] w1]|] eqn:E; [| |done];
      injection H as <-.
    + destruct Hc as (info & dsi & Hn & Hd & Hnr & ->).
      apply changes_start; [|done]. exists info. split; [done|]. by exists dsi.
    + destruct Hc as [-> _]. by apply changes_nothing.
  - pose proof (stop_integration_cases n d w) as Hc.
    destruct (stop_integration n d w) as [[[] w1]|] eqn:E; [| |done];
      injection H as <-.
    + destruct Hc as (a & s & Hk & Hs & ->).
      destruct (lookup_lt_is_Some_2 (threads w) a) as [t Ht].
      { rewrite (same_threads _ Hw). by eapply lookup_lt_Some. }
      rewrite (cell_stop_event _ _ _ (cells _ Hw _ _ _ Hs Ht)).
      by apply changes_stop.
    + destruct Hc as [-> _]. by apply changes_nothing.
  - destruct (stop_all_effect w Hw) as (w1 & Hf & H1 & H2 & H3 & H4 & H5 & H6 & H7).
    rewrite Hf in H. injection H as <-. by apply changes_stop_all.
  - destruct (get_status w); [|done]. injection H as <-. by apply changes_nothing.
  - destruct (run_generator_moves o tid w w' Hw H) as (s & t & Hs & Ht & Hc & Hm).
    by eapply changes_run.
  - case_decide; [|done]. injection H as <-. by apply changes_tick.
Qed.

(** Induction over the reachable runtimes. *)
Lemma reachable_invariant (P : Runtime -> Prop) :
  P initial ->
  (forall w l w', reachable w -> consistent w -> P w -> changes w l w' -> P w') ->
  forall w, reachable w -> P w.
Proof.
  intros H0 Hstep w [ls Hls].
  assert (Hgen : forall ls w0 w1, reachable w0 -> P w0 ->
                   exec ls w0 = Some w1 -> P w1).
  { clear ls Hls. induction ls as [|l ls IH]; intros w0 w1 Hr HP H; simpl in H.
    - by injection H as <-.
    - destruct (step l w0) as [w2|] eqn:E; [|done].
      pose proof (reachable_consistent _ Hr) as Hw0.
      apply (IH w2 w1); [|by eapply Hstep; [| | |by apply step_changes]|done].
      apply (reachable_exec [l] w0); [done|]. simpl. by rewrite E. }
  apply (Hgen ls initial w); [by exists []|done|done].
Qed.

(** ** What a step of a thread leaves alone *)

Lemma moves_frame o tid w s t w' :
  threads w !! tid = Some t ->
  cell_ok tid s t ->
  moves o tid w s t w' ->
  integrations w' = integrations w
  /\ events w' = events w
  /\ clock w' = clock w
  /\ (forall a, a <> tid -> heap w' !! a = heap w !! a)
  /\ (forall a, a <> tid -> threads w' !! a = threads w !! a)
  /\ exists t', threads w' !! tid = Some t' /\ state t' = state t.
Proof.
  intros Ht Hc Hm.
  assert (Hlt : tid < length (threads w)) by by eapply lookup_lt_Some.
  pose proof (cell_state _ _ _ Hc) as c3.
  destruct Hm; unfold try_bulk_index; try destruct (bulk_index o); simpl;
    rewrite ?c3;
    (split; [done|]; split; [done|]; split; [done|]; split;
     [intros a0 Ha0; by rewrite ?list_lookup_insert_ne by done|]; split;
     [intros a0 Ha0; by rewrite ?list_lookup_insert_ne by done|];
     eexists; rewrite list_lookup_insert_eq by done; by split).
Qed.

(** ** Batches are bounded *)

Lemma batches_bounded_step w l w' :
  consistent w -> batches_bounded w -> changes w l w' -> batches_bounded w'.
Proof.
  intros Hw [Hb Hcalls] Hch.
  destruct Hch as [l _|n d eps g Hcat Hnr|n d a s Hk Hs|w' H1 H2 H3 H4 H5 H6 H7
                  |tid o s t w' Hs Ht Hc Hm|d Hd]; try done.
  - split; [|done]. intros tid t. simpl. intros H.
    destruct (decide (tid < length (threads w))) as [Hlt|Hge].
    + rewrite lookup_app_l in H by done. by eapply Hb.
    + apply lookup_lt_Some in H as Hlen. rewrite length_app in Hlen. simpl in Hlen.
      assert (tid = length (threads w)) as -> by lia.
      rewrite lookup_app_r, Nat.sub_diag in H by done. injection H as <-.
      unfold batch_ok, batch_size. simpl. lia.
  - split; [intros tid t; rewrite H3; apply Hb|].
    intros tid batch. rewrite H5. apply Hcalls.
  - assert (Hlt : tid < length (threads w)) by by eapply lookup_lt_Some.
    pose proof (Hb _ _ Ht) as Hbt. unfold batch_ok in Hbt.
    pose proof (cell_state _ _ _ Hc) as c3.
    assert (Hother : forall tid0 t0 ts,
              <[tid := ts]> (threads w) !! tid0 = Some t0 ->
              batch_ok ts -> batch_ok t0).
    { intros tid0 t0 ts H Hts.
      apply lookup_insert_cases in H as [(_ & <- & _)|(_ & H)]; [done|].
      by eapply Hb. }
    destruct Hm as [i Hpc Hi|b Hpc Hev|event ds Hpc Hg Hfull
                   |event ds p Hpc Hg Hlt' Hp|e Hpc Hg|p Hpc Hp|wake Hsl Hwk
                   |Hpc Hp|Hpc Hp|Hpc];
      rewrite ?Hpc in Hbt.
    + split; [|done]. intros tid0 t0 H. eapply Hother; [exact H|].
      unfold batch_ok, batch_size. simpl. lia.
    + split; [|done]. intros tid0 t0 H. eapply Hother; [exact H|].
      unfold batch_ok. simpl. by destruct b.
    + split; [|done]. intros tid0 t0 H. eapply Hother; [exact H|].
      unfold batch_ok. simpl. rewrite length_app in *. simpl in *.
      unfold batch_size in *. lia.
    + split; [|done]. intros tid0 t0 H. eapply Hother; [exact H|].
      unfold batch_ok. by destruct Hp as [[_ ->]|[_ ->]]; simpl.
    + split; [|done]. intros tid0 t0 H. eapply Hother; [exact H|].
      unfold batch_ok. by simpl.
    + split.
      * intros tid0 t0 H. simpl in H. rewrite try_bulk_index_threads in H.
        eapply Hother; [exact H|]. unfold batch_ok, batch_size.
        destruct Hp as [[_ ->]|[_ ->]]; simpl; lia.
      * intros tid0 batch. simpl. rewrite try_bulk_index_bulk_calls.
        intros [[= -> ->]|H]%elem_of_cons; [|by eapply Hcalls].
        rewrite Hbt. unfold batch_size. lia.
    + split; [|done]. intros tid0 t0 H. eapply Hother; [exact H|].
      unfold batch_ok. simpl. by destruct Hsl as [E|E]; rewrite E in Hbt.
    + split; [|done]. intros tid0 t0 H. eapply Hother; [exact H|].
      unfold batch_ok. by simpl.
    + split.
      * intros tid0 t0 H. simpl in H. rewrite try_bulk_index_threads in H.
        eapply Hother; [exact H|]. unfold batch_ok. by simpl.
      * intros tid0 batch. simpl. rewrite try_bulk_index_bulk_calls.
        intros [[= -> ->]|H]%elem_of_cons; [|by eapply Hcalls].
        split; [|lia]. destruct (pending_events t); [done|simpl; lia].
    + split; [|done]. intros tid0 t0 H. eapply Hother; [exact H|].
      unfold batch_ok. by simpl.
Qed.

Lemma reachable_batches_bounded w : reachable w -> batches_bounded w.
Proof.
  apply reachable_invariant.
  - split; [intros tid t H; simpl in H; by destruct tid|].
    intros tid batch H. by apply elem_of_nil in H.
  - intros w0 l w1 _ Hw HP Hch. by eapply batches_bounded_step.
Qed.

(** Induction over the runs from a consistent runtime. *)
Lemma exec_invariant (P : Runtime -> Prop) :
  (forall w l w', consistent w -> P w -> changes w l w' -> P w') ->
  forall ls w w', consistent w -> P w -> exec ls w = Some w' -> P w'.
Proof.
  intros Hstep. induction ls as [|l ls IH]; intros w w' Hw HP H; simpl in H.
  - by injection H as <-.
  - destruct (step l w) as [w1|] eqn:E; [|done].
    apply (IH w1 w'); [by eapply step_consistent| |done].
    eapply Hstep; [done|done|by apply step_changes].
Qed.

(** X1. Every call the sink receives carries at least one action and at
    most [batch_size] = 10. The pending events of a thread never exceed the
    batch size: there are exactly 10 when the thread stands before the flush
    of its loop, and fewer than 10 at every other point. *)
Theorem sink_batches_are_bounded w :
  reachable w ->
  (forall tid batch, (tid, batch) ∈ bulk_calls w ->
     1 <= length batch <= 10)
  /\ (forall tid t, threads w !! tid = Some t ->
        (pc t = PFlush -> length (pending_events t) = 10)
        /\ (pc t <> PFlush -> length (pending_events t) < 10)).
Proof.
  intros Hr. destruct (reachable_batches_bounded w Hr) as [Hb Hcalls].
  split; [exact Hcalls|].
  intros tid t Ht. specialize (Hb tid t Ht). unfold batch_ok, batch_size in Hb.
  split; intros Hpc.
  - by rewrite Hpc in Hb.
  - by destruct (pc t).
Qed.

Lemma sink_batches_are_bounded_witness :
  reachable stopped_state
  /\ bulk_calls stopped_state <> []
  /\ forall tid batch, (tid, batch) ∈ bulk_calls stopped_state ->
       1 <= length batch <= 10.
Proof.
  assert (H : reachable stopped_state).
  { exists stopped_run. vm_compute. reflexivity. }
  split; [exact H|]. split; [discriminate|].
  exact (proj1 (sink_batches_are_bounded stopped_state H)).
Defined.

(** ** The counter and the sink calls *)

Lemma calls_of_cons tid tid' batch calls :
  calls_of tid ((tid', batch) :: calls) =
    if decide (tid' = tid) then batch :: calls_of tid calls
    else calls_of tid calls.
Proof.
  unfold calls_of. destruct (decide (tid' = tid)) as [->|Hne].
  - by rewrite filter_cons_True.
  - by rewrite filter_cons_False.
Qed.

Lemma counter_bounded_step w l w' :
  consistent w ->
  (forall a s, heap w !! a = Some s -> total_events s <= offered a w) ->
  changes w l w' ->
  forall a s, heap w' !! a = Some s -> total_events s <= offered a w'.
Proof.
  intros Hw HP Hch.
  destruct Hch as [l _|n d eps g Hcat Hnr|n d a0 s0 Hk Hs0|w' H1 H2 H3 H4 H5 H6 H7
                  |tid o s0 t w' Hs0 Ht Hc Hm|d Hd]; try done.
  - intros a s. simpl. intros H.
    destruct (decide (a < length (heap w))) as [Hlt|Hge].
    + rewrite lookup_app_l in H by done. by apply HP.
    + apply lookup_lt_Some in H as Hlen. rewrite length_app in Hlen. simpl in Hlen.
      assert (a = length (heap w)) as -> by lia.
      rewrite lookup_app_r, Nat.sub_diag in H by done. injection H as <-.
      simpl. lia.
  - intros a s. simpl. intros H.
    apply lookup_insert_cases in H as [(-> & <- & _)|(_ & H)]; [|by apply HP].
    simpl. by apply (HP a s0).
  - intros a s. unfold offered. rewrite H2, H5. apply HP.
  - assert (Hlt : tid < length (heap w)) by by eapply lookup_lt_Some.
    pose proof (cell_state _ _ _ Hc) as c3.
    pose proof (HP _ _ Hs0) as Hold.
    assert (Hflush : forall a s,
              heap (try_bulk_index o tid t s0 w) !! a = Some s ->
              total_events s <=
                sum_list (length <$> calls_of a
                            (bulk_calls (try_bulk_index o tid t s0 w)))).
    { intros a s H. rewrite try_bulk_index_bulk_calls, calls_of_cons.
      unfold try_bulk_index in H. rewrite c3 in H.
      destruct (decide (tid = a)) as [<-|Hne].
      - unfold offered in Hold. rewrite fmap_cons. simpl sum_list.
        set (n := sum_list (length <$> calls_of tid (bulk_calls w))) in *.
        destruct (bulk_index o); simpl in H.
        + rewrite list_lookup_insert_eq in H by done. injection H as <-.
          simpl. lia.
        + assert (s = s0) as -> by congruence. lia.
      - destruct (bulk_index o); simpl in H;
          rewrite ?list_lookup_insert_ne in H by done; by apply HP. }
    destruct Hm; intros a s; unfold offered; simpl; try apply HP; try apply Hflush.
    intros Hlook.
    apply lookup_insert_cases in Hlook as [(<- & <- & _)|(_ & Hlook)];
      [|by apply HP].
    simpl. by apply (HP tid s0).
Qed.

Lemma reachable_counter_bounded w a s :
  reachable w -> heap w !! a = Some s -> total_events s <= offered a w.
Proof.
  intros Hr. revert a s. revert w Hr.
  apply (reachable_invariant
           (fun w => forall a s, heap w !! a = Some s ->
                                 total_events s <= offered a w)).
  - intros a s H. simpl in H. by destruct a.
  - intros w0 l w1 _ Hw HP Hch. by eapply counter_bounded_step.
Qed.

(** X2. The counter of a state never exceeds the number of events its
    thread has handed to the sink, and along every run it never goes down. *)
Theorem counter_bounded_by_offered w a s :
  reachable w ->
  heap w !! a = Some s ->
  total_events s <= offered a w
  /\ forall ls w', exec ls w = Some w' ->
       exists s', heap w' !! a = Some s'
                  /\ total_events s <= total_events s'
                  /\ total_events s' <= offered a w'.
Proof.
  intros Hr Hs. split; [by apply reachable_counter_bounded|].
  intros ls w' Hexec.
  destruct (exec_state_static ls w w' a s (reachable_consistent _ Hr) Hexec Hs)
    as (s' & Hs' & _ & _ & _ & Htot & _).
  exists s'. split; [done|]. split; [done|].
  apply reachable_counter_bounded; [|done]. by eapply reachable_exec.
Qed.

Lemma counter_bounded_by_offered_witness :
  reachable stopped_state
  /\ (total_events <$> heap stopped_state !! 0) = Some 1
  /\ offered 0 stopped_state = 1.
Proof.
  assert (H : reachable stopped_state).
  { exists stopped_run. vm_compute. reflexivity. }
  split; [exact H|]. split; [reflexivity|].
  destruct (counter_bounded_by_offered stopped_state 0 _ H eq_refl) as [H1 _].
  assert (H2 : offered 0 stopped_state <= 1) by (vm_compute; lia).
  simpl in H1. lia.
Defined.

(** ** A task stops on request only *)

Lemma left_loop_step w l w' :
  consistent w ->
  (forall tid t, threads w !! tid = Some t -> left_loop t ->
     events w !! tid = Some true) ->
  changes w l w' ->
  forall tid t, threads w' !! tid = Some t -> left_loop t ->
    events w' !! tid = Some true.
Proof.
  intros Hw HP Hch.
  destruct Hch as [l _|n d eps g Hcat Hnr|n d a0 s0 Hk Hs0|w' H1 H2 H3 H4 H5 H6 H7
                  |tid0 o s0 t0 w' Hs0 Ht0 Hc Hm|d Hd]; try done.
  - intros tid t. simpl. intros H Hl.
    destruct (decide (tid < length (threads w))) as [Hlt|Hge].
    + rewrite lookup_app_l in H by done.
      rewrite lookup_app_l; [by eapply HP|].
      rewrite (same_events _ Hw), <- (same_threads _ Hw). done.
    + apply lookup_lt_Some in H as Hlen. rewrite length_app in Hlen. simpl in Hlen.
      assert (tid = length (threads w)) as -> by lia.
      rewrite lookup_app_r, Nat.sub_diag in H by done. injection H as <-.
      by destruct Hl as [Hl|[Hl|Hl]].
  - intros tid t. simpl. intros H Hl.
    pose proof (HP _ _ H Hl) as He.
    destruct (decide (a0 = tid)) as [->|Hne].
    + apply list_lookup_insert_eq. by eapply lookup_lt_Some.
    + by rewrite list_lookup_insert_ne.
  - intros tid t. rewrite H3. intros H Hl. apply H7. left. by eapply HP.
  - assert (Hlt : tid0 < length (threads w)) by by eapply lookup_lt_Some.
    destruct (moves_frame o tid0 w s0 t0 w' Ht0 Hc Hm)
      as (_ & He & _ & _ & Hth & _).
    intros tid t H Hl. rewrite He.
    destruct (decide (tid = tid0)) as [->|Hne];
      [|rewrite Hth in H by done; by eapply HP].
    assert (Hkeep : left_loop t0 -> events w !! tid0 = Some true)
      by (intros; by eapply HP).
    destruct Hm as [i Hpc Hi|b Hpc Hev|event ds Hpc Hg Hfull
                   |event ds p Hpc Hg Hlt' [[_ ->]|[_ ->]]|e Hpc Hg
                   |p Hpc [[_ ->]|[_ ->]]|wake Hsl Hwk|Hpc Hp|Hpc Hp|Hpc];
      simpl in H; rewrite ?try_bulk_index_threads in H;
      rewrite list_lookup_insert_eq in H by done; injection H as <-;
      try (by destruct Hl as [Hl|[Hl|Hl]]);
      try (apply Hkeep; unfold left_loop; rewrite Hpc; tauto).
    destruct b; [done|]. by destruct Hl as [Hl|[Hl|Hl]].
Qed.

Lemma reachable_left_loop w tid t :
  reachable w -> threads w !! tid = Some t -> left_loop t ->
  events w !! tid = Some true.
Proof.
  intros Hr. revert tid t. revert w Hr.
  apply (reachable_invariant
           (fun w => forall tid t, threads w !! tid = Some t -> left_loop t ->
                                   events w !! tid = Some true)).
  - intros tid t H. simpl in H. by destruct tid.
  - intros w0 l w1 _ Hw HP Hch. by eapply left_loop_step.
Qed.

(** X3. A task stops on request only: when a thread has left its loop, and
    whenever a state is no longer running, the stop event of that task is
    set. A thread whose event is not set is still inside its loop. *)
Theorem task_stops_on_request_only w a :
  reachable w ->
  (forall t, threads w !! a = Some t -> left_loop t ->
     events w !! a = Some true)
  /\ (forall s, heap w !! a = Some s -> running s = false ->
        events w !! a = Some true)
  /\ (forall s t, heap w !! a = Some s -> threads w !! a = Some t ->
        events w !! a = Some false ->
        running s = true /\ ~ left_loop t).
Proof.
  intros Hr. pose proof (reachable_consistent _ Hr) as Hw.
  assert (H1 : forall t, threads w !! a = Some t -> left_loop t ->
                         events w !! a = Some true).
  { intros t. by apply reachable_left_loop. }
  assert (H2 : forall s, heap w !! a = Some s -> running s = false ->
                         events w !! a = Some true).
  { intros s Hs Hrun.
    destruct (lookup_lt_is_Some_2 (threads w) a) as [t Ht].
    { rewrite (same_threads _ Hw). by eapply lookup_lt_Some. }
    apply (H1 t Ht). right. right.
    pose proof (cell_running _ _ _ (cells _ Hw _ _ _ Hs Ht)) as Hcr.
    destruct (pc t) eqn:E; try done;
      (assert (running s = true) by (apply Hcr; discriminate)); congruence. }
  split; [done|]. split; [done|].
  intros s t Hs Ht He. split.
  - destruct (running s) eqn:E; [done|]. specialize (H2 s Hs E). congruence.
  - intros Hl. specialize (H1 t Ht Hl). congruence.
Qed.

Lemma task_stops_on_request_only_witness :
  reachable stopped_state
  /\ (running <$> heap stopped_state !! 0) = Some false
  /\ events stopped_state !! 0 = Some true.
Proof.
  assert (H : reachable stopped_state).
  { exists stopped_run. vm_compute. reflexivity. }
  split; [exact H|]. split; [reflexivity|].
  destruct (task_stops_on_request_only stopped_state 0 H) as (_ & H2 & _).
  exact (H2 _ eq_refl eq_refl).
Defined.

(** ** A stopped task is frozen *)

Lemma moves_not_done o tid w s t w' : moves o tid w s t w' -> pc t <> PDone.
Proof.
  intros Hm Hpc.
  destruct Hm as [i H|b H|? ? H|? ? ? H|? H|? H|wake [H|H]|H|H|H]; congruence.
Qed.

(** X4. Once a state is not running it is frozen: through every run its
    counter, its rate and its [running = False] stay as they are and its
    thread makes no further sink call. *)
Theorem stopped_task_is_frozen w a s :
  reachable w ->
  heap w !! a = Some s ->
  running s = false ->
  forall ls w', exec ls w = Some w' ->
    calls_of a (bulk_calls w') = calls_of a (bulk_calls w)
    /\ exists s',
         heap w' !! a = Some s'
         /\ total_events s' = total_events s
         /\ running s' = false
         /\ events_per_second s' = events_per_second s
         /\ name s' = name s /\ dataset s' = dataset s.
Proof.
  intros Hr Hs Hrun ls w' Hexec.
  pose proof (reachable_consistent _ Hr) as Hw.
  destruct (lookup_lt_is_Some_2 (threads w) a) as [t Ht].
  { rewrite (same_threads _ Hw). by eapply lookup_lt_Some. }
  assert (Hpc : pc t = PDone).
  { pose proof (cell_running _ _ _ (cells _ Hw _ _ _ Hs Ht)) as Hcr.
    destruct (pc t) eqn:E; try done;
      (assert (running s = true) by (apply Hcr; discriminate)); congruence. }
  destruct (done_stays ls w w' a t Hw Ht Hpc Hexec) as [Ht' Hcalls].
  split; [done|].
  assert (Hw' : consistent w') by by eapply exec_consistent.
  destruct (exec_state_static ls w w' a s Hw Hexec Hs)
    as (s' & Hs' & Hn & Hd & He & Htot & Hrun').
  exists s'. split; [done|].
  assert (Hfalse : running s' = false).
  { destruct (running s') eqn:E; [|done]. specialize (Hrun' eq_refl). congruence. }
  repeat split; try done.
  assert (Hgen : forall w1, (exists s1, heap w1 !! a = Some s1
                               /\ total_events s1 = total_events s)
                            /\ threads w1 !! a = Some t ->
                 forall l w2, consistent w1 -> changes w1 l w2 ->
                 (exists s2, heap w2 !! a = Some s2
                             /\ total_events s2 = total_events s)
                 /\ threads w2 !! a = Some t).
  { intros w1 [(s1 & Hs1 & Ht1) Hth1] l w2 Hw1 Hch.
    assert (Hlt : a < length (threads w1)) by by eapply lookup_lt_Some.
    destruct Hch as [l _|n d eps g Hcat Hnr|n d a0 s0 Hk Hs0
                    |w2 H1 H2 H3 H4 H5 H6 H7
                    |tid0 o s0 t0 w2 Hs0 Ht0 Hc Hm|d0 Hd0]; simpl.
    - split; [by exists s1|done].
    - rewrite !lookup_app_l; [|done|by eapply lookup_lt_Some].
      split; [by exists s1|done].
    - split; [|done].
      destruct (decide (a0 = a)) as [->|Hne].
      + exists (set_enabled false s0).
        rewrite list_lookup_insert_eq by by eapply lookup_lt_Some.
        split; [done|]. simpl. congruence.
      + exists s1. by rewrite list_lookup_insert_ne.
    - rewrite H2, H3. split; [by exists s1|done].
    - destruct (decide (tid0 = a)) as [->|Hne].
      + assert (t0 = t) as -> by congruence.
        by destruct (moves_not_done _ _ _ _ _ _ Hm).
      + destruct (moves_frame o tid0 w1 s0 t0 w2 Ht0 Hc Hm)
          as (_ & _ & _ & Hh & Hth & _).
        rewrite Hh, Hth by done. split; [by exists s1|done].
    - split; [by exists s1|done]. }
  destruct (exec_invariant
              (fun w1 => (exists s1, heap w1 !! a = Some s1
                            /\ total_events s1 = total_events s)
                         /\ threads w1 !! a = Some t)) with (ls := ls) (w := w)
              (w' := w') as [(s2 & Hs2 & Htot2) _]; try done.
  - intros w1 l w2 Hw1 HP Hch. by eapply Hgen.
  - split; [by exists s|done].
  - congruence.
Qed.

Lemma stopped_task_is_frozen_witness :
  reachable stopped_state
  /\ exists s',
       heap (spawn "nginx" "access" 1%Qc NginxAccessGenerator stopped_state) !! 0
         = Some s'
       /\ total_events s' = 1.
Proof.
  assert (H : reachable stopped_state).
  { exists stopped_run. vm_compute. reflexivity. }
  split; [exact H|].
  destruct (stopped_task_is_frozen stopped_state 0 _ H eq_refl eq_refl
              [CallStart "nginx" "access" 1%Qc]
              (spawn "nginx" "access" 1%Qc NginxAccessGenerator stopped_state))
    as (_ & s' & Hs' & Htot & _); [vm_compute; reflexivity|].
  exists s'. split; [exact Hs'|exact Htot].
Defined.

(** ** Threads do not disturb each other *)

(** X5. A step of one thread, whatever its generator and the sink answer,
    changes neither the registry, nor an event, nor the clock, nor the state,
    the thread or the sink calls of any other task. *)
Theorem thread_steps_are_isolated w tid o w' :
  reachable w ->
  _run_generator o tid w = Some w' ->
  integrations w' = integrations w
  /\ events w' = events w
  /\ clock w' = clock w
  /\ forall a, a <> tid ->
       heap w' !! a = heap w !! a
       /\ threads w' !! a = threads w !! a
       /\ calls_of a (bulk_calls w') = calls_of a (bulk_calls w).
Proof.
  intros Hr Hrun. pose proof (reachable_consistent _ Hr) as Hw.
  destruct (run_generator_moves o tid w w' Hw Hrun) as (s & t & Hs & Ht & Hc & Hm).
  destruct (moves_frame o tid w s t w' Ht Hc Hm) as (Hi & He & Hcl & Hh & Hth & _).
  destruct (run_generator_effect _ _ _ _ Hw Hrun)
    as (_ & _ & _ & _ & _ & _ & _ & _ & _ & _ & _ & (extra & Hb & Hextra) & _).
  repeat split; try done; try (by apply Hh); try (by apply Hth).
  rewrite Hb, calls_of_app, (calls_of_others a tid extra); done.
Qed.

Lemma thread_steps_are_isolated_witness :
  reachable full_batch_state
  /\ exists w',
       _run_generator sink_down 0 full_batch_state = Some w'
       /\ integrations w' = integrations full_batch_state
       /\ events w' = events full_batch_state.
Proof.
  assert (H : reachable full_batch_state).
  { exists full_batch_run. vm_compute. reflexivity. }
  split; [exact H|].
  assert (E : exists w', _run_generator sink_down 0 full_batch_state = Some w').
  { eexists. vm_compute. reflexivity. }
  destruct E as [w' E]. exists w'. split; [exact E|].
  destruct (thread_steps_are_isolated full_batch_state 0 sink_down w' H E)
    as (H1 & H2 & _).
  split; [exact H1|exact H2].
Defined.

(** ** Stopping *)

Lemma runtime_eq w1 w2 :
  integrations w1 = integrations w2 -> heap w1 = heap w2 ->
  events w1 = events w2 -> threads w1 = threads w2 ->
  clock w1 = clock w2 -> bulk_calls w1 = bulk_calls w2 -> w1 = w2.
Proof. destruct w1, w2. simpl. by intros -> -> -> -> -> ->. Qed.

Lemma stop_integration_registered w n d a s :
  consistent w ->
  integrations w !! key_of n d = Some a ->
  heap w !! a = Some s ->
  stop_integration n d w =
    Ok (true, with_heap (<[a := set_enabled false s]> (heap w)) (event_set a w)).
Proof.
  intros Hw Hk Hs.
  destruct (lookup_lt_is_Some_2 (threads w) a) as [t Ht].
  { rewrite (same_threads _ Hw). by eapply lookup_lt_Some. }
  unfold stop_integration, contains, getitem, deref. rewrite Hk. simpl.
  rewrite Hs. simpl.
  by rewrite (cell_stop_event _ _ _ (cells _ Hw _ _ _ Hs Ht)).
Qed.

(** X6. A stop of a registered key always returns true, whether its task
    still runs or ended long ago. It sets the stop event and clears
    [enabled] at once, and touches nothing else: [running], the counter, the
    registry and the threads are as before. A second stop returns true
    again and changes nothing. *)
Theorem stop_is_idempotent w n d a s :
  reachable w ->
  integrations w !! key_of n d = Some a ->
  heap w !! a = Some s ->
  exists w1 s1,
    stop_integration n d w = Ok (true, w1)
    /\ stop_integration n d w1 = Ok (true, w1)
    /\ events w1 !! a = Some true
    /\ heap w1 !! a = Some s1
    /\ enabled s1 = false
    /\ running s1 = running s
    /\ total_events s1 = total_events s
    /\ integrations w1 = integrations w
    /\ threads w1 = threads w
    /\ bulk_calls w1 = bulk_calls w
    /\ forall b, b <> a ->
         heap w1 !! b = heap w !! b /\ events w1 !! b = events w !! b.
Proof.
  intros Hr Hk Hs. pose proof (reachable_consistent _ Hr) as Hw.
  assert (Hlt : a < length (heap w)) by by eapply lookup_lt_Some.
  assert (Hlte : a < length (events w)) by by rewrite (same_events _ Hw).
  pose proof (stop_integration_registered w n d a s Hw Hk Hs) as Hstop.
  set (w1 := with_heap (<[a := set_enabled false s]> (heap w)) (event_set a w)) in *.
  assert (Hw1 : consistent w1) by by eapply stop_integration_consistent.
  assert (Hs1 : heap w1 !! a = Some (set_enabled false s)).
  { subst w1. simpl. by apply list_lookup_insert_eq. }
  exists w1, (set_enabled false s).
  split; [done|]. split.
  { rewrite (stop_integration_registered w1 n d a (set_enabled false s) Hw1);
      try done.
    f_equal. f_equal. apply runtime_eq; subst w1; simpl; try done.
    - by rewrite list_insert_insert_eq.
    - by rewrite list_insert_insert_eq. }
  split; [subst w1; simpl; by apply list_lookup_insert_eq|].
  split; [done|].
  repeat split; try done.
  - subst w1. simpl. by rewrite list_lookup_insert_ne.
  - subst w1. simpl. by rewrite list_lookup_insert_ne.
Qed.

Lemma stop_is_idempotent_witness :
  reachable stopped_state
  /\ (running <$> heap stopped_state !! 0) = Some false
  /\ exists w1,
       stop_integration "nginx" "access" stopped_state = Ok (true, w1)
       /\ stop_integration "nginx" "access" w1 = Ok (true, w1).
Proof.
  assert (H : reachable stopped_state).
  { exists stopped_run. vm_compute. reflexivity. }
  split; [exact H|]. split; [reflexivity|].
  destruct (stop_is_idempotent stopped_state "nginx" "access" 0 _ H
              eq_refl eq_refl) as (w1 & s1 & H1 & H2 & _).
  exists w1. split; [exact H1|exact H2].
Defined.

(** X7. Between the stop of a running task and the end of its drain the key
    cannot be started again: right after the stop every start of the key
    returns false and changes nothing, and the status shows the task with
    [enabled = False] and still [running = True]. *)
Theorem restart_refused_while_draining w n d :
  reachable w ->
  registered_running w (key_of n d) ->
  exists w1 (m : gmap string StatusEntry) e,
    stop_integration n d w = Ok (true, w1)
    /\ (forall eps, start_integration n d eps w1 = Ok (false, w1))
    /\ get_status w1 = Ok m
    /\ m !! key_of n d = Some e
    /\ status_enabled e = false
    /\ status_running e = true.
Proof.
  intros Hr (a & s & Hk & Hs & Hrun). pose proof (reachable_consistent _ Hr) as Hw.
  assert (Hlt : a < length (heap w)) by by eapply lookup_lt_Some.
  pose proof (stop_integration_registered w n d a s Hw Hk Hs) as Hstop.
  set (w1 := with_heap (<[a := set_enabled false s]> (heap w)) (event_set a w)) in *.
  assert (Hw1 : consistent w1) by by eapply stop_integration_consistent.
  assert (Hs1 : heap w1 !! a = Some (set_enabled false s)).
  { subst w1. simpl. by apply list_lookup_insert_eq. }
  destruct (get_status_spec w1 Hw1) as (m & Hm & Hlook).
  exists w1, m, (status_of (set_enabled false s)).
  split; [done|]. split.
  { intros eps. apply start_integration_running.
    exists a, (set_enabled false s). by repeat split. }
  split; [done|]. split; [|done].
  rewrite Hlook. subst w1. simpl. rewrite Hk. simpl.
  by rewrite list_lookup_insert_eq.
Qed.

Lemma restart_refused_while_draining_witness :
  reachable started_state
  /\ exists w1,
       stop_integration "nginx" "access" started_state = Ok (true, w1)
       /\ start_integration "nginx" "access" (Qc_of_Z 5) w1 = Ok (false, w1).
Proof.
  assert (H : reachable started_state).
  { exists (started_run (Qc_of_Z 5)). vm_compute. reflexivity. }
  split; [exact H|].
  destruct (restart_refused_while_draining started_state "nginx" "access" H)
    as (w1 & m & e & H1 & H2 & _).
  { eexists 0, _. split; [vm_compute; reflexivity|]. split; reflexivity. }
  exists w1. split; [exact H1|exact (H2 (Qc_of_Z 5))].
Defined.

(** X8. [stop_all] never raises in a reachable runtime. It sets the stop
    event of every registered task and keeps the events that were set; the
    registry, the states (their [enabled] flag too), the threads and the sink
    calls are untouched. Called again, it changes nothing. *)
Theorem stop_all_signals_every_task w :
  reachable w ->
  exists w',
    stop_all w = Ok w'
    /\ integrations w' = integrations w
    /\ heap w' = heap w
    /\ threads w' = threads w
    /\ bulk_calls w' = bulk_calls w
    /\ (forall key a, integrations w !! key = Some a ->
          events w' !! a = Some true)
    /\ (forall e, events w !! e = Some true -> events w' !! e = Some true)
    /\ (forall e, events w' !! e = Some true ->
          events w !! e = Some true
          \/ exists key, integrations w !! key = Some e)
    /\ stop_all w' = Ok w'.
Proof.
  intros Hr. pose proof (reachable_consistent _ Hr) as Hw.
  destruct (stop_all_effect w Hw) as (w' & Hf & H1 & H2 & H3 & H4 & H5 & H6 & H7).
  assert (Hw' : consistent w') by by eapply stop_all_consistent.
  exists w'. split; [done|].
  split; [done|]. split; [done|]. split; [done|]. split; [done|].
  split; [intros key a Hk; apply H7; right; by exists key|].
  split; [intros e He; apply H7; by left|].
  split; [intros e He; by apply H7|].
  destruct (stop_all_effect w' Hw') as (w2 & Hf2 & I1 & I2 & I3 & I4 & I5 & I6 & I7).
  rewrite Hf2. f_equal. apply runtime_eq; try done.
  apply list_eq. intros i.
  destruct (events w2 !! i) as [b2|] eqn:E2.
  - destruct (lookup_lt_is_Some_2 (events w') i) as [b1 E1].
    { rewrite <- I6. by eapply lookup_lt_Some. }
    rewrite E1. f_equal.
    destruct b2.
    + apply I7 in E2 as [E2|[key Hk]]; [congruence|].
      rewrite H1 in Hk. assert (events w' !! i = Some true); [|congruence].
      apply H7. right. by exists key.
    + destruct b1; [|done].
      assert (events w2 !! i = Some true); [|congruence]. apply I7. by left.
  - apply lookup_ge_None in E2. symmetry. apply lookup_ge_None. by rewrite <- I6.
Qed.

Lemma stop_all_signals_every_task_witness :
  reachable two_tasks_state
  /\ events two_tasks_state = [false; false]
  /\ exists w',
       stop_all two_tasks_state = Ok w'
       /\ events w' !! 0 = Some true
       /\ events w' !! 1 = Some true.
Proof.
  assert (H : reachable two_tasks_state).
  { exists [CallStart "nginx" "access" (Qc_of_Z 5);
            CallStart "windows" "security" (Qc_of_Z 1)].
    vm_compute. reflexivity. }
  split; [exact H|]. split; [reflexivity|].
  destruct (stop_all_signals_every_task two_tasks_state H)
    as (w' & H1 & _ & _ & _ & _ & H6 & _).
  exists w'. split; [exact H1|].
  split.
  - apply (H6 (key_of "nginx" "access")). vm_compute. reflexivity.
  - apply (H6 (key_of "windows" "security")). vm_compute. reflexivity.
Defined.

(** ** The status *)

(** X9. In a reachable runtime [get_status] returns a dict whose keys are
    exactly the registered keys. Each entry shows the state its key is bound
    to, and its key is made of the entry's own name and dataset, a pair of
    the catalog. *)
Theorem status_has_the_registered_keys w :
  reachable w ->
  exists m : gmap string StatusEntry,
    get_status w = Ok m
    /\ (forall key, is_Some (m !! key) <-> is_Some (integrations w !! key))
    /\ (forall key e, m !! key = Some e ->
          key = key_of (status_name e) (status_dataset e)
          /\ in_catalog (status_name e) (status_dataset e)
          /\ exists a s, integrations w !! key = Some a
                         /\ heap w !! a = Some s /\ e = status_of s).
Proof.
  intros Hr. pose proof (reachable_consistent _ Hr) as Hw.
  destruct (get_status_spec w Hw) as (m & Hm & Hlook).
  exists m. split; [done|]. split.
  - intros key. rewrite Hlook.
    destruct (integrations w !! key) as [a|] eqn:Hk; simpl.
    + destruct (registry_bound _ Hw _ _ Hk) as (s & Hs & _). rewrite Hs.
      simpl. split; by eexists.
    + split; intros [x Hx]; done.
  - intros key e. rewrite Hlook.
    destruct (integrations w !! key) as [a|] eqn:Hk; simpl; [|done].
    destruct (registry_bound _ Hw _ _ Hk) as (s & Hs & Hkey). rewrite Hs.
    simpl. intros [= <-]. simpl.
    destruct (lookup_lt_is_Some_2 (threads w) a) as [t Ht].
    { rewrite (same_threads _ Hw). by eapply lookup_lt_Some. }
    split; [done|]. split; [by destruct (cells _ Hw _ _ _ Hs Ht)|].
    by exists a, s.
Qed.

Lemma status_has_the_registered_keys_witness :
  reachable two_tasks_state
  /\ exists m : gmap string StatusEntry,
       get_status two_tasks_state = Ok m
       /\ is_Some (m !! key_of "windows" "security")
       /\ m !! key_of "windows" "system" = None.
Proof.
  assert (H : reachable two_tasks_state).
  { exists [CallStart "nginx" "access" (Qc_of_Z 5);
            CallStart "windows" "security" (Qc_of_Z 1)].
    vm_compute. reflexivity. }
  split; [exact H|].
  destruct (status_has_the_registered_keys two_tasks_state H)
    as (m & H1 & H2 & _).
  exists m. split; [exact H1|]. split.
  - apply H2. eexists. vm_compute. reflexivity.
  - destruct (m !! key_of "windows" "system") as [e|] eqn:E; [|reflexivity].
    assert (Hs : is_Some (integrations two_tasks_state
                            !! key_of "windows" "system")).
    { apply H2. rewrite E. by eexists. }
    destruct Hs as [a Ha]. vm_compute in Ha. discriminate.
Defined.

(** ** After a cancellation *)

Lemma moves_calls_other o tid w s t w' a :
  a <> tid -> moves o tid w s t w' ->
  calls_of a (bulk_calls w') = calls_of a (bulk_calls w).
Proof.
  intros Hne Hm.
  destruct Hm; simpl; rewrite ?try_bulk_index_bulk_calls, ?calls_of_cons;
    try done; by rewrite decide_False.
Qed.

Lemma calls_left_step o tid w s t w' :
  threads w !! tid = Some t ->
  events w !! tid = Some true ->
  moves o tid w s t w' ->
  exists t', threads w' !! tid = Some t'
             /\ length (calls_of tid (bulk_calls w')) + calls_left t'
                <= length (calls_of tid (bulk_calls w)) + calls_left t.
Proof.
  intros Ht He Hm.
  assert (Hlt : tid < length (threads w)) by by eapply lookup_lt_Some.
  destruct Hm as [i Hpc Hi|b Hpc Hev|event ds Hpc Hg Hfull
                 |event ds p Hpc Hg Hlt' [[_ ->]|[_ ->]]|e Hpc Hg
                 |p Hpc [[_ ->]|[_ ->]]|wake Hsl Hwk|Hpc Hp|Hpc Hp|Hpc];
    eexists; simpl; rewrite ?try_bulk_index_threads, ?try_bulk_index_bulk_calls,
      ?calls_of_cons, ?decide_True by done;
    (split; [by apply list_lookup_insert_eq|]);
    unfold calls_left; simpl; rewrite ?Hpc; try lia.
  all: try (assert (b = true) as -> by congruence; simpl).
  all: try (destruct Hsl as [-> | ->]).
  all: destruct (pending_events t) eqn:Ep; simpl; try done; lia.
Qed.

(** X10. Once the stop event of a task is set, its thread makes at most one
    more sink call, whatever the run and wherever the cancellation found the
    thread; it makes none when the thread is between iterations with an
    empty batch, or has already drained. *)
Theorem one_more_sink_call_after_cancellation w tid t :
  reachable w ->
  threads w !! tid = Some t ->
  events w !! tid = Some true ->
  calls_left t <= 1
  /\ forall ls w', exec ls w = Some w' ->
       length (calls_of tid (bulk_calls w'))
       <= length (calls_of tid (bulk_calls w)) + calls_left t.
Proof.
  intros Hr Ht He. pose proof (reachable_consistent _ Hr) as Hw.
  split.
  { unfold calls_left. destruct (pc t); try lia;
      destruct (pending_events t); lia. }
  intros ls w' Hexec.
  set (N := length (calls_of tid (bulk_calls w)) + calls_left t).
  assert (HP : events w' !! tid = Some true
               /\ exists t', threads w' !! tid = Some t'
                  /\ length (calls_of tid (bulk_calls w')) + calls_left t' <= N).
  { apply (exec_invariant
             (fun w1 => events w1 !! tid = Some true
                /\ exists t1, threads w1 !! tid = Some t1
                   /\ length (calls_of tid (bulk_calls w1)) + calls_left t1 <= N))
      with (ls := ls) (w := w); try done; [|split; [done|by exists t]].
    intros w1 l w2 Hw1 [He1 (t1 & Ht1 & Hn1)] Hch.
    assert (Hlt : tid < length (threads w1)) by by eapply lookup_lt_Some.
    assert (Hlte : tid < length (events w1)) by by eapply lookup_lt_Some.
    destruct Hch as [l _|n d eps g Hcat Hnr|n d a0 s0 Hk Hs0
                    |w2 H1 H2 H3 H4 H5 H6 H7
                    |tid0 o s0 t0 w2 Hs0 Ht0 Hc Hm|d0 Hd0]; simpl.
    - split; [done|by exists t1].
    - rewrite !lookup_app_l by done. split; [done|by exists t1].
    - split; [|by exists t1].
      destruct (decide (a0 = tid)) as [->|Hne].
      + by apply list_lookup_insert_eq.
      + by rewrite list_lookup_insert_ne.
    - rewrite H3, H5. split; [apply H7; by left|by exists t1].
    - destruct (moves_frame o tid0 w1 s0 t0 w2 Ht0 Hc Hm)
        as (_ & Hev & _ & _ & Hth & _).
      rewrite Hev. split; [done|].
      destruct (decide (tid0 = tid)) as [->|Hne].
      + assert (t0 = t1) as -> by congruence.
        destruct (calls_left_step o tid w1 s0 t1 w2 Ht1 He1 Hm) as (t2 & Ht2 & Hn2).
        exists t2. split; [done|]. lia.
      + exists t1. rewrite Hth by done. split; [done|].
        by rewrite (moves_calls_other o tid0 w1 s0 t0 w2 tid).
    - split; [done|by exists t1]. }
  destruct HP as (_ & t' & _ & Hn). subst N. lia.
Qed.

Lemma one_more_sink_call_after_cancellation_witness :
  reachable cancelled_state
  /\ length (calls_of 0 (bulk_calls cancelled_state)) = 0
  /\ forall ls w', exec ls cancelled_state = Some w' ->
       length (calls_of 0 (bulk_calls w')) <= 1.
Proof.
  assert (H : reachable cancelled_state).
  { exists (stop_during_sleep_run ++ [Tick (Qc_of_Z 50); Run 0 all_up])%list.
    vm_compute. reflexivity. }
  split; [exact H|]. split; [reflexivity|].
  destruct (one_more_sink_call_after_cancellation cancelled_state 0 _ H
              eq_refl eq_refl) as [_ H2].
  exact H2.
Defined.

(** ** The throttle *)

Lemma spacing_le_interval t : (spacing t ≤ sleep_interval t)%Qc.
Proof.
  unfold spacing. case_decide as H; [apply Qcle_refl|].
  apply Qclt_le_weak. by apply Qcnot_le_lt.
Qed.

Lemma spacing_le_one t : (spacing t ≤ 1)%Qc.
Proof. unfold spacing. case_decide as H; [done|apply Qcle_refl]. Qed.

Lemma spacing_pos t : (0 < sleep_interval t)%Qc -> (0 < spacing t)%Qc.
Proof. intros H. unfold spacing. case_decide; [done|apply Qc_one_pos]. Qed.

Lemma Qcle_plus_r (x d : Qc) : (0 ≤ d)%Qc -> (x ≤ x + d)%Qc.
Proof.
  intros H. rewrite <- (Qcplus_0_r x) at 1. by apply Qcplus_le_mono_l.
Qed.

Lemma spacing_nonneg t : (0 ≤ sleep_interval t)%Qc -> (0 ≤ spacing t)%Qc.
Proof.
  intros H. unfold spacing. case_decide; [done|].
  apply Qclt_le_weak, Qc_one_pos.
Qed.

Lemma ready_after_step o tid w s t w' b :
  threads w !! tid = Some t ->
  (b ≤ clock w + sleep_interval t)%Qc ->
  (b ≤ clock w + 1)%Qc ->
  ready_after b (clock w) (pc t) ->
  moves o tid w s t w' ->
  exists t', threads w' !! tid = Some t'
             /\ sleep_interval t' = sleep_interval t
             /\ ready_after b (clock w) (pc t').
Proof.
  intros Ht Hb Hb1 Hready Hm.
  assert (Hlt : tid < length (threads w)) by by eapply lookup_lt_Some.
  destruct Hm as [i Hpc Hi|is_set Hpc Hev|event ds Hpc Hg Hfull
                 |event ds p Hpc Hg Hlt' [[_ ->]|[_ ->]]|e Hpc Hg
                 |p Hpc [[_ ->]|[_ ->]]|wake Hsl Hwk|Hpc Hp|Hpc Hp|Hpc];
    rewrite ?Hpc in Hready; simpl in Hready; try done;
    eexists; simpl; rewrite ?try_bulk_index_threads;
    (split; [by apply list_lookup_insert_eq|]); (split; [done|]); simpl;
    try done.
  - by destruct is_set.
  - destruct Hsl as [E|E]; rewrite E in Hready; simpl in Hready;
      by eapply Qcle_trans.
Qed.

(** After a call of the generator at time [c] the thread stands before its
    next call no earlier than [c + min(sleep_interval, 1)]. *)
Lemma calls_spaced w tid t o w1 :
  consistent w ->
  threads w !! tid = Some t ->
  pc t = PGenerate ->
  _run_generator o tid w = Some w1 ->
  forall ls w2 t2,
    exec ls w1 = Some w2 ->
    threads w2 !! tid = Some t2 ->
    pc t2 = PGenerate ->
    (clock w + spacing t ≤ clock w2)%Qc.
Proof.
  intros Hw Ht Hpc Hrun.
  assert (Hw1 : consistent w1) by by eapply run_generator_consistent.
  destruct (run_generator_moves o tid w w1 Hw Hrun) as (s & t0 & Hs & Ht0 & Hc & Hm).
  assert (t0 = t) as -> by congruence.
  set (b := (clock w + spacing t)%Qc).
  set (P := fun w' : Runtime =>
              (clock w ≤ clock w')%Qc
              /\ exists t', threads w' !! tid = Some t'
                 /\ sleep_interval t' = sleep_interval t
                 /\ ready_after b (clock w') (pc t')).
  assert (Hlt : tid < length (threads w)) by by eapply lookup_lt_Some.
  assert (HP1 : P w1).
  { subst P b. simpl.
    destruct Hm as [i Hpc' Hi|is_set Hpc' Hev|event ds Hpc' Hg Hfull
                   |event ds p Hpc' Hg Hlt' [[_ ->]|[_ ->]]|e Hpc' Hg
                   |p Hpc' Hp|wake Hsl Hwk|Hpc' Hp|Hpc' Hp|Hpc']; try congruence;
      try (destruct Hsl; congruence);
      (split; [apply Qcle_refl|]); eexists; simpl;
      (split; [by apply list_lookup_insert_eq|]); (split; [done|]); simpl;
      try done.
    - apply Qcplus_le_mono_l, spacing_le_interval.
    - apply Qcplus_le_mono_l, spacing_le_one.
    - apply Qcplus_le_mono_l, spacing_le_one. }
  intros ls w2 t2 Hexec Ht2 Hpc2.
  assert (HP2 : P w2).
  { apply (exec_invariant P) with (ls := ls) (w := w1); try done.
    intros wa l wb Hwa [Hca (ta & Hta & Hia & Hra)] Hch.
    assert (Hlta : tid < length (threads wa)) by by eapply lookup_lt_Some.
    assert (Hstay : (clock w ≤ clock wb)%Qc ->
              threads wb !! tid = Some ta -> clock wb = clock wa -> P wb).
    { intros H1 H2 H3. split; [done|]. exists ta. rewrite H3. by repeat split. }
    destruct Hch as [l _|n d eps g Hcat Hnr|n d a0 s0 Hk Hs0
                    |wb H1 H2 H3 H4 H5 H6 H7
                    |tid0 oa s0 t0 wb Hs0 Ht0' Hc0 Hm0|d0 Hd0].
    - by apply Hstay.
    - apply Hstay; try done. simpl. by rewrite lookup_app_l.
    - by apply Hstay.
    - apply Hstay; try done; [by rewrite H4|by rewrite H3].
    - destruct (moves_frame oa tid0 wa s0 t0 wb Ht0' Hc0 Hm0)
        as (_ & _ & Hcl & _ & Hth & _).
      destruct (decide (tid0 = tid)) as [->|Hne];
        [|apply Hstay; try done; [by rewrite Hcl|by rewrite Hth]].
      assert (t0 = ta) as -> by congruence.
      destruct (ready_after_step oa tid wa s0 ta wb b Hta) as (tb & Htb & Hib & Hrb);
        try done.
      { subst b. rewrite Hia. apply Qcplus_le_compat; [done|].
        apply spacing_le_interval. }
      { subst b. apply Qcplus_le_compat; [done|]. apply spacing_le_one. }
      split; [by rewrite Hcl|]. exists tb. rewrite Hcl.
      split; [done|]. split; [congruence|done].
    - split; [simpl; eapply Qcle_trans; [exact Hca|by apply Qcle_plus_r]|].
      exists ta. simpl. split; [done|]. split; [done|].
      destruct (pc ta); simpl in *; try done;
        (eapply Qcle_trans; [exact Hra|by apply Qcle_plus_r]). }
  destruct HP2 as (_ & t' & Ht' & _ & Hready).
  assert (t' = t2) as -> by congruence.
  rewrite Hpc2 in Hready. exact Hready.
Qed.

(** X11. A thread throttles itself: after a call of the generator at time
    [c], whether it returned or raised, the thread stands before its next
    call no earlier than [c + min(sleep_interval, 1)], whatever happens in
    between. That spacing is positive unless the rate of the task is
    infinite, when the interval is 0. *)
Theorem generator_calls_are_spaced w tid s t o w1 :
  reachable w ->
  heap w !! tid = Some s ->
  threads w !! tid = Some t ->
  pc t = PGenerate ->
  _run_generator o tid w = Some w1 ->
  (events_per_second s <> PosInf -> (0 < spacing t)%Qc)
  /\ (0 ≤ spacing t)%Qc
  /\ forall ls w2 t2,
       exec ls w1 = Some w2 ->
       threads w2 !! tid = Some t2 ->
       pc t2 = PGenerate ->
       (clock w + spacing t ≤ clock w2)%Qc.
Proof.
  intros Hr Hs Ht Hpc Hrun. pose proof (reachable_consistent _ Hr) as Hw.
  pose proof (cells _ Hw _ _ _ Hs Ht) as Hc.
  assert (Hne : pc t <> PInit) by by rewrite Hpc.
  split; [|split].
  - intros Hfin. apply spacing_pos. by apply (cell_interval_pos _ _ _ Hc).
  - apply spacing_nonneg. by apply (cell_interval_nonneg _ _ _ Hc).
  - by apply (calls_spaced w tid t o w1).
Qed.

Lemma generator_calls_are_spaced_witness :
  reachable before_generate_state
  /\ exists w1,
       _run_generator generator_down 0 before_generate_state = Some w1
       /\ forall ls w2 t2,
            exec ls w1 = Some w2 ->
            threads w2 !! 0 = Some t2 ->
            pc t2 = PGenerate ->
            (Q2Qc (1 # 2) ≤ clock w2)%Qc.
Proof.
  assert (H : reachable before_generate_state).
  { exists before_generate_run. vm_compute. reflexivity. }
  split; [exact H|].
  assert (E : exists w1,
            _run_generator generator_down 0 before_generate_state = Some w1).
  { eexists. vm_compute. reflexivity. }
  destruct E as [w1 E]. exists w1. split; [exact E|].
  destruct (generator_calls_are_spaced before_generate_state 0 _ _ generator_down
              w1 H eq_refl eq_refl eq_refl E) as (_ & _ & H2).
  intros ls w2 t2 H3 H4 H5.
  eapply Qcle_trans; [|exact (H2 ls w2 t2 H3 H4 H5)].
  vm_compute. discriminate.
Defined.

(** ** Sleeps are bounded *)

(** A thread goes to sleep for its interval, or for the second of the
    handler, and time only moves on: the invariant of the wake-up times. *)
Lemma sleeps_bounded_step w l w' :
  consistent w -> sleeps_bounded w -> changes w l w' -> sleeps_bounded w'.
Proof.
  intros Hw HP Hch. unfold sleeps_bounded in *.
  destruct Hch as [l _|n d eps g Hcat Hnr|n d a0 s0 Hk Hs0|w' H1 H2 H3 H4 H5 H6 H7
                  |tid o s0 t w' Hs0 Ht Hc Hm|d Hd]; try done.
  - intros tid t wake. simpl. intros H.
    destruct (decide (tid < length (threads w))) as [Hlt|Hge].
    + rewrite lookup_app_l in H by done. by apply (HP tid t).
    + apply lookup_lt_Some in H as Hlen. rewrite length_app in Hlen. simpl in Hlen.
      assert (tid = length (threads w)) as -> by lia.
      rewrite lookup_app_r, Nat.sub_diag in H by done. injection H as <-.
      by split.
  - intros tid t wake. rewrite H3, H4. apply HP.
  - assert (Hother : forall tid0 t0 ts wake,
              <[tid := ts]> (threads w) !! tid0 = Some t0 ->
              ((pc ts = PSleep wake ->
                  (wake ≤ clock w + sleep_interval ts)%Qc
                  /\ (sleep_interval ts ≤ sleep_max)%Qc)
               /\ (pc ts = PBackoff wake -> (wake ≤ clock w + 1)%Qc)) ->
              (pc t0 = PSleep wake ->
                 (wake ≤ clock w + sleep_interval t0)%Qc
                 /\ (sleep_interval t0 ≤ sleep_max)%Qc)
              /\ (pc t0 = PBackoff wake -> (wake ≤ clock w + 1)%Qc)).
    { intros tid0 t0 ts wake H Hts.
      apply lookup_insert_cases in H as [(_ & <- & _)|(_ & H)]; [done|].
      by apply (HP tid0 t0). }
    destruct Hm as [i Hpc Hi|b Hpc Hev|event ds Hpc Hg Hfull
                   |event ds p Hpc Hg Hlt' [[Hle ->]|[_ ->]]|e Hpc Hg
                   |p Hpc [[Hle ->]|[_ ->]]|wake0 Hsl0 Hwk|Hpc Hp|Hpc Hp|Hpc];
      intros tid0 t0 wake; simpl;
      rewrite ?try_bulk_index_threads, ?try_bulk_index_clock;
      intros H; (eapply Hother; [exact H|]); simpl;
      (split; intros E; try done; try (by destruct b));
      injection E as <-; try (split; [|done]); apply Qcle_refl.
  - intros tid t wake. simpl. intros H.
    destruct (HP tid t wake H) as [H1 H2]. split.
    + intros E. destruct (H1 E) as [H3 H4]. split; [|done].
      eapply Qcle_trans; [exact H3|].
      apply Qcplus_le_mono_r. by apply Qcle_plus_r.
    + intros E. eapply Qcle_trans; [exact (H2 E)|].
      apply Qcplus_le_mono_r. by apply Qcle_plus_r.
Qed.

Lemma reachable_sleeps_bounded w : reachable w -> sleeps_bounded w.
Proof.
  apply reachable_invariant.
  - intros tid t wake H. simpl in H. by destruct tid.
  - intros w0 l w1 _ Hw HP Hch. by eapply sleeps_bounded_step.
Qed.

(** C2, as the code has it. A thread that sleeps cannot be woken: until the
    time its [time.sleep] returns it keeps its state and takes no step,
    whatever happens in the process, a stop included, and every status taken
    in that time shows it running. When the time has come its next step
    takes it to the test at the top of the loop. The wait is bounded by the
    sleep: a rate sleep ends no later than one interval from now, the
    interval being a length [time.sleep] accepts, at most [sleep_max]; the
    sleep of the handler ends no later than one second from now. The stop
    itself is seen at once: it returns True, sets the event and leaves the
    thread asleep, and the status then shows the task not enabled and still
    running. *)
Theorem cancellation_waits_for_the_sleep w tid t wake :
  reachable w ->
  threads w !! tid = Some t ->
  asleep_until wake t ->
  (forall ls w', exec ls w = Some w' -> (clock w' < wake)%Qc ->
     threads w' !! tid = Some t
     /\ (forall o, _run_generator o tid w' = None)
     /\ exists s (m : gmap string StatusEntry),
          heap w' !! tid = Some s
          /\ running s = true
          /\ get_status w' = Ok m
          /\ m !! key_of (name s) (dataset s) = Some (status_of s))
  /\ (forall ls w' o, exec ls w = Some w' -> (wake ≤ clock w')%Qc ->
        threads w' !! tid = Some t ->
        _run_generator o tid w' = Some (set_thread tid (at_pc PLoop t) w'))
  /\ (pc t = PSleep wake ->
        (wake ≤ clock w + sleep_interval t)%Qc
        /\ (sleep_interval t ≤ sleep_max)%Qc)
  /\ (pc t = PBackoff wake -> (wake ≤ clock w + 1)%Qc)
  /\ (exists s w1 (m : gmap string StatusEntry) e,
        heap w !! tid = Some s
        /\ stop_integration (name s) (dataset s) w = Ok (true, w1)
        /\ threads w1 !! tid = Some t
        /\ events w1 !! tid = Some true
        /\ clock w1 = clock w
        /\ get_status w1 = Ok m
        /\ m !! key_of (name s) (dataset s) = Some e
        /\ status_enabled e = false
        /\ status_running e = true).
Proof.
  intros Hr Ht Hs. pose proof (reachable_consistent _ Hr) as Hw.
  split.
  { intros ls w' Hexec Hc.
    assert (Hw' : consistent w') by by eapply exec_consistent.
    pose proof (asleep_stays ls w w' tid t wake Hw Ht Hs Hexec Hc) as Ht'.
    split; [done|]. split.
    { intros o. by eapply asleep_blocked. }
    destruct (lookup_lt_is_Some_2 (heap w') tid) as [s Hs'].
    { rewrite <- (same_threads _ Hw'). by eapply lookup_lt_Some. }
    assert (Hrun : running s = true).
    { apply (cell_running _ _ _ (cells _ Hw' _ _ _ Hs' Ht')).
      by destruct Hs as [-> | ->]. }
    destruct (get_status_spec w' Hw') as (m & Hm & Hlook).
    exists s, m. repeat split; try done.
    rewrite Hlook, (running_registered _ Hw' _ _ Hs' Hrun). simpl.
    by rewrite Hs'. }
  split.
  { intros ls w' o _ Hc Ht'. by eapply asleep_wakes. }
  destruct (reachable_sleeps_bounded w Hr tid t wake Ht) as [Hb1 Hb2].
  split; [done|]. split; [done|].
  destruct (lookup_lt_is_Some_2 (heap w) tid) as [s Hs0].
  { rewrite <- (same_threads _ Hw). by eapply lookup_lt_Some. }
  assert (Hrun : running s = true).
  { apply (cell_running _ _ _ (cells _ Hw _ _ _ Hs0 Ht)).
    by destruct Hs as [-> | ->]. }
  pose proof (running_registered _ Hw _ _ Hs0 Hrun) as Hk.
  pose proof (stop_integration_registered w (name s) (dataset s) tid s Hw Hk Hs0)
    as Hstop.
  set (w1 := with_heap (<[tid := set_enabled false s]> (heap w)) (event_set tid w))
    in *.
  assert (Hw1 : consistent w1) by by eapply stop_integration_consistent.
  assert (Hlt : tid < length (heap w)) by by eapply lookup_lt_Some.
  destruct (get_status_spec w1 Hw1) as (m & Hm & Hlook).
  exists s, w1, m, (status_of (set_enabled false s)).
  split; [done|]. split; [done|]. split; [done|]. split.
  { subst w1. simpl. apply list_lookup_insert_eq.
    by rewrite (same_events _ Hw). }
  split; [done|]. split; [done|]. split; [|done].
  rewrite Hlook. subst w1. simpl. rewrite Hk. simpl.
  by rewrite list_lookup_insert_eq.
Qed.

(** C2 as stated fails: at one event per 100 seconds the thread sleeps until
    time 100; stopped at time 0, it has its event set, and 50 seconds later
    it still cannot take a step and the status still shows it running. *)
Lemma stop_does_not_interrupt_the_sleep :
  exists t s (m : gmap string StatusEntry) e,
    exec stop_during_sleep_run initial = Some stop_during_sleep_state
    /\ clock stop_during_sleep_state = Q2Qc 50
    /\ events stop_during_sleep_state !! 0 = Some true
    /\ threads stop_during_sleep_state !! 0 = Some t
    /\ pc t = PSleep (Q2Qc 100)
    /\ _run_generator all_up 0 stop_during_sleep_state = None
    /\ heap stop_during_sleep_state !! 0 = Some s
    /\ running s = true
    /\ get_status stop_during_sleep_state = Ok m
    /\ m !! key_of "nginx" "access" = Some e
    /\ status_running e = true.
Proof.
  eexists _, _, _, _.
  split; [vm_compute; reflexivity|].
  split; [vm_compute; reflexivity|].
  split; [reflexivity|].
  split; [reflexivity|].
  split; [vm_compute; reflexivity|].
  split; [vm_compute; reflexivity|].
  split; [reflexivity|].
  split; [reflexivity|].
  split; [vm_compute; reflexivity|].
  split; [vm_compute; reflexivity|].
  reflexivity.
Qed.

Lemma cancellation_waits_for_the_sleep_witness :
  reachable asleep_state
  /\ exec [CallStop "nginx" "access"; Tick (Qc_of_Z 50)] asleep_state =
       Some stop_during_sleep_state
  /\ threads stop_during_sleep_state !! 0 = threads asleep_state !! 0
  /\ forall o, _run_generator o 0 stop_during_sleep_state = None.
Proof.
  assert (H : reachable asleep_state).
  { exists (started_run (Q2Qc (1 # 100)) ++ [Run 0 all_up; Run 0 all_up])%list.
    vm_compute. reflexivity. }
  assert (E : exec [CallStop "nginx" "access"; Tick (Qc_of_Z 50)] asleep_state =
                Some stop_during_sleep_state) by (vm_compute; reflexivity).
  split; [exact H|]. split; [exact E|].
  destruct (cancellation_waits_for_the_sleep asleep_state 0 _ (Q2Qc 100) H
              eq_refl (or_introl eq_refl)) as (H1 & _).
  destruct (H1 _ _ E) as (Ht & Hblocked & _); [vm_compute; reflexivity|].
  split; [exact Ht|exact Hblocked].
Defined.

(** ** The interval of an accepted start *)

(** C8, as the code has it. After an accepted start with rate [eps] the
    interval is computed without an exception, the division never being by
    zero: [1/eps] for a finite [eps > 0], [1] for [eps <= 0], for minus
    infinity and for NaN, and [0] for plus infinity. Except for plus
    infinity the interval is positive. The first step of the new thread
    stores the interval and goes to the loop; the thread keeps it ever after,
    and [time.sleep] at the end of an iteration lasts the interval, or, for
    an interval it refuses, the second of the handler. So after a call of
    the generator the next one comes no earlier than [min(interval, 1)]
    later, a positive time unless the rate is plus infinity. *)
Theorem sleep_interval_of_accepted_start n d eps w w' :
  reachable w ->
  start_integration n d eps w = Ok (true, w') ->
  let tid := length (threads w) in
  exists interval,
    compute_sleep_interval eps = Ok interval
    /\ (forall q : Qc, eps = Finite q -> (0 < q)%Qc -> interval = (1 / q)%Qc)
    /\ (forall q : Qc, eps = Finite q -> (q ≤ 0)%Qc -> interval = 1%Qc)
    /\ (eps = NegInf \/ eps = NaN -> interval = 1%Qc)
    /\ (eps = PosInf -> interval = 0%Qc)
    /\ (eps <> PosInf ->
          (0 < interval)%Qc
          /\ (0 < (if decide (interval ≤ 1)%Qc then interval else 1))%Qc)
    /\ (forall o, exists t,
          _run_generator o tid w' = Some (set_thread tid t w')
          /\ pc t = PLoop
          /\ sleep_interval t = interval)
    /\ (forall ls w1 t1,
          exec ls w' = Some w1 -> threads w1 !! tid = Some t1 ->
          pc t1 <> PInit ->
          sleep_interval t1 = interval
          /\ forall now,
               ((interval ≤ sleep_max)%Qc ->
                  rate_sleep t1 now = at_pc (PSleep (now + interval)%Qc) t1)
               /\ ((sleep_max < interval)%Qc ->
                     rate_sleep t1 now = at_pc (PBackoff (now + 1)%Qc) t1))
    /\ (forall ls w1 t1 o w2 ls' w3 t3,
          exec ls w' = Some w1 -> threads w1 !! tid = Some t1 ->
          pc t1 = PGenerate ->
          _run_generator o tid w1 = Some w2 ->
          exec ls' w2 = Some w3 -> threads w3 !! tid = Some t3 ->
          pc t3 = PGenerate ->
          (clock w1 + (if decide (interval ≤ 1)%Qc then interval else 1) ≤ clock w3)%Qc).
Proof.
  intros Hr Hstart tid. pose proof (reachable_consistent _ Hr) as Hw.
  assert (Hw' : consistent w') by by eapply start_integration_consistent.
  destruct (compute_sleep_interval_total eps) as (interval & Hi & H0 & Hpos).
  exists interval. split; [done|].
  split.
  { intros q -> Hq. rewrite compute_sleep_interval_pos in Hi by done.
    by injection Hi as <-. }
  split.
  { intros q -> Hq. rewrite compute_sleep_interval_nonpos in Hi by done.
    by injection Hi as <-. }
  split.
  { intros [-> | ->]; simpl in Hi; by injection Hi as <-. }
  split.
  { intros ->. simpl in Hi. by injection Hi as <-. }
  split.
  { intros Hne. split; [by apply Hpos|].
    case_decide; [by apply Hpos|apply Qc_one_pos]. }
  apply start_integration_accepted in Hstart as (info & dsi & _ & _ & _ & ->).
  set (w' := spawn n d eps (generator dsi) w) in *.
  assert (Hs' : exists s, heap w' !! tid = Some s /\ events_per_second s = eps).
  { eexists. subst w' tid. simpl. rewrite (same_threads _ Hw).
    by rewrite lookup_app_r, Nat.sub_diag. }
  destruct Hs' as (s0 & Hs0 & He0).
  assert (Hkeep : forall ls w1 t1,
            exec ls w' = Some w1 -> threads w1 !! tid = Some t1 ->
            pc t1 <> PInit -> sleep_interval t1 = interval).
  { intros ls w1 t1 Hexec Ht1 Hpc.
    assert (Hw1 : consistent w1) by by eapply exec_consistent.
    destruct (exec_state_static ls w' w1 _ _ Hw' Hexec Hs0)
      as (s1 & Hs1 & _ & _ & He1 & _).
    pose proof (cell_interval _ _ _ (cells _ Hw1 _ _ _ Hs1 Ht1) Hpc) as Hc.
    rewrite He1, He0, Hi in Hc. by injection Hc as <-. }
  split.
  { intros o. unfold _run_generator. subst w' tid. unfold spawn; simpl.
    rewrite lookup_app_r, Nat.sub_diag by done. simpl.
    rewrite lookup_app_r, Nat.sub_diag by done. simpl.
    rewrite Hi. eexists. split; [done|]. by split. }
  split.
  { intros ls w1 t1 Hexec Ht1 Hpc.
    pose proof (Hkeep ls w1 t1 Hexec Ht1 Hpc) as Hk.
    split; [done|]. intros now. split.
    - intros Hle. rewrite <- Hk. apply rate_sleep_pos; by rewrite Hk.
    - intros Hgt. unfold rate_sleep. rewrite time_sleep_refuses by by rewrite Hk.
      apply backoff_spec. }
  intros ls w1 t1 o w2 ls' w3 t3 Hexec Ht1 Hpc Hrun Hexec' Ht3 Hpc3.
  assert (Hw1 : consistent w1) by by eapply exec_consistent.
  assert (Hk : sleep_interval t1 = interval).
  { eapply Hkeep; [done|done|]. by rewrite Hpc. }
  pose proof (calls_spaced w1 tid t1 o w2 Hw1 Ht1 Hpc Hrun ls' w3 t3 Hexec' Ht3 Hpc3)
    as Hsp.
  unfold spacing in Hsp. by rewrite Hk in Hsp.
Qed.

(** C8 as stated fails: the rate [float('inf')] passes the test [> 0] and
    gives the interval [1.0 / inf = 0.0]. The start is accepted, and the
    thread calls the generator three times, sleeping [0.0] seconds after each
    call, while the clock stands still. *)
Lemma infinite_rate_runs_unthrottled :
  exists w' t,
    start_integration "nginx" "access" PosInf initial = Ok (true, w')
    /\ compute_sleep_interval PosInf = Ok 0%Qc
    /\ exec infinite_rate_run initial = Some infinite_rate_state
    /\ threads infinite_rate_state !! 0 = Some t
    /\ sleep_interval t = 0%Qc
    /\ length (pending_events t) = 3
    /\ clock infinite_rate_state = clock initial
    /\ ~ (0 < sleep_interval t)%Qc.
Proof.
  eexists _, _.
  split; [vm_compute; reflexivity|].
  split; [reflexivity|].
  split; [vm_compute; reflexivity|].
  split; [reflexivity|].
  split; [reflexivity|].
  split; [reflexivity|].
  split; [reflexivity|].
  simpl. apply Qcle_not_lt, Qcle_refl.
Qed.

Lemma sleep_interval_of_accepted_start_witness :
  reachable initial
  /\ start_integration "nginx" "access" (Qc_of_Z 5) initial =
       Ok (true, spawn "nginx" "access" (Qc_of_Z 5) NginxAccessGenerator initial)
  /\ exists t,
       _run_generator all_up 0
         (spawn "nginx" "access" (Qc_of_Z 5) NginxAccessGenerator initial) =
         Some (set_thread 0 t
                 (spawn "nginx" "access" (Qc_of_Z 5) NginxAccessGenerator initial))
       /\ pc t = PLoop
       /\ sleep_interval t = (1 / Qc_of_Z 5)%Qc.
Proof.
  assert (Hr : reachable initial) by by exists [].
  assert (H : start_integration "nginx" "access" (Qc_of_Z 5) initial =
    Ok (true, spawn "nginx" "access" (Qc_of_Z 5) NginxAccessGenerator initial)).
  { vm_compute. reflexivity. }
  split; [exact Hr|]. split; [exact H|].
  destruct (sleep_interval_of_accepted_start _ _ _ _ _ Hr H)
    as (interval & _ & Hq & _ & _ & _ & _ & Hrun & _).
  destruct (Hrun all_up) as (t & Hw'' & Hpc & Hi).
  exists t. split; [exact Hw''|]. split; [exact Hpc|].
  rewrite Hi. apply (Hq (Qc_of_Z 5)); [reflexivity|]. by apply Qclt_alt.
Defined.

(** ** Start calls that overlap *)

(** [start_integration] is its tests followed by the registration. *)
Lemma start_integration_in_two_steps n d eps w :
  start_integration n d eps w =
    match start_integration_tests n d w with
    | Ok (Some g) => Ok (true, spawn n d eps g w)
    | Ok None => Ok (false, w)
    | Raise e => Raise e
    end.
Proof.
  unfold start_integration, start_integration_tests, spawn.
  destruct (contains (integrations w) (key_of n d)); simpl.
  - destruct (getitem (integrations w) (key_of n d)) as [a|e]; simpl; [|done].
    destruct (deref w a) as [s|e]; simpl; [|done].
    destruct (running s); simpl; [done|].
    destruct (contains AVAILABLE_INTEGRATIONS n); simpl; [|done].
    destruct (getitem AVAILABLE_INTEGRATIONS n) as [info|e]; simpl; [|done].
    destruct (contains (datasets info) d); simpl; [|done].
    by destruct (getitem (datasets info) d) as [dsi|e].
  - destruct (contains AVAILABLE_INTEGRATIONS n); simpl; [|done].
    destruct (getitem AVAILABLE_INTEGRATIONS n) as [info|e]; simpl; [|done].
    destruct (contains (datasets info) d); simpl; [|done].
    by destruct (getitem (datasets info) d) as [dsi|e].
Qed.

Lemma start_integration_tests_passed n d w g :
  start_integration_tests n d w = Ok (Some g) ->
  standing_ok w (mkStartCall n d 1%Qc g).
Proof.
  intros H.
  pose proof (start_integration_in_two_steps n d 1%Qc w) as E. rewrite H in E.
  apply start_integration_accepted in E as (info & dsi & Hn & Hd & Hnr & Hsp).
  split; [|done]. exists info, dsi. split; [done|]. split; [done|]. simpl.
  assert (Ht : threads (spawn n d 1%Qc g w)
               = threads (spawn n d 1%Qc (generator dsi) w)) by by rewrite Hsp.
  simpl in Ht. apply app_inj_tail in Ht as [_ Ht]. by injection Ht.
Qed.

Lemma start_integration_tests_running n d w :
  registered_running w (key_of n d) ->
  start_integration_tests n d w = Ok None.
Proof.
  intros H. pose proof (start_integration_running n d 1%Qc w H) as E.
  rewrite start_integration_in_two_steps in E.
  by destruct (start_integration_tests n d w) as [[g|]|e].
Qed.

(** A start whose tests would pass is accepted. *)
Lemma start_integration_accepts w p :
  consistent w -> standing_ok w p ->
  start_integration (call_name p) (call_dataset p) (call_eps p) w =
    Ok (true, spawn (call_name p) (call_dataset p) (call_eps p) (call_class p) w).
Proof.
  intros Hw [(info & dsi & Hn & Hd & Hg) Hnr].
  pose proof (start_integration_cases (call_name p) (call_dataset p) (call_eps p) w)
    as Hc.
  pose proof (start_integration_no_raise (call_name p) (call_dataset p)
                (call_eps p) w Hw) as Hr.
  destruct (start_integration (call_name p) (call_dataset p) (call_eps p) w)
    as [[[] w']|e]; [| |done].
  - destruct Hc as (info' & dsi' & Hn' & Hd' & _ & ->).
    rewrite Hn in Hn'. injection Hn' as <-.
    rewrite Hd in Hd'. injection Hd' as <-. by rewrite Hg.
  - destruct Hc as [_ [H|H]]; [done|]. destruct H.
    exists info. split; [done|]. by exists dsi.
Qed.

(** A step that is not a start of the key does not make the key running. *)
Lemma step_registered_running l w w' key :
  consistent w -> step l w = Some w' -> not_start_of key l ->
  registered_running w' key -> registered_running w key.
Proof.
  intros Hw H Hl (a & s' & Hk & Hs' & Hr).
  assert (Hk0 : integrations w !! key = Some a).
  { destruct (step_registry l w w' Hw H) as [E|(n & d & eps & -> & E)];
      rewrite E in Hk; [done|].
    simpl in Hl. by rewrite lookup_insert_ne in Hk. }
  destruct (registry_bound _ Hw _ _ Hk0) as (s & Hs & _).
  destruct (step_state_static l w w' a s Hw H Hs) as (s1 & Hs1 & _ & _ & _ & _ & Hrun).
  exists a, s. split; [done|]. split; [done|]. apply Hrun. congruence.
Qed.

Lemma standing_ok_step l w w' p :
  consistent w -> step l w = Some w' -> not_start_of (call_key p) l ->
  standing_ok w p -> standing_ok w' p.
Proof.
  intros Hw H Hl [Hcat Hnr]. split; [done|].
  intros Hrr. apply Hnr. by eapply step_registered_running.
Qed.

Lemma may_begin_not_start l c p :
  may_begin (Whole l) c = true -> p ∈ standing c -> not_start_of (call_key p) l.
Proof.
  intros Hm Hp. destruct l as [n d eps|n d| | |tid o|dt]; try done.
  unfold may_begin in Hm. simpl in Hm. apply bool_decide_eq_true in Hm.
  simpl. intros E. apply Hm. rewrite E. apply list_elem_of_fmap. by exists p.
Qed.

Lemma callers_ok_step l c c' :
  callers_ok c -> may_begin l c = true -> caller_step l c = Some c' ->
  callers_ok c'.
Proof.
  intros (Hr & Hnd & Hall) Hm H.
  pose proof (reachable_consistent _ Hr) as Hw.
  destruct l as [n d eps|i|l]; simpl in H.
  - destruct (start_integration_tests n d (world c)) as [[g|]|e] eqn:E;
      [| |done]; injection H as <-; unfold callers_ok; simpl; [|done].
    split; [done|]. split.
    + rewrite fmap_app. apply NoDup_app. split; [done|]. split.
      * intros k Hk Hk'. apply list_elem_of_singleton in Hk'. subst k.
        unfold may_begin in Hm. simpl in Hm.
        by apply bool_decide_eq_true in Hm.
      * apply NoDup_singleton.
    + apply Forall_app. split; [done|]. apply Forall_singleton.
      destruct (start_integration_tests_passed n d (world c) g E) as [Hcat Hnr].
      by split.
  - destruct (standing c !! i) as [p|] eqn:Ep; [|done]. simpl in H.
    injection H as <-. unfold callers_ok. simpl.
    pose proof (take_drop_middle _ _ _ Ep) as Hl.
    rewrite delete_take_drop.
    rewrite <- Hl in Hnd, Hall.
    rewrite fmap_app, fmap_cons in Hnd.
    apply NoDup_app in Hnd as (Hnd1 & Hnd2 & Hnd3).
    apply NoDup_cons in Hnd3 as [Hnd3 Hnd4].
    apply Forall_app in Hall as [Hall1 Hall2].
    apply Forall_cons in Hall2 as [Hp Hall2].
    pose proof (start_integration_accepts (world c) p Hw Hp) as Hacc.
    assert (Hstep : step (CallStart (call_name p) (call_dataset p) (call_eps p))
                      (world c)
                    = Some (spawn (call_name p) (call_dataset p) (call_eps p)
                              (call_class p) (world c))).
    { simpl. by rewrite Hacc. }
    split.
    { apply (reachable_exec
               [CallStart (call_name p) (call_dataset p) (call_eps p)] _ _ Hr).
      simpl. by rewrite Hacc. }
    split.
    { rewrite fmap_app. apply NoDup_app. split; [done|]. split; [|done].
      intros k Hk Hk'. apply (Hnd2 k Hk). by right. }
    apply Forall_app. split.
    + apply Forall_forall. intros q Hq.
      eapply standing_ok_step; [exact Hw|exact Hstep| |].
      * simpl. intros E. apply (Hnd2 (call_key q)).
        -- apply list_elem_of_fmap. by exists q.
        -- rewrite <- E. apply list_elem_of_here.
      * by eapply Forall_forall in Hall1.
    + apply Forall_forall. intros q Hq.
      eapply standing_ok_step; [exact Hw|exact Hstep| |].
      * simpl. intros E. apply Hnd3. change (call_key p = call_key q) in E.
        rewrite E. apply list_elem_of_fmap. by exists q.
      * by eapply Forall_forall in Hall2.
  - destruct (step l (world c)) as [w1|] eqn:E; [|done]. simpl in H.
    injection H as <-. unfold callers_ok. simpl.
    split.
    { apply (reachable_exec [l] _ _ Hr). simpl. by rewrite E. }
    split; [done|].
    apply Forall_forall. intros q Hq.
    eapply standing_ok_step; [exact Hw|exact E| |].
    + by eapply may_begin_not_start.
    + by eapply Forall_forall in Hall.
Qed.

Lemma serial_exec_ok ls c c' :
  callers_ok c -> serial_exec ls c = Some c' -> callers_ok c'.
Proof.
  revert c. induction ls as [|l ls IH]; intros c Hc H; simpl in H.
  - by injection H as <-.
  - destruct (may_begin l c) eqn:Hm; [|done].
    destruct (caller_step l c) as [c1|] eqn:E; [|done].
    eapply IH; [|done]. by eapply callers_ok_step.
Qed.

Lemma serial_exec_caller_exec ls c c' :
  serial_exec ls c = Some c' -> caller_exec ls c = Some c'.
Proof.
  revert c. induction ls as [|l ls IH]; intros c H; simpl in *; [done|].
  destruct (may_begin l c); [|done].
  destruct (caller_step l c) as [c1|]; [|done]. by apply IH.
Qed.

(** C4, as the code has it. In every reachable runtime, the calls of the
    orchestrator being steps of the process, each one whole, a key has at
    most one running task, and a state is running exactly while its thread
    has not returned. A start of a key that is registered and running returns
    false and leaves the runtime as it was. After an accepted start the key
    has exactly one running task, and a second start of the key returns
    false and changes nothing. The same holds when start calls are cut in
    two, as long as no start of a key begins while another caller of that
    key stands between its tests and its registration: such a run ends in a
    runtime the whole calls reach, where the key has at most one running
    task and a start of a registered and running key fails its tests and
    returns False. *)
Theorem at_most_one_task_per_key w n d :
  reachable w ->
  length (running_tasks w (key_of n d)) <= 1
  /\ (forall a s t, heap w !! a = Some s -> threads w !! a = Some t ->
        (running s = true <-> pc t <> PDone))
  /\ (registered_running w (key_of n d) ->
        forall eps, start_integration n d eps w = Ok (false, w))
  /\ (forall eps w1,
        start_integration n d eps w = Ok (true, w1) ->
        length (running_tasks w1 (key_of n d)) = 1
        /\ forall eps',
             start_integration n d eps' w1 = Ok (false, w1)
             /\ length (running_tasks w1 (key_of n d)) = 1)
  /\ (forall ls c,
        serial_exec ls (no_callers w) = Some c ->
        caller_exec ls (no_callers w) = Some c
        /\ reachable (world c)
        /\ length (running_tasks (world c) (key_of n d)) <= 1
        /\ (registered_running (world c) (key_of n d) ->
              forall eps,
                caller_step (StartTests n d eps) c =
                  Some (mkCallers (world c) (standing c)
                          ((key_of n d, false) :: returned c)))).
Proof.
  intros Hr. pose proof (reachable_consistent _ Hr) as Hw.
  split; [by apply running_tasks_at_most_one|].
  split.
  { intros a s t Hs Ht. by destruct (cells _ Hw _ _ _ Hs Ht). }
  split.
  { intros H eps. by apply start_integration_running. }
  split.
  { intros eps w1 Hstart.
    assert (Hw1 : consistent w1) by by eapply start_integration_consistent.
    apply start_integration_accepted in Hstart as (info & dsi & _ & _ & _ & ->).
    pose proof (spawn_registered_running n d eps (generator dsi) w) as Hreg.
    assert (H1 : length (running_tasks (spawn n d eps (generator dsi) w)
                           (key_of n d)) = 1)
      by by apply running_tasks_registered.
    split; [done|]. intros eps'. split; [|done].
    by apply start_integration_running. }
  intros ls c Hexec.
  assert (Hc : callers_ok c).
  { eapply serial_exec_ok; [|exact Hexec]. split; [done|]. split; constructor. }
  destruct Hc as (Hr' & _ & _).
  split; [by apply serial_exec_caller_exec|].
  split; [done|].
  split; [by apply running_tasks_at_most_one, reachable_consistent|].
  intros Hrr eps. simpl. by rewrite start_integration_tests_running.
Qed.

Lemma at_most_one_task_per_key_witness :
  reachable started_state
  /\ length (running_tasks started_state (key_of "nginx" "access")) <= 1
  /\ start_integration "nginx" "access" (Qc_of_Z 7) started_state =
       Ok (false, started_state).
Proof.
  assert (H : reachable started_state).
  { exists (started_run (Qc_of_Z 5)). vm_compute. reflexivity. }
  split; [exact H|].
  destruct (at_most_one_task_per_key started_state "nginx" "access" H)
    as (H1 & _ & H3 & _).
  split; [exact H1|]. apply H3.
  eexists 0, _. split; [vm_compute; reflexivity|]. split; reflexivity.
Defined.

(** C4 as stated fails for calls that overlap: [start_integration] tests
    [running] and registers the new state without a lock. Two callers start
    "nginx"/"access", the second running its tests before the first has
    registered: both calls return True, and the key is left with two running
    tasks and two threads. *)
Lemma overlapping_starts_run_two_tasks :
  caller_exec overlapping_starts_run (no_callers initial) =
    Some overlapping_starts_state
  /\ returned overlapping_starts_state =
       [(key_of "nginx" "access", true); (key_of "nginx" "access", true)]
  /\ standing overlapping_starts_state = []
  /\ length (running_tasks (world overlapping_starts_state)
               (key_of "nginx" "access")) = 2
  /\ length (threads (world overlapping_starts_state)) = 2
  /\ ~ length (running_tasks (world overlapping_starts_state)
                 (key_of "nginx" "access")) <= 1
  /\ serial_exec overlapping_starts_run (no_callers initial) = None.
Proof.
  split; [vm_compute; reflexivity|].
  split; [vm_compute; reflexivity|].
  split; [reflexivity|].
  assert (H : length (running_tasks (world overlapping_starts_state)
                        (key_of "nginx" "access")) = 2)
    by (vm_compute; reflexivity).
  split; [exact H|].
  split; [reflexivity|].
  split; [rewrite H; lia|].
  vm_compute. reflexivity.
Qed.

(** * The front end *)

(** ** The catalog and the lists of the front end *)

Lemma integration_list_sorted :
  integration_list = ["cisco_asa"; "nginx"; "windows"].
Proof. by vm_compute. Qed.

Lemma catalog_unordered :
  AVAILABLE_INTEGRATIONS =
  (fun ds => mkIntegrationInfo (list_to_map ds)) <$> dataset_items.
Proof. by vm_compute. Qed.

Lemma dataset_items_listed sel :
  sel ∈ integration_list ->
  exists ds, dataset_items !! sel = Some ds
             /\ (0 < len ds)%Z
             /\ forall d, d ∈ ds.*1 -> (sel, d) ∈ catalog_pairs.
Proof.
  rewrite integration_list_sorted. intros H.
  repeat (apply elem_of_cons in H as [-> | H]); [| | | by apply elem_of_nil in H].
  all: eexists; split; [by vm_compute|]; split; [done|].
  all: simpl; intros d Hd; unfold catalog_pairs.
  all: repeat (apply elem_of_cons in Hd as [-> | Hd]); try by apply elem_of_nil in Hd.
  all: set_solver.
Qed.

Lemma catalog_pairs_listed sel d :
  (sel, d) ∈ catalog_pairs -> sel ∈ integration_list.
Proof.
  rewrite integration_list_sorted. unfold catalog_pairs. intros H.
  repeat (apply elem_of_cons in H as [[= -> ->] | H]); try by apply elem_of_nil in H.
  all: set_solver.
Qed.

Lemma subscript_in_range {A} (l : list A) (i : Z) :
  (0 <= i < len l)%Z ->
  exists x, subscript l i = Returns x /\ l !! Z.to_nat i = Some x.
Proof.
  intros [H0 H1]. unfold subscript.
  destruct (decide (i < 0)%Z); [lia|].
  destruct (decide (i < 0)%Z); [lia|].
  destruct (l !! Z.to_nat i) eqn:E; [by eexists|].
  apply lookup_ge_None in E. unfold len in H1. lia.
Qed.

(** ** The registry in the order of its insertions *)

Lemma first_inserted_spec w key :
  key ∈ first_inserted w <->
  exists s, s ∈ heap w /\ key = key_of (name s) (dataset s).
Proof.
  unfold first_inserted.
  rewrite elem_of_reverse, elem_of_remove_dups, elem_of_reverse, list_elem_of_fmap.
  split; intros (s & H1 & H2); by exists s.
Qed.

Lemma first_inserted_NoDup w : NoDup (first_inserted w).
Proof.
  unfold first_inserted. rewrite reverse_Permutation. apply NoDup_remove_dups.
Qed.

Lemma registry_items_bound w key a :
  consistent w ->
  (key, a) ∈ registry_items w <-> integrations w !! key = Some a.
Proof.
  intros Hc. unfold registry_items. rewrite list_elem_of_omap. split.
  - intros (k & _ & Hk). destruct (integrations w !! k) eqn:E; simpl in Hk; [|done].
    by injection Hk as -> ->.
  - intros H. exists key. rewrite H. split; [|done].
    apply first_inserted_spec.
    destruct (registry_bound w Hc key a H) as (s & Hs & ->).
    exists s. split; [|done]. by eapply list_elem_of_lookup_2.
Qed.

Lemma omap_keys_NoDup (m : gmap string nat) (l : list string) :
  NoDup l -> NoDup (omap (fun key => (key,.) <$> m !! key) l).*1.
Proof.
  induction 1 as [|k l Hk Hl IH]; simpl; [constructor|].
  destruct (m !! k) eqn:E; simpl; [|done].
  constructor; [|done].
  rewrite list_elem_of_fmap. intros ([k' a'] & -> & H).
  apply list_elem_of_omap in H as (k2 & Hk2 & H).
  destruct (m !! k2); simpl in H; [|done]. injection H as -> ->. done.
Qed.

Lemma registry_items_NoDup w : NoDup (registry_items w).*1.
Proof. apply omap_keys_NoDup, first_inserted_NoDup. Qed.

Lemma registry_items_permutation w :
  consistent w -> registry_items w ≡ₚ map_to_list (integrations w).
Proof.
  intros Hc. apply NoDup_Permutation.
  - eapply NoDup_fmap_1, registry_items_NoDup.
  - apply NoDup_map_to_list.
  - intros [key a]. rewrite registry_items_bound, elem_of_map_to_list; done.
Qed.

Lemma running_of_spec w items :
  consistent w ->
  (forall key a, (key, a) ∈ items -> integrations w !! key = Some a) ->
  exists l,
    running_of w items = Ok l
    /\ (length l <= length items)%nat
    /\ (forall key s, (key, s) ∈ l <->
          exists a, (key, a) ∈ items /\ heap w !! a = Some s /\ running s = true).
Proof.
  intros Hc. induction items as [|[key a] items IH]; intros Hi.
  - exists []. split; [done|]. split; [done|]. intros key s. split.
    + by intros ?%elem_of_nil.
    + by intros (a & ?%elem_of_nil & _).
  - destruct IH as (l & Hl & Hn & Hs).
    { intros k b Hk. apply Hi. by right. }
    destruct (registry_bound w Hc key a) as (s & Ha & Hkey).
    { apply Hi. by left. }
    simpl. unfold deref. rewrite Ha. simpl. rewrite Hl. simpl.
    eexists. split; [done|]. split.
    { destruct (running s); simpl; lia. }
    intros k s0. destruct (running s) eqn:Er.
    + rewrite elem_of_cons, Hs. split.
      * intros [[= -> ->] | (b & Hb & H)].
        -- exists a. split; [by left | done].
        -- exists b. split; [by right | done].
      * intros (b & [[= -> ->] | Hb]%elem_of_cons & H1 & H2).
        -- left. rewrite Ha in H1. by injection H1 as ->.
        -- right. by exists b.
    + rewrite Hs. split.
      * intros (b & Hb & H). exists b. split; [by right | done].
      * intros (b & [[= -> ->] | Hb]%elem_of_cons & H1 & H2).
        -- rewrite Ha in H1. injection H1 as ->. congruence.
        -- by exists b.
Qed.

Lemma running_rows w :
  consistent w ->
  exists l,
    running_of w (registry_items w) = Ok l
    /\ forall key s, (key, s) ∈ l <->
         exists a, integrations w !! key = Some a /\ heap w !! a = Some s
                   /\ running s = true.
Proof.
  intros Hc.
  destruct (running_of_spec w (registry_items w) Hc) as (l & Hl & _ & Hs).
  { intros key a. by apply registry_items_bound. }
  exists l. split; [done|]. intros key s. rewrite Hs.
  split; intros (a & H & ?); exists a; (split; [|done]); by apply registry_items_bound.
Qed.

(** ** The rate of the config view *)

Lemma float_min_bounds lo hi x :
  (lo ≤ hi)%Qc -> (lo ≤ x)%Qc ->
  (lo ≤ float_min hi x)%Qc /\ (float_min hi x ≤ hi)%Qc.
Proof.
  intros H1 H2. unfold float_min. case_decide as H.
  - split; [done|]. by apply Qclt_le_weak.
  - split; [done|]. apply Qcle_refl.
Qed.

Lemma float_max_bounds lo hi x :
  (lo ≤ hi)%Qc -> (x ≤ hi)%Qc ->
  (lo ≤ float_max lo x)%Qc /\ (float_max lo x ≤ hi)%Qc.
Proof.
  intros H1 H2. unfold float_max. case_decide as H.
  - split; [|done]. by apply Qclt_le_weak.
  - split; [|done]. apply Qcle_refl.
Qed.

Lemma eps_bounds_ordered : (Q2Qc (1 # 10) ≤ Qc_of_Z 100)%Qc.
Proof. by vm_compute. Qed.

Lemma tui_ok_raise_eps ui :
  tui_ok ui -> current_view ui = ViewConfig ->
  tui_ok (set_eps_value (float_min (Qc_of_Z 100) (eps_value ui + Q2Qc (1 # 2))) ui).
Proof.
  intros [H1 H2 H3 H4] Hv.
  destruct (float_min_bounds (Q2Qc (1 # 10)) (Qc_of_Z 100)
              (eps_value ui + Q2Qc (1 # 2))) as [Ha Hb].
  { apply eps_bounds_ordered. }
  { eapply Qcle_trans; [exact H1|]. by apply Qcle_plus_r. }
  split; simpl; try done.
Qed.

Lemma tui_ok_lower_eps ui :
  tui_ok ui -> current_view ui = ViewConfig ->
  tui_ok (set_eps_value (float_max (Q2Qc (1 # 10)) (eps_value ui - Q2Qc (1 # 2))) ui).
Proof.
  intros [H1 H2 H3 H4] Hv.
  destruct (float_max_bounds (Q2Qc (1 # 10)) (Qc_of_Z 100)
              (eps_value ui - Q2Qc (1 # 2))) as [Ha Hb].
  { apply eps_bounds_ordered. }
  { eapply Qcle_trans; [|exact H2].
    rewrite <- (Qcplus_0_r (eps_value ui)) at 2.
    unfold Qcminus. by apply Qcplus_le_mono_l. }
  split; simpl; try done.
Qed.

(** ** The handlers return *)

Lemma listed_not_empty sel :
  sel ∈ integration_list -> exists c r, sel = String c r.
Proof.
  rewrite integration_list_sorted. intros H.
  repeat (apply elem_of_cons in H as [-> | H]); try by apply elem_of_nil in H.
  all: by eexists _, _.
Qed.

Lemma get_max_cursor_pos_spec ui w :
  tui_ok ui -> consistent w -> current_view ui <> ViewConfig ->
  exists max_pos,
    _get_max_cursor_pos ui w = Returns max_pos
    /\ (0 <= max_pos)%Z
    /\ tui_ok (set_cursor_pos (Z.min max_pos (cursor_pos ui + 1)) ui).
Proof.
  intros [H1 H2 H3 H4] Hc Hv. unfold _get_max_cursor_pos.
  unfold view_ok in H4.
  destruct (current_view ui) eqn:Ev; [| | done |].
  - assert (Hlen : len integration_list = 3%Z) by by rewrite integration_list_sorted.
    rewrite Hlen in *.
    eexists. split; [done|]. split; [done|].
    split; simpl; try done; [lia|].
    unfold view_ok. simpl. rewrite Ev, Hlen. lia.
  - destruct H4 as (sel & ds & Hs & Hl & Hd & Hcur).
    rewrite Hs. destruct (listed_not_empty sel Hl) as (c & r & ->).
    unfold getitem. rewrite Hd. simpl.
    eexists. split; [done|]. split; [lia|].
    split; simpl; try done; [lia|].
    unfold view_ok. simpl. rewrite Ev. exists (String c r), ds.
    repeat split; try done. lia.
  - destruct (running_rows w Hc) as (l & Hl & _). rewrite Hl. simpl.
    eexists. split; [done|]. split; [lia|].
    split; simpl; try done; [lia|].
    unfold view_ok. simpl. by rewrite Ev.
Qed.

Lemma handle_enter_spec ui w :
  tui_ok ui -> consistent w ->
  exists ui' w',
    _handle_enter ui w = Returns (ui', w')
    /\ tui_ok ui'
    /\ pressed ui w true ui' w'.
Proof.
  intros Hok Hc. pose proof Hok as [H1 H2 H3 H4].
  unfold _handle_enter. unfold view_ok in H4.
  destruct (current_view ui) eqn:Ev.
  - destruct (subscript_in_range integration_list (cursor_pos ui)) as (sel & -> & Hsel);
      [lia|].
    simpl. apply list_elem_of_lookup_2 in Hsel.
    destruct (dataset_items_listed sel Hsel) as (ds & Hd & Hn & _).
    eexists _, _. split; [done|]. split; [|constructor].
    split; simpl; try done.
    unfold view_ok. simpl. by exists sel, ds.
  - destruct H4 as (sel & ds & Hs & Hl & Hd & Hcur).
    rewrite Hs. unfold getitem. rewrite Hd. simpl.
    destruct (subscript_in_range (ds.*1) (cursor_pos ui)) as (d & -> & Hdl).
    { unfold len in *. rewrite length_fmap. lia. }
    simpl. apply list_elem_of_lookup_2 in Hdl.
    destruct (dataset_items_listed sel Hl) as (ds' & Hd' & _ & Hp).
    rewrite Hd in Hd'. injection Hd' as <-.
    eexists _, _. split; [done|]. split; [|constructor].
    split; simpl; try done; try by vm_compute.
    unfold view_ok. simpl. exists sel, d. repeat split; try done. by apply Hp.
  - destruct H4 as (sel & d & Hs & Hd & Hp).
    rewrite Hs, Hd. simpl.
    pose proof (start_integration_no_raise sel d (eps_value ui) w Hc) as Hn.
    destruct (start_integration sel d (eps_value ui) w) as [[success w']|e] eqn:E;
      [|by destruct Hn].
    simpl.
    exists (if success then set_cursor_pos 0 (set_current_view ViewStatus ui) else ui), w'.
    split; [by destruct success|]. split.
    + destruct success; [|done]. split; simpl; done.
    + apply (pressed_start ui w sel d success w'); try done.
      by apply in_catalog_pairs.
  - destruct (running_rows w Hc) as (rows & Hr & Hrows). rewrite Hr. simpl.
    destruct rows as [|row rows'] eqn:El; [by eexists _, _; split; [|split; [|constructor]]|].
    rewrite <- El in *. clear El row rows'.
    case_decide as Hlt; [|by eexists _, _; split; [|split; [|constructor]]].
    destruct (subscript_in_range rows (cursor_pos ui)) as ([key s] & -> & Hrow);
      [lia|].
    simpl. pose proof Hrow as Hin. apply list_elem_of_lookup_2 in Hin.
    apply Hrows in Hin as (a & Ha & Hs & Hrun).
    destruct (registry_bound w Hc key a Ha) as (s' & Hs' & Hkey).
    rewrite Hs in Hs'. injection Hs' as <-. subst key.
    rewrite (stop_integration_registered w (name s) (dataset s) a s) by done.
    simpl. eexists _, _. split; [done|]. split; [done|].
    eapply pressed_stop; try done.
    by apply stop_integration_registered.
Qed.

Lemma is_config_true v : is_config v = true <-> v = ViewConfig.
Proof. by destruct v. Qed.

Lemma handle_input_spec key ui w :
  tui_ok ui -> consistent w ->
  exists continue ui' w',
    _handle_input key ui w = Returns (continue, (ui', w'))
    /\ tui_ok ui'
    /\ pressed ui w continue ui' w'
    /\ (continue = false <-> key = ord "q" \/ key = ord "Q").
Proof.
  intros Hok Hc. pose proof Hok as [H1 H2 H3 H4].
  unfold _handle_input.
  destruct (decide (key = ord "q" \/ key = ord "Q")) as [Hq|Hq].
  { destruct (stop_all_effect w Hc) as (w' & Hs & _). rewrite Hs. simpl.
    exists false, ui, w'. repeat split; try done. by apply pressed_quit. }
  assert (Hgo : forall ui' w',
            tui_ok ui' -> pressed ui w true ui' w' ->
            exists continue ui'0 w'0,
              (after ← Returns (ui', w'); mret (true, after)) =
                Returns (continue, (ui'0, w'0))
              /\ tui_ok ui'0 /\ pressed ui w continue ui'0 w'0
              /\ (continue = false <-> key = ord "q" \/ key = ord "Q")).
  { intros ui' w' Hu Hp. exists true, ui', w'.
    split; [done|]. split; [done|]. split; [done|]. split; [done | by intros ?]. }
  destruct (decide (key = ord "i" \/ key = ord "I")).
  { apply Hgo; [|constructor]. split; simpl; done. }
  destruct (decide (key = ord "s" \/ key = ord "S")).
  { apply Hgo; [|constructor]. split; simpl; done. }
  destruct (decide (key = 27)%Z).
  { unfold view_ok in H4. destruct (current_view ui) eqn:Ev.
    - apply Hgo; [done|constructor].
    - apply Hgo; [|constructor]. split; simpl; done.
    - destruct H4 as (sel & d & Hs & Hd & Hp).
      pose proof (catalog_pairs_listed sel d Hp) as Hl.
      destruct (dataset_items_listed sel Hl) as (ds & Hds & Hn & _).
      apply Hgo; [|constructor]. split; simpl; try done.
      unfold view_ok. simpl. by exists sel, ds.
    - apply Hgo; [done|constructor]. }
  destruct (decide (key = KEY_UP)).
  { destruct (is_config (current_view ui)) eqn:Ec.
    - apply Hgo; [|constructor]. apply tui_ok_raise_eps; [done|].
      by apply is_config_true.
    - apply Hgo; [|constructor]. split; simpl; try done; [lia|].
      unfold view_ok in *. simpl. destruct (current_view ui); try done.
      + lia.
      + destruct H4 as (sel & ds & ? & ? & ? & ?). exists sel, ds.
        repeat split; try done. lia. }
  destruct (decide (key = KEY_DOWN)).
  { destruct (is_config (current_view ui)) eqn:Ec.
    - apply Hgo; [|constructor]. apply tui_ok_lower_eps; [done|].
      by apply is_config_true.
    - destruct (get_max_cursor_pos_spec ui w Hok Hc) as (max_pos & -> & _ & Hu).
      { intros Ev. rewrite Ev in Ec. done. }
      simpl. apply Hgo; [done|constructor]. }
  destruct (bool_decide (key = KEY_LEFT) && is_config (current_view ui)) eqn:El.
  { apply andb_true_iff in El as [_ El].
    apply Hgo; [|constructor]. apply tui_ok_lower_eps; [done|].
    by apply is_config_true. }
  destruct (bool_decide (key = KEY_RIGHT) && is_config (current_view ui)) eqn:Er.
  { apply andb_true_iff in Er as [_ Er].
    apply Hgo; [|constructor]. apply tui_ok_raise_eps; [done|].
    by apply is_config_true. }
  destruct (decide (key = 10 \/ key = KEY_ENTER)%Z).
  { destruct (handle_enter_spec ui w Hok Hc) as (ui' & w' & -> & Hu & Hp).
    by apply Hgo. }
  apply Hgo; [done|constructor].
Qed.

(** ** Rates and sleeps of the tasks of a session *)

Lemma Qcinv_le_compat (a b : Qc) :
  (0 < a)%Qc -> (a ≤ b)%Qc -> (/ b ≤ / a)%Qc.
Proof.
  intros Ha Hab.
  assert (Hb : (0 < b)%Qc) by by eapply Qclt_le_trans.
  assert (Hna : a <> 0%Qc).
  { intros E. rewrite E in Ha. by apply Qclt_not_eq in Ha. }
  assert (Hnb : b <> 0%Qc).
  { intros E. rewrite E in Hb. by apply Qclt_not_eq in Hb. }
  assert (E1 : (/ b = a * (/ a * / b))%Qc) by by field.
  assert (E2 : (/ a = b * (/ a * / b))%Qc) by by field.
  assert (H : (a * (/ a * / b) ≤ b * (/ a * / b))%Qc).
  { apply Qcmult_le_compat_r; [done|].
    apply Qclt_le_weak, Qcmult_pos_pos; by apply Qcinv_pos. }
  by rewrite <- E1, <- E2 in H.
Qed.

Lemma interval_bounds (eps : Qc) i :
  (Q2Qc (1 # 10) ≤ eps)%Qc -> (eps ≤ Qc_of_Z 100)%Qc ->
  compute_sleep_interval eps = Ok i ->
  (Q2Qc (1 # 100) ≤ i)%Qc /\ (i ≤ Qc_of_Z 10)%Qc.
Proof.
  intros Hlo Hhi Hi.
  assert (Hpos : (0 < eps)%Qc).
  { eapply Qclt_le_trans; [|exact Hlo]. by vm_compute. }
  rewrite compute_sleep_interval_pos in Hi by done. injection Hi as <-.
  unfold Qcdiv. rewrite Qcmult_1_l. split.
  - assert (E : Q2Qc (1 # 100) = (/ Qc_of_Z 100)%Qc) by by apply Qc_is_canon.
    rewrite E. by apply Qcinv_le_compat.
  - assert (E : Qc_of_Z 10 = (/ Q2Qc (1 # 10))%Qc) by by apply Qc_is_canon.
    rewrite E. apply Qcinv_le_compat; [by vm_compute | done].
Qed.

Lemma rates_bounded_step w l w' :
  consistent w -> rates_bounded w -> from_tui l -> changes w l w' ->
  rates_bounded w'.
Proof.
  intros Hw HP Hl Hch.
  destruct Hch as [l _|n d eps g Hcat Hnr|n d a0 s0 Hk Hs0|w' H1 H2 H3 H4 H5 H6 H7
                  |tid o s0 t w' Hs0 Ht Hc Hm|d Hd]; try done.
  - intros a s. simpl. intros H.
    destruct (decide (a < length (heap w))) as [Hlt|Hge].
    + rewrite lookup_app_l in H by done. by apply (HP a).
    + apply lookup_lt_Some in H as Hlen. rewrite length_app in Hlen. simpl in Hlen.
      assert (a = length (heap w)) as -> by lia.
      rewrite lookup_app_r, Nat.sub_diag in H by done. injection H as <-.
      exact Hl.
  - intros a s. simpl. intros H.
    apply lookup_insert_cases in H as [(-> & <- & _)|(_ & H)]; [|by apply (HP a)].
    simpl. by apply (HP a s0).
  - intros a s. rewrite H2. apply HP.
  - pose proof (cell_state _ _ _ Hc) as c3.
    assert (Hflush : forall a s,
              heap (try_bulk_index o tid t s0 w) !! a = Some s ->
              tui_rate (events_per_second s)).
    { intros a s H. unfold try_bulk_index in H. rewrite c3 in H.
      destruct (bulk_index o); simpl in H; [|by apply (HP a)].
      apply lookup_insert_cases in H as [(<- & <- & _)|(_ & H)]; [|by apply (HP a)].
      simpl. by apply (HP tid s0). }
    destruct Hm; intros a s; simpl; try apply HP; try apply Hflush.
    intros Hlook.
    apply lookup_insert_cases in Hlook as [(<- & <- & _)|(_ & Hlook)];
      [|by apply (HP a)].
    simpl. by apply (HP tid s0).
Qed.

Lemma wakes_soon_step w l w' :
  consistent w -> rates_bounded w -> wakes_soon w -> changes w l w' ->
  wakes_soon w'.
Proof.
  intros Hw Hr HP Hch. unfold wakes_soon in *.
  destruct Hch as [l _|n d eps g Hcat Hnr|n d a0 s0 Hk Hs0|w' H1 H2 H3 H4 H5 H6 H7
                  |tid o s0 t w' Hs0 Ht Hc Hm|d Hd]; try done.
  - intros tid t wake. simpl. intros H Hsl.
    destruct (decide (tid < length (threads w))) as [Hlt|Hge].
    + rewrite lookup_app_l in H by done. by apply (HP tid t).
    + apply lookup_lt_Some in H as Hlen. rewrite length_app in Hlen. simpl in Hlen.
      assert (tid = length (threads w)) as -> by lia.
      rewrite lookup_app_r, Nat.sub_diag in H by done. injection H as <-.
      by destruct Hsl.
  - intros tid t wake. rewrite H3, H4. apply HP.
  - assert (Hother : forall tid0 t0 ts wake,
              <[tid := ts]> (threads w) !! tid0 = Some t0 ->
              asleep_until wake t0 ->
              (asleep_until wake ts -> (wake ≤ clock w + Qc_of_Z 10)%Qc) ->
              (wake ≤ clock w + Qc_of_Z 10)%Qc).
    { intros tid0 t0 ts wake H Hsl Hts.
      apply lookup_insert_cases in H as [(_ & <- & _)|(_ & H)]; [by apply Hts|].
      by apply (HP tid0 t0). }
    assert (Hint : pc t <> PInit -> (sleep_interval t ≤ Qc_of_Z 10)%Qc).
    { intros Hpc. pose proof (Hr tid s0 Hs0) as Hrate.
      pose proof (cell_interval _ _ _ Hc Hpc) as Hi.
      destruct (events_per_second s0) as [q| | |]; try done.
      destruct Hrate as [Hlo Hhi].
      by destruct (interval_bounds _ _ Hlo Hhi Hi). }
    destruct Hm as [i Hpc Hi|b Hpc Hev|event ds Hpc Hg Hfull
                   |event ds p Hpc Hg Hlt' [[_ ->]|[_ ->]]|e Hpc Hg
                   |p Hpc [[_ ->]|[_ ->]]|wake0 Hsl0 Hwk|Hpc Hp|Hpc Hp|Hpc];
      intros tid0 t0 wake; simpl;
      rewrite ?try_bulk_index_threads, ?try_bulk_index_clock;
      intros H Hsl; (eapply Hother; [exact H|exact Hsl|]); simpl;
      intros [E|E]; simpl in E; try done; try (by destruct b).
    + injection E as <-. apply Qcplus_le_mono_l, Hint. by rewrite Hpc.
    + injection E as <-. by apply Qcplus_le_mono_l.
    + injection E as <-. by apply Qcplus_le_mono_l.
    + injection E as <-. apply Qcplus_le_mono_l, Hint. by rewrite Hpc.
    + injection E as <-. by apply Qcplus_le_mono_l.
  - intros tid t wake. simpl. intros H Hsl.
    eapply Qcle_trans; [by apply (HP tid t)|].
    apply Qcplus_le_mono_r. by apply Qcle_plus_r.
Qed.

(** ** Sessions *)

Lemma exec_invariant_of (Q : Label -> Prop) (P : Runtime -> Prop) :
  (forall w l w', consistent w -> P w -> Q l -> changes w l w' -> P w') ->
  forall ls w w', Forall Q ls -> consistent w -> P w -> exec ls w = Some w' -> P w'.
Proof.
  intros Hstep. induction ls as [|l ls IH]; intros w w' HQ Hw HP H; simpl in H.
  - by injection H as <-.
  - apply Forall_cons in HQ as [Hl HQ].
    destruct (step l w) as [w1|] eqn:E; [|done].
    apply (IH w1 w'); [done|by eapply step_consistent| |done].
    eapply Hstep; [done|done|done|by apply step_changes].
Qed.

Lemma pressed_labels ui w continue ui' w' :
  tui_ok ui -> pressed ui w continue ui' w' ->
  exists ls, Forall from_tui ls /\ exec ls w = Some w'.
Proof.
  intros Hok [w1 H|ui1|sel d success w1 Hv Hs Hd Hcat H|rows key s w1 Hv Hr Hrow H].
  - exists [CallStopAll]. split; [by repeat constructor|]. simpl. by rewrite H.
  - by exists [].
  - exists [CallStart sel d (eps_value ui)]. split.
    + repeat constructor; by destruct Hok.
    + simpl. by rewrite H.
  - exists [CallStop (name s) (dataset s)]. split; [by repeat constructor|].
    simpl. by rewrite H.
Qed.

Lemma session_step_spec i ss ss' :
  tui_ok (tui ss) -> consistent (process ss) ->
  session_step i ss = Some ss' ->
  tui_ok (tui ss')
  /\ exists ls, Forall from_tui ls /\ exec ls (process ss) = Some (process ss').
Proof.
  intros Hok Hc. unfold session_step. destruct (exited ss); [done|].
  destruct i as [key|tid o|d].
  - destruct (handle_input_spec key (tui ss) (process ss) Hok Hc)
      as (continue & ui' & w' & -> & Hok' & Hp & _).
    intros [= <-]. simpl. split; [done|]. exact (pressed_labels _ _ _ _ _ Hok Hp).
  - destruct (step (Run tid o) (process ss)) as [w'|] eqn:E; [|done].
    intros [= <-]. simpl. split; [done|]. exists [Run tid o].
    split; [by repeat constructor|]. simpl in *. by rewrite E.
  - destruct (step (Tick d) (process ss)) as [w'|] eqn:E; [|done].
    intros [= <-]. simpl. split; [done|]. exists [Tick d].
    split; [by repeat constructor|]. simpl in *. by rewrite E.
Qed.

Lemma session_exec_spec inputs ss ss' :
  tui_ok (tui ss) -> consistent (process ss) ->
  session_exec inputs ss = Some ss' ->
  tui_ok (tui ss')
  /\ exists ls, Forall from_tui ls /\ exec ls (process ss) = Some (process ss').
Proof.
  revert ss. induction inputs as [|i inputs IH]; intros ss Hok Hc H; simpl in H.
  - injection H as <-. split; [done|]. by exists [].
  - destruct (session_step i ss) as [ss1|] eqn:E; [|done].
    destruct (session_step_spec i ss ss1 Hok Hc E) as (Hok1 & ls1 & HQ1 & H1).
    destruct (IH ss1 Hok1 (exec_consistent _ _ _ Hc H1) H) as (Hok' & ls2 & HQ2 & H2).
    split; [done|]. exists (ls1 ++ ls2)%list. split; [by apply Forall_app|].
    rewrite exec_app, H1. done.
Qed.

Lemma initial_tui_ok : tui_ok initial_tui.
Proof. split; simpl; try done; by vm_compute. Qed.

Lemma session_reachable_spec ss :
  session_reachable ss ->
  tui_ok (tui ss)
  /\ exists ls, Forall from_tui ls /\ exec ls initial = Some (process ss).
Proof.
  intros [inputs H].
  exact (session_exec_spec inputs initial_session ss
           initial_tui_ok initial_consistent H).
Qed.

Lemma session_process_reachable ss :
  session_reachable ss -> reachable (process ss).
Proof.
  intros H. destruct (session_reachable_spec ss H) as (_ & ls & _ & Hls).
  by exists ls.
Qed.

Lemma session_paced ss :
  session_reachable ss ->
  rates_bounded (process ss) /\ wakes_soon (process ss).
Proof.
  intros H. destruct (session_reachable_spec ss H) as (_ & ls & HQ & Hls).
  apply (exec_invariant_of from_tui
           (fun w => rates_bounded w /\ wakes_soon w)) with ls initial;
    [|exact HQ|apply initial_consistent| |exact Hls].
  - intros w l w' Hw [Hr Hs] Hl Hch. split.
    + by eapply rates_bounded_step.
    + by eapply wakes_soon_step.
  - split.
    + intros a s Ha. simpl in Ha. by destruct a.
    + intros tid t wake Ht. simpl in Ht. by destruct tid.
Qed.

Lemma session_exec_app inputs1 inputs2 ss :
  session_exec (inputs1 ++ inputs2) ss
  = session_exec inputs1 ss ≫= session_exec inputs2.
Proof.
  revert ss. induction inputs1 as [|i inputs1 IH]; intros ss; simpl; [done|].
  by destruct (session_step i ss).
Qed.

Lemma session_reachable_step i ss ss' :
  session_reachable ss -> session_step i ss = Some ss' -> session_reachable ss'.
Proof.
  intros [inputs H] Hs. exists (inputs ++ [i])%list.
  rewrite session_exec_app, H. simpl. by rewrite Hs.
Qed.

Lemma enter_dispatch key ui w :
  (key = 10 \/ key = KEY_ENTER)%Z ->
  _handle_input key ui w = (after ← _handle_enter ui w; mret (true, after)).
Proof.
  intros Hk. unfold _handle_input.
  repeat (case_decide as H;
          [exfalso; destruct Hk as [-> | ->]; revert H; vm_compute;
           intuition discriminate|clear H]).
  assert (bool_decide (key = KEY_LEFT) = false) as ->.
  { apply bool_decide_eq_false. by destruct Hk as [-> | ->]. }
  assert (bool_decide (key = KEY_RIGHT) = false) as ->.
  { apply bool_decide_eq_false. by destruct Hk as [-> | ->]. }
  simpl. by case_decide.
Qed.

(** X12. In a session of the front end no key raises: whatever key
    [screen.getch()] returns, [_handle_input] returns, and the session goes
    on from what it leaves. The loop of [_main] ends on "q" and "Q" only. *)
Theorem key_presses_never_raise ss key :
  session_reachable ss -> exited ss = false ->
  exists continue ui w,
    _handle_input key (tui ss) (process ss) = Returns (continue, (ui, w))
    /\ (continue = false <-> key = ord "q" \/ key = ord "Q")
    /\ session_reachable (mkSession ui w (negb continue)).
Proof.
  intros Hr He.
  destruct (session_reachable_spec ss Hr) as (Hok & _).
  pose proof (reachable_consistent _ (session_process_reachable ss Hr)) as Hc.
  destruct (handle_input_spec key (tui ss) (process ss) Hok Hc)
    as (continue & ui & w & H & _ & _ & Hq).
  exists continue, ui, w. split; [done|]. split; [done|].
  apply (session_reachable_step (Key key) ss); [done|].
  unfold session_step. by rewrite He, H.
Qed.

(** X13. Whatever keys were pressed, the rate of the config view stays
    between 0.1 and 100 and the cursor is not negative. In the list of
    integrations and in the list of datasets the cursor stands on a row; the
    row of a dataset is a pair of the catalog with the selected integration,
    and so is the selection the config view holds. *)
Theorem tui_fields_stay_in_range ss :
  session_reachable ss ->
  (Q2Qc (1 # 10) ≤ eps_value (tui ss))%Qc
  /\ (eps_value (tui ss) ≤ Qc_of_Z 100)%Qc
  /\ (0 <= cursor_pos (tui ss))%Z
  /\ (current_view (tui ss) = ViewIntegrations ->
        exists sel,
          integration_list !! Z.to_nat (cursor_pos (tui ss)) = Some sel)
  /\ (current_view (tui ss) = ViewDatasets ->
        exists sel ds d,
          selected_integration (tui ss) = Some sel
          /\ dataset_items !! sel = Some ds
          /\ ds.*1 !! Z.to_nat (cursor_pos (tui ss)) = Some d
          /\ in_catalog sel d)
  /\ (current_view (tui ss) = ViewConfig ->
        exists sel d,
          selected_integration (tui ss) = Some sel
          /\ selected_dataset (tui ss) = Some d
          /\ in_catalog sel d).
Proof.
  intros Hr. destruct (session_reachable_spec ss Hr) as ([H1 H2 H3 H4] & _).
  split; [done|]. split; [done|]. split; [done|].
  unfold view_ok in H4. repeat split; intros Ev; rewrite Ev in H4.
  - destruct (subscript_in_range integration_list (cursor_pos (tui ss)))
      as (sel & _ & Hsel); [lia|]. by exists sel.
  - destruct H4 as (sel & ds & Hs & Hl & Hd & Hcur).
    destruct (subscript_in_range (ds.*1) (cursor_pos (tui ss))) as (d & _ & Hdl).
    { unfold len in *. rewrite length_fmap. lia. }
    exists sel, ds, d. repeat split; try done.
    destruct (dataset_items_listed sel Hl) as (ds' & Hd' & _ & Hp).
    rewrite Hd in Hd'. injection Hd' as <-.
    apply in_catalog_pairs, Hp. by eapply list_elem_of_lookup_2.
  - destruct H4 as (sel & d & Hs & Hd & Hp).
    exists sel, d. repeat split; try done. by apply in_catalog_pairs.
Qed.

(** X14. Every task started from the front end has a rate between 0.1 and
    100, so its thread sleeps between 0.01 and 10 seconds per event, and a
    sleeping thread wakes no later than ten seconds from now: a stop is seen
    by the thread within ten seconds of sleep. *)
Theorem tui_tasks_wake_within_ten_seconds ss a s t :
  session_reachable ss ->
  heap (process ss) !! a = Some s ->
  threads (process ss) !! a = Some t ->
  (exists q : Qc,
     events_per_second s = Finite q
     /\ (Q2Qc (1 # 10) ≤ q)%Qc /\ (q ≤ Qc_of_Z 100)%Qc)
  /\ (pc t <> PInit ->
        (Q2Qc (1 # 100) ≤ sleep_interval t)%Qc
        /\ (sleep_interval t ≤ Qc_of_Z 10)%Qc)
  /\ (forall wake, asleep_until wake t ->
        (wake ≤ clock (process ss) + Qc_of_Z 10)%Qc).
Proof.
  intros Hr Hs Ht.
  destruct (session_paced ss Hr) as [Hrates Hwake].
  pose proof (reachable_consistent _ (session_process_reachable ss Hr)) as Hc.
  pose proof (Hrates a s Hs) as Hrate.
  pose proof (cell_interval a s t (cells _ Hc a s t Hs Ht)) as Hi.
  destruct (events_per_second s) as [q| | |]; try done.
  destruct Hrate as [Hlo Hhi].
  split; [by exists q|]. split.
  - intros Hpc. by apply (interval_bounds q); [| |apply Hi].
  - intros wake Hsl. by apply (Hwake a t).
Qed.

(** X15. Enter in the config view starts the selected pair of the catalog at
    the rate shown. When the key has a running task nothing changes, the view
    included; otherwise a fresh task is registered and running under the key
    and the front end moves to the status view with the cursor on row 0. *)
Theorem enter_in_config_starts_the_selection ss key :
  session_reachable ss -> exited ss = false ->
  current_view (tui ss) = ViewConfig ->
  (key = 10 \/ key = KEY_ENTER)%Z ->
  exists sel d ss',
    selected_integration (tui ss) = Some sel
    /\ selected_dataset (tui ss) = Some d
    /\ in_catalog sel d
    /\ session_step (Key key) ss = Some ss'
    /\ exited ss' = false
    /\ ((registered_running (process ss) (key_of sel d) /\ ss' = ss)
        \/ (~ registered_running (process ss) (key_of sel d)
            /\ (exists g,
                  process ss' =
                    spawn sel d (eps_value (tui ss)) g (process ss))
            /\ registered_running (process ss') (key_of sel d)
            /\ tui ss' = set_cursor_pos 0 (set_current_view ViewStatus (tui ss)))).
Proof.
  intros Hr He Ev Hk.
  destruct (session_reachable_spec ss Hr) as (Hok & _).
  pose proof (reachable_consistent _ (session_process_reachable ss Hr)) as Hc.
  pose proof (cursor_view _ Hok) as Hv. unfold view_ok in Hv. rewrite Ev in Hv.
  destruct Hv as (sel & d & Hs & Hd & Hp).
  apply in_catalog_pairs in Hp.
  unfold session_step. rewrite He, (enter_dispatch key) by done.
  unfold _handle_enter. rewrite Ev, Hs, Hd. simpl.
  pose proof (start_integration_cases sel d (eps_value (tui ss)) (process ss)) as Hcases.
  pose proof (start_integration_no_raise sel d (eps_value (tui ss)) (process ss) Hc) as Hn.
  destruct (start_integration sel d (eps_value (tui ss)) (process ss))
    as [[[] w']|e] eqn:E; [| |by destruct Hn]; simpl.
  - destruct Hcases as (info & dsi & Hi & Hdsi & Hnr & ->).
    eexists sel, d, _. repeat split; try done. right. split; [done|].
    split; [by eexists|]. split; [|done].
    simpl. by apply spawn_registered_running.
  - destruct Hcases as [-> [Hrun|Hnc]]; [|done].
    eexists sel, d, _. repeat split; try done. left. split; [done|].
    destruct ss. simpl in *. by subst.
Qed.

(** X16. The rows of the status view are the registered tasks that are
    running. Enter in the status view stops the task of the row under the
    cursor, with the name and dataset of that row, and the stop is accepted;
    with the cursor under the last row nothing changes. The front end stays
    as it is. *)
Theorem enter_in_status_stops_the_row ss key :
  session_reachable ss -> exited ss = false ->
  current_view (tui ss) = ViewStatus ->
  (key = 10 \/ key = KEY_ENTER)%Z ->
  exists rows ss',
    running_of (process ss) (registry_items (process ss)) = Ok rows
    /\ (forall k s, (k, s) ∈ rows <->
          exists a, integrations (process ss) !! k = Some a
                    /\ heap (process ss) !! a = Some s /\ running s = true)
    /\ session_step (Key key) ss = Some ss'
    /\ tui ss' = tui ss
    /\ exited ss' = false
    /\ match rows !! Z.to_nat (cursor_pos (tui ss)) with
       | Some (k, s) =>
           k = key_of (name s) (dataset s)
           /\ stop_integration (name s) (dataset s) (process ss)
              = Ok (true, process ss')
       | None => process ss' = process ss
       end.
Proof.
  intros Hr He Ev Hk.
  destruct (session_reachable_spec ss Hr) as (Hok & _).
  pose proof (reachable_consistent _ (session_process_reachable ss Hr)) as Hc.
  pose proof (cursor_low _ Hok) as Hlow.
  destruct (running_rows (process ss) Hc) as (rows & Hrows & Hspec).
  exists rows.
  unfold session_step. rewrite He, (enter_dispatch key) by done.
  unfold _handle_enter. rewrite Ev, Hrows. simpl.
  destruct (rows !! Z.to_nat (cursor_pos (tui ss))) as [[k s]|] eqn:El.
  - assert (Hlt : (cursor_pos (tui ss) < len rows)%Z).
    { apply lookup_lt_Some in El. unfold len. lia. }
    destruct rows as [|row rows'] eqn:Erows; [done|]. rewrite <- Erows in *.
    case_decide; [|done].
    destruct (subscript_in_range rows (cursor_pos (tui ss))) as (x & -> & Hx); [lia|].
    rewrite El in Hx. injection Hx as <-. simpl.
    apply list_elem_of_lookup_2 in El. apply Hspec in El as (a & Ha & Hs & Hrun).
    destruct (registry_bound _ Hc k a Ha) as (s' & Hs' & Hkey).
    rewrite Hs in Hs'. injection Hs' as <-.
    rewrite (stop_integration_registered _ (name s) (dataset s) a s Hc) by congruence.
    simpl. eexists. repeat split; try done.
    + by apply Hspec.
    + by apply Hspec.
  - assert (Hge : ~ (cursor_pos (tui ss) < len rows)%Z).
    { apply lookup_ge_None in El. unfold len. lia. }
    destruct rows as [|row rows'] eqn:Erows.
    + simpl. eexists. repeat split; try done; by apply Hspec.
    + rewrite <- Erows in *. case_decide; [done|].
      simpl. eexists. repeat split; try done; by apply Hspec.
Qed.

Lemma key_presses_never_raise_witness :
  session_reachable config_session
  /\ exists continue ui w,
       _handle_input 27 (tui config_session) (process config_session)
       = Returns (continue, (ui, w))
       /\ session_reachable (mkSession ui w (negb continue)).
Proof.
  assert (H : session_reachable config_session).
  { exists config_inputs. vm_compute. reflexivity. }
  split; [exact H|].
  destruct (key_presses_never_raise config_session 27 H eq_refl)
    as (continue & ui & w & H1 & _ & H2).
  exists continue, ui, w. split; [exact H1|exact H2].
Defined.

Lemma tui_fields_stay_in_range_witness :
  session_reachable config_session
  /\ (Q2Qc (1 # 10) ≤ Q2Qc (3 # 2))%Qc /\ (Q2Qc (3 # 2) ≤ Qc_of_Z 100)%Qc
  /\ in_catalog "nginx" "access".
Proof.
  assert (H : session_reachable config_session).
  { exists config_inputs. vm_compute. reflexivity. }
  split; [exact H|].
  destruct (tui_fields_stay_in_range config_session H)
    as (H1 & H2 & _ & _ & _ & H3).
  split; [exact H1|]. split; [exact H2|].
  destruct (H3 eq_refl) as (sel & d & Hs & Hd & Hc).
  injection Hs as <-. injection Hd as <-. exact Hc.
Defined.

Lemma tui_tasks_wake_within_ten_seconds_witness :
  session_reachable asleep_session
  /\ (forall wake,
        (pc <$> threads (process asleep_session) !! 0) = Some (PSleep wake) ->
        (wake ≤ Qc_of_Z 10)%Qc).
Proof.
  assert (H : session_reachable asleep_session).
  { exists asleep_inputs. vm_compute. reflexivity. }
  split; [exact H|].
  destruct (tui_tasks_wake_within_ten_seconds asleep_session 0 _ _ H
              eq_refl eq_refl) as (_ & _ & H3).
  intros wake Hw. injection Hw as <-.
  exact (H3 _ (or_introl eq_refl)).
Defined.

Lemma enter_in_config_starts_the_selection_witness :
  session_reachable config_session
  /\ exists ss',
       session_step (Key 10) config_session = Some ss'
       /\ registered_running (process ss') "nginx:access"
       /\ current_view (tui ss') = ViewStatus.
Proof.
  assert (H : session_reachable config_session).
  { exists config_inputs. vm_compute. reflexivity. }
  split; [exact H|].
  destruct (enter_in_config_starts_the_selection config_session 10 H
              eq_refl eq_refl (or_introl eq_refl))
    as (sel & d & ss' & Hs & Hd & _ & Hstep & _ & Hcases).
  injection Hs as <-. injection Hd as <-.
  exists ss'. split; [exact Hstep|].
  destruct Hcases as [[(a & s & Ha & _) _]|(_ & _ & Hrun & Hui)].
  - vm_compute in Ha. discriminate.
  - split; [exact Hrun|]. rewrite Hui. reflexivity.
Defined.

Lemma enter_in_status_stops_the_row_witness :
  session_reachable status_session
  /\ exists ss',
       session_step (Key 10) status_session = Some ss'
       /\ stop_integration "nginx" "access" (process status_session)
          = Ok (true, process ss').
Proof.
  assert (H : session_reachable status_session).
  { exists status_inputs. vm_compute. reflexivity. }
  split; [exact H|].
  destruct (enter_in_status_stops_the_row status_session 10 H
              eq_refl eq_refl (or_introl eq_refl))
    as (rows & ss' & Hrows & _ & Hstep & _ & _ & Hrow).
  exists ss'. split; [exact Hstep|].
  vm_compute in Hrows. injection Hrows as <-.
  simpl in Hrow. exact (proj2 Hrow).
Defined.

(** * The data stream of the actions *)

Lemma catalog_data_stream n d info dsi :
  AVAILABLE_INTEGRATIONS !! n = Some info ->
  datasets info !! d = Some dsi ->
  DATA_STREAM (generator dsi) = data_stream dsi.
Proof.
  intros Hn Hd. unfold AVAILABLE_INTEGRATIONS in Hn. simpl in Hn.
  repeat (apply lookup_insert_Some in Hn as [[<- <-]|[_ Hn]]);
    try (by rewrite lookup_empty in Hn); simpl in Hd;
    repeat (apply lookup_insert_Some in Hd as [[<- <-]|[_ Hd]]);
    try (by rewrite lookup_empty in Hd); done.
Qed.

Lemma start_class n d eps g w :
  step (CallStart n d eps) w = Some (spawn n d eps g w) ->
  catalog_class n d g.
Proof.
  unfold step. intros H.
  pose proof (start_integration_cases n d eps w) as Hc.
  destruct (start_integration n d eps w) as [[[] w1]|e]; [| |done].
  - destruct Hc as (info & dsi & Hi & Hd & _ & ->). injection H as H.
    exists info, dsi. split; [done|]. split; [done|].
    apply app_inj_tail in H as [_ H]. by injection H.
  - destruct Hc as [-> _]. injection H as H.
    apply (f_equal (fun x => length (heap x))) in H. simpl in H.
    rewrite length_app in H. simpl in H. lia.
Qed.

Lemma routed_changes w l w' :
  consistent w -> routed w -> own_generator w l ->
  (forall n d eps g, l = CallStart n d eps -> w' = spawn n d eps g w ->
     catalog_class n d g) ->
  changes w l w' -> routed w'.
Proof.
  intros Hw [R1 R2 R3] Hl Hstart Hch.
  destruct Hch as [l _|n d eps g Hcat Hnr|n d a0 s0 Hk Hs0|w' H1 H2 H3 H4 H5 H6 H7
                  |tid o s0 t w' Hs0 Ht Hc Hm|d Hd]; try done.
  - pose proof (Hstart n d eps g eq_refl eq_refl) as Hg.
    pose proof (same_threads w Hw) as Hlen.
    split; simpl.
    + intros a s t Hs Ht.
      destruct (decide (a < length (heap w))) as [Hlt|Hge].
      * rewrite lookup_app_l in Hs by done.
        rewrite lookup_app_l in Ht by lia. by eapply R1.
      * apply lookup_lt_Some in Hs as Hl'. rewrite length_app in Hl'. simpl in Hl'.
        assert (a = length (heap w)) as -> by lia.
        rewrite lookup_app_r, Nat.sub_diag in Hs by done. injection Hs as <-.
        rewrite lookup_app_r, Hlen, Nat.sub_diag in Ht by lia. injection Ht as <-.
        exact Hg.
    + intros tid t action Ht Ha.
      destruct (decide (tid < length (threads w))) as [Hlt|Hge].
      * rewrite lookup_app_l in Ht by done. by eapply R2.
      * apply lookup_lt_Some in Ht as Hl'. rewrite length_app in Hl'. simpl in Hl'.
        assert (tid = length (threads w)) as -> by lia.
        rewrite lookup_app_r, Nat.sub_diag in Ht by done. injection Ht as <-.
        by apply elem_of_nil in Ha.
    + intros tid batch action Hb Ha.
      destruct (R3 tid batch action Hb Ha) as (t & Ht & E).
      exists t. split; [|done]. rewrite lookup_app_l; [done|].
      by eapply lookup_lt_Some.
  - split; simpl; [|done|done].
    intros a s t Hs Ht.
    apply lookup_insert_cases in Hs as [(-> & <- & _)|(_ & Hs)]; [|by eapply R1].
    simpl. by apply (R1 a s0 t).
  - split.
    + intros a s t. rewrite H2, H3. apply R1.
    + intros tid t action. rewrite H3. apply R2.
    + intros tid batch action. rewrite H5, H3. apply R3.
  - pose proof (cell_state _ _ _ Hc) as c3.
    pose proof (R1 tid s0 t Hs0 Ht) as Hclass.
    assert (Hlt : tid < length (threads w)) by by eapply lookup_lt_Some.
    assert (Hheap : forall h' : list IntegrationState,
              (forall a s, h' !! a = Some s ->
                 exists s1, heap w !! a = Some s1
                            /\ name s = name s1 /\ dataset s = dataset s1) ->
              forall ts, generator_class ts = generator_class t ->
              forall a s t1,
                h' !! a = Some s -> <[tid := ts]> (threads w) !! a = Some t1 ->
                catalog_class (name s) (dataset s) (generator_class t1)).
    { intros h' Hh ts Hts a s t1 Hs Ht1.
      destruct (Hh a s Hs) as (s1 & Hs1 & -> & ->).
      apply lookup_insert_cases in Ht1 as [(<- & <- & _)|(_ & Ht1)].
      - rewrite Hts. rewrite Hs0 in Hs1. by injection Hs1 as <-.
      - by eapply R1. }
    assert (Hsame : forall a s, heap w !! a = Some s ->
              exists s1, heap w !! a = Some s1
                         /\ name s = name s1 /\ dataset s = dataset s1).
    { intros a s Hs. by exists s. }
    assert (Hflush : forall a s,
              heap (try_bulk_index o tid t s0 w) !! a = Some s ->
              exists s1, heap w !! a = Some s1
                         /\ name s = name s1 /\ dataset s = dataset s1).
    { intros a s H. unfold try_bulk_index in H. rewrite c3 in H.
      destruct (bulk_index o); simpl in H; [|by exists s].
      apply lookup_insert_cases in H as [(<- & <- & _)|(_ & H)]; [|by exists s].
      by exists s0. }
    assert (Hpend : forall ts,
              generator_class ts = generator_class t ->
              (forall action, action ∈ pending_events ts ->
                 action_index action = DATA_STREAM (generator_class t)) ->
              forall tid0 t0 action,
                <[tid := ts]> (threads w) !! tid0 = Some t0 ->
                action ∈ pending_events t0 ->
                action_index action = DATA_STREAM (generator_class t0)).
    { intros ts Hts Hp tid0 t0 action H Ha.
      apply lookup_insert_cases in H as [(_ & <- & _)|(_ & H)]; [|by eapply R2].
      rewrite Hts. by apply Hp. }
    assert (Hcalls : forall ts,
              generator_class ts = generator_class t ->
              forall tid0 batch action,
                (tid0, batch) ∈ bulk_calls w -> action ∈ batch ->
                exists t0, <[tid := ts]> (threads w) !! tid0 = Some t0
                           /\ action_index action = DATA_STREAM (generator_class t0)).
    { intros ts Hts tid0 batch action Hb Ha.
      destruct (R3 tid0 batch action Hb Ha) as (t0 & Ht0 & E).
      destruct (decide (tid = tid0)) as [<-|Hne].
      - exists ts. rewrite list_lookup_insert_eq by done. split; [done|].
        rewrite Hts. rewrite Ht in Ht0. by injection Ht0 as <-.
      - exists t0. by rewrite list_lookup_insert_ne. }
    assert (Hcalls' : forall ts,
              generator_class ts = generator_class t ->
              forall tid0 batch action,
                (tid0, batch) ∈ (tid, pending_events t) :: bulk_calls w ->
                action ∈ batch ->
                exists t0, <[tid := ts]> (threads w) !! tid0 = Some t0
                           /\ action_index action = DATA_STREAM (generator_class t0)).
    { intros ts Hts tid0 batch action [[= -> ->]|Hb]%elem_of_cons Ha;
        [|by eapply Hcalls].
      exists ts. rewrite list_lookup_insert_eq by done. split; [done|].
      rewrite Hts. by eapply R2. }
    assert (Hold : forall action, action ∈ pending_events t ->
              action_index action = DATA_STREAM (generator_class t)).
    { intros action. by apply (R2 tid). }
    assert (Hnew : forall event ds action,
              generate o = Ok (event, ds) ->
              action ∈ (pending_events t ++ [mkBulkAction ds event])%list ->
              action_index action = DATA_STREAM (generator_class t)).
    { intros event ds action Hg [Ha|Ha]%elem_of_app; [by apply Hold|].
      apply list_elem_of_singleton in Ha as ->. simpl.
      simpl in Hl. rewrite Ht in Hl. unfold answers_for in Hl.
      by rewrite Hg in Hl. }
    destruct Hm as [i Hpc Hi|b Hpc Hev|event ds Hpc Hg Hfull
                   |event ds p Hpc Hg Hlt' Hsl|e Hpc Hg|p Hpc Hsl
                   |wake0 Hsl0 Hwk|Hpc Hp|Hpc Hp|Hpc];
      (split; simpl;
       rewrite ?try_bulk_index_threads, ?try_bulk_index_bulk_calls;
       [ first [ by apply Hheap | apply Hheap; [apply Hflush|done] | idtac ]
       | apply Hpend; [done|]; simpl;
         first [ done | by intros ? ?%elem_of_nil
               | intros ? ?; eapply Hnew; eassumption ]
       | first [ by apply Hcalls | by apply Hcalls' ] ]).
    apply Hheap; [|done]. intros a s H.
    apply lookup_insert_cases in H as [(<- & <- & _)|(_ & H)]; [|by exists s].
    by exists s0.
Qed.

Lemma routed_exec ls w w' :
  consistent w -> routed w -> own_generators ls w -> exec ls w = Some w' ->
  routed w'.
Proof.
  revert w. induction ls as [|l ls IH]; intros w Hw HR Hown H; simpl in H.
  - by injection H as <-.
  - destruct Hown as [Hl Hown].
    destruct (step l w) as [w1|] eqn:E; [|done].
    apply (IH w1); [by eapply step_consistent| |done|done].
    apply (routed_changes w l w1); [done|done|done| |by apply step_changes].
    intros n d eps g -> ->. by eapply start_class.
Qed.

Lemma initial_routed : routed initial.
Proof.
  split.
  - intros a s t H. simpl in H. by destruct a.
  - intros tid t action H. simpl in H. by destruct tid.
  - intros tid batch action H. by apply elem_of_nil in H.
Qed.

(** X17. Every action a thread hands to the sink names the data stream
    that the catalog declares for the integration and dataset of its task,
    in every run in which each thread is answered by a generator of the
    class it was started with. *)
Theorem actions_go_to_the_stream_of_the_catalog ls w tid batch action :
  exec ls initial = Some w ->
  own_generators ls initial ->
  (tid, batch) ∈ bulk_calls w ->
  action ∈ batch ->
  exists s info dsi,
    heap w !! tid = Some s
    /\ AVAILABLE_INTEGRATIONS !! name s = Some info
    /\ datasets info !! dataset s = Some dsi
    /\ action_index action = data_stream dsi.
Proof.
  intros Hexec Hown Hb Ha.
  pose proof (exec_consistent _ _ _ initial_consistent Hexec) as Hw.
  pose proof (routed_exec ls initial w initial_consistent initial_routed Hown Hexec)
    as [R1 R2 R3].
  destruct (R3 tid batch action Hb Ha) as (t & Ht & E).
  destruct (heap w !! tid) as [s|] eqn:Hs.
  - destruct (R1 tid s t Hs Ht) as (info & dsi & Hi & Hd & Hg).
    exists s, info, dsi. repeat split; try done.
    rewrite E, Hg. by eapply catalog_data_stream.
  - apply lookup_ge_None in Hs. apply lookup_lt_Some in Ht.
    rewrite (same_threads w Hw) in Ht. lia.
Qed.

Lemma actions_go_to_the_stream_of_the_catalog_witness :
  exec flushed_run initial = Some flushed_state
  /\ own_generators flushed_run initial
  /\ forall batch action,
       (0, batch) ∈ bulk_calls flushed_state -> action ∈ batch ->
       action_index action = "logs-nginx.access-default".
Proof.
  assert (H1 : exec flushed_run initial = Some flushed_state).
  { vm_compute. reflexivity. }
  assert (H2 : own_generators flushed_run initial).
  { vm_compute. repeat split. }
  split; [exact H1|]. split; [exact H2|].
  intros batch action Hb Ha.
  destruct (actions_go_to_the_stream_of_the_catalog flushed_run flushed_state
              0 batch action H1 H2 Hb Ha) as (s & info & dsi & Hs & Hi & Hd & E).
  injection Hs as <-. simpl in Hi.
  vm_compute in Hi. injection Hi as <-.
  vm_compute in Hd. injection Hd as <-.
  exact E.
Defined.

(** * The syslog message of the ASA *)

(** X18. The head of every syslog message [_build_message] writes for a
    message of [ASA_MESSAGES] is [%ASA-severity-id: ] with the severity and
    the id of that message, the ones the event carries in [event.severity]
    and [event.code]: the severities written into the branches of
    [_build_message] agree with the table. *)
Theorem asa_message_carries_the_event_severity msg event draw :
  msg ∈ ASA_MESSAGES ->
  exists rest, _build_message msg event draw = syslog_head msg +:+ rest.
Proof.
  unfold ASA_MESSAGES. intros H.
  repeat (apply elem_of_cons in H as [-> | H]); try by apply elem_of_nil in H.
  all: unfold _build_message, syslog_head;
       lazy beta iota zeta delta
         [str_in existsb String.eqb Ascii.eqb Bool.eqb orb
          msg_id msg_severity msg_type msg_action];
       match goal with
       | |- context [str_int ?n] =>
           match n with
           | Zpos _ => let s := eval vm_compute in (str_int n) in
                       change (str_int n) with s
           end
       end.
  all: eexists; reflexivity.
Qed.

Lemma asa_message_carries_the_event_severity_witness :
  sample_asa_message ∈ ASA_MESSAGES
  /\ exists rest,
       _build_message sample_asa_message sample_asa_event sample_asa_draws
       = "%ASA-4-106023: " +:+ rest.
Proof.
  assert (H : sample_asa_message ∈ ASA_MESSAGES).
  { unfold ASA_MESSAGES, sample_asa_message. repeat (first [by left | right]). }
  split; [exact H|].
  exact (asa_message_carries_the_event_severity sample_asa_message
           sample_asa_event sample_asa_draws H).
Defined.

(** * The body of a bulk request *)

Lemma split_lines_line x rest :
  one_line x = true ->
  split_lines (x +:+ String LF rest) =
    (x :: (split_lines rest).1, (split_lines rest).2).
Proof.
  induction x as [|c x IH]; intros Hx.
  - rewrite append_empty. simpl. by destruct (split_lines rest).
  - simpl in Hx. apply andb_true_iff in Hx as [Hc Hx].
    rewrite append_String. simpl. rewrite (IH Hx). simpl.
    apply negb_true_iff in Hc. by rewrite Hc.
Qed.

Lemma append_assoc_string (x y z : string) : (x +:+ y) +:+ z = x +:+ (y +:+ z).
Proof.
  induction x as [|c x IH]; [done|].
  by rewrite !append_String, IH.
Qed.

Lemma append_empty_r (x : string) : x +:+ "" = x.
Proof. induction x as [|c x IH]; [done|]. by rewrite append_String, IH. Qed.

Lemma bulk_body_from dumps_action dumps_doc (actions : list BulkAction)
    (body : string) :
  fold_left
    (fun body action =>
       let body := body +:+ dumps_action (action_index action) +:+ String LF "" in
       body +:+ dumps_doc (doc action) +:+ String LF "")
    actions body
  = body +:+ bulk_body dumps_action dumps_doc actions.
Proof.
  unfold bulk_body. revert body.
  induction actions as [|a actions IH]; intros body; simpl.
  - by rewrite append_empty_r.
  - rewrite IH. rewrite (IH (_ +:+ _)). rewrite !append_empty.
    by rewrite !append_assoc_string.
Qed.

Lemma bulk_body_cons dumps_action dumps_doc a actions :
  bulk_body dumps_action dumps_doc (a :: actions)
  = dumps_action (action_index a) +:+ String LF
      (dumps_doc (doc a) +:+ String LF
         (bulk_body dumps_action dumps_doc actions)).
Proof.
  unfold bulk_body at 1. simpl. rewrite bulk_body_from, !append_empty.
  rewrite !append_assoc_string. rewrite !append_String, !append_empty. done.
Qed.

(** X19. The body [bulk_index] sends is made of two lines for each action,
    the action line and then the document, in the order of the batch, and
    every line is ended by a line feed, the last one too, as long as the
    JSON encoder writes no line feed inside a line: the body of [n] actions
    has exactly [2 n] lines and nothing after them. *)
Theorem bulk_body_is_two_lines_per_action dumps_action dumps_doc actions :
  Forall (encoded_on_one_line dumps_action dumps_doc) actions ->
  split_lines (bulk_body dumps_action dumps_doc actions)
  = (flat_map (lines_of dumps_action dumps_doc) actions, "")
  /\ length (split_lines (bulk_body dumps_action dumps_doc actions)).1
     = 2 * length actions.
Proof.
  intros H.
  assert (E : split_lines (bulk_body dumps_action dumps_doc actions)
              = (flat_map (lines_of dumps_action dumps_doc) actions, "")).
  { induction H as [|a actions [Ha Hd] H IH]; [done|].
    rewrite bulk_body_cons.
    rewrite (split_lines_line _ _ Ha), (split_lines_line _ _ Hd), IH. done. }
  split; [done|]. rewrite E. simpl.
  clear. induction actions as [|a actions IH]; simpl; lia.
Qed.

Lemma bulk_body_is_two_lines_per_action_witness :
  Forall (encoded_on_one_line sample_dumps_action id) sample_batch
  /\ length (split_lines (bulk_body sample_dumps_action id sample_batch)).1 = 4.
Proof.
  assert (H : Forall (encoded_on_one_line sample_dumps_action id) sample_batch).
  { repeat constructor. }
  split; [exact H|].
  exact (proj2 (bulk_body_is_two_lines_per_action sample_dumps_action id
                  sample_batch H)).
Defined.
